(** * collaborative_call_once: the flag's state machine and the runner protocol

    A shallow embedding of [include/oneapi/tbb/collaborative_call_once.h].

    The header is concurrent code.  Every call of
    [collaborative_once_flag::do_collaborative_call_once] is one thread of an
    interleaving semantics: a thread is a program counter (named after the
    source line it is about to execute) with the locals of the function, and
    one step performs at most one access to shared memory (the atomic word
    [my_state], or one field of a [once_runner]).  Atomics are sequentially
    consistent in the model.

    The properties are proved through invariants of the reachable states.
    [Inv_mem] (the runners and the trace) and [Inv_word] (the word, the
    winner and the registered calls) hold for any number of calls.
    [Inv_core] (what a registered call decodes, the reference counts) holds
    as long as the admission count stays in its [bit_count] bits; the last
    section runs the executions in which it does not. *)

From Stdlib Require Import ZArith List Bool Lia Arith.
Import ListNotations.

Local Open Scope Z_scope.

(** ** Machine words *)

(** [std::uintptr_t] and [std::size_t]: 64-bit unsigned, wrap-around. *)
Definition wrap (z : Z) : Z := z mod 2 ^ 64.

(** [std::int64_t] (the type of [ref_count]): two's complement wrap-around. *)
Definition swrap (z : Z) : Z := (z + 2 ^ 63) mod 2 ^ 64 - 2 ^ 63.

(** line 38 *)
Definition bit_count : Z := 7.

(** [max_nfs_size] is declared outside this header; the [static_assert] of
    line 40 fixes it to [1 << bit_count]. *)
Definition max_nfs_size : Z := Z.shiftl 1 bit_count.

(** lines 42-44: [ptr & (std::size_t(-1) << bit_count)] *)
Definition maskoff_pointer (ptr : Z) : Z :=
  Z.land ptr (wrap (Z.shiftl (wrap (-1)) bit_count)).

(** line 135: [enum state {uninitialized, done}] *)
Definition uninitialized : Z := 0.
Definition done : Z := 1.

(** ** Data model *)

(** How a call leaves [do_collaborative_call_once]: by falling out of the
    [while] loop (line 187), by the winner's [return] (line 164), or by the
    exception of the user functor propagating out of [try_call] (line 158). *)
Inductive exit : Type :=
| exit_loop
| exit_return
| exit_throw (e : nat).

(** Program points.  [Lnnn] is "about to execute line nnn". *)
Inductive label : Type :=
| L143            (* expected = my_state.load()                           *)
| L144            (* once_runner local_runner;                            *)
| L145            (* while (expected != state::done)                      *)
| L146            (* expected == uninitialized && CAS(expected, &runner)  *)
| L97             (* make_runner: new(&m_storage) storage_t()             *)
| L98             (* make_runner: m_initialized.store(true); line 150     *)
| L114            (* run_once: my_wait_context.reserve()                  *)
| L116            (* run_once: execute_and_wait, the task runs f          *)
| L116w           (* run_once: execute_and_wait, wait and rethrow         *)
| L155 (e : nat)  (* on_exception: CAS(local_expected, uninitialized)     *)
| L156 (e : nat)  (* on_exception: local_expected = &local_runner         *)
| L160            (* CAS(local_expected, done)                            *)
| L161            (* local_expected = &local_runner                       *)
| L168            (* max_value = expected | (max_nfs_size-1)              *)
| L169            (* expected = spin_wait_while_eq(my_state, max_value)   *)
| L171            (* expected > done && !CAS(expected, expected + 1)      *)
| L173            (* runner = maskoff_pointer(expected); if (runner)      *)
| L174            (* runner->wait_for_init()                              *)
| L176            (* runner->increase_ref()                               *)
| L177            (* my_state.fetch_sub(1)                                *)
| L181            (* runner->assist()                                     *)
| L183            (* runner->decrease_ref()                               *)
| L90 (k : exit)  (* ~once_runner: spin_wait_while(ref_count, > 0)        *)
| L91 (k : exit)  (* ~once_runner: if (m_initialized) m_storage.~storage_t *)
| Finished (k : exit)
| Crashed (line : label).
                  (* undefined behaviour at that line (an address that
                     holds no live once_runner was dereferenced), or
                     std::terminate                                       *)

(** The locals of [do_collaborative_call_once]. *)
Record locals : Type := mk_locals {
  pc : label;
  expected : Z;
  local_expected : Z;
  max_value : Z;
  runner : Z
}.

(** lines 48-53; the arena is the scheduler's and carries no state here.
    [my_wait_context] is the completion counter, [my_context] the
    [task_group_context] that records the failure of the task. *)
Record storage_t : Type := mk_storage {
  my_wait_context : Z;
  my_context : option nat
}.

(** lines 69-76; the anonymous union is [None] until [make_runner]. *)
Record once_runner : Type := mk_runner {
  ref_count : Z;
  m_initialized : bool;
  m_storage : option storage_t
}.

(** What an execution does that an observer can see. *)
Inductive event : Type :=
| ev_call (t : nat)          (* the functor of call t ran                 *)
| ev_construct (t : nat)     (* storage_t constructed in t's runner       *)
| ev_teardown (t : nat).     (* storage_t destroyed in t's runner         *)

Record state : Type := mk_state {
  my_state : Z;
  thr : nat -> locals;
  mem : Z -> option once_runner;
  trace : list event
}.

(** The calls: how many, where each one's [local_runner] lives, and whether
    the functor it passes raises. *)
Record config : Type := mk_config {
  nthreads : nat;
  addr : nat -> Z;
  fails : nat -> bool
}.

Definition upd {A : Type} (f : nat -> A) (t : nat) (x : A) : nat -> A :=
  fun i => if Nat.eqb i t then x else f i.

Definition updm {A : Type} (m : Z -> option A) (a : Z) (x : option A)
  : Z -> option A :=
  fun b => if Z.eqb b a then x else m b.

Definition goto (p : label) (l : locals) : locals :=
  mk_locals p (expected l) (local_expected l) (max_value l) (runner l).
Definition set_expected (v : Z) (l : locals) : locals :=
  mk_locals (pc l) v (local_expected l) (max_value l) (runner l).
Definition set_local_expected (v : Z) (l : locals) : locals :=
  mk_locals (pc l) (expected l) v (max_value l) (runner l).
Definition set_max_value (v : Z) (l : locals) : locals :=
  mk_locals (pc l) (expected l) (local_expected l) v (runner l).
Definition set_runner (v : Z) (l : locals) : locals :=
  mk_locals (pc l) (expected l) (local_expected l) (max_value l) v.

Definition with_thr (t : nat) (l : locals) (s : state) : state :=
  mk_state (my_state s) (upd (thr s) t l) (mem s) (trace s).
Definition with_word (v : Z) (s : state) : state :=
  mk_state v (thr s) (mem s) (trace s).
Definition with_mem (a : Z) (r : option once_runner) (s : state) : state :=
  mk_state (my_state s) (thr s) (updm (mem s) a r) (trace s).
Definition emit (e : event) (s : state) : state :=
  mk_state (my_state s) (thr s) (mem s) (trace s ++ [e]).

Definition set_ref (v : Z) (r : once_runner) : once_runner :=
  mk_runner v (m_initialized r) (m_storage r).
Definition set_init (b : bool) (r : once_runner) : once_runner :=
  mk_runner (ref_count r) b (m_storage r).
Definition set_storage (st : option storage_t) (r : once_runner) : once_runner :=
  mk_runner (ref_count r) (m_initialized r) st.

(** ** The helpers the header calls

    None of them is defined in this header; each is modelled from the
    specification's description of the external collaborators. *)

(** Modelled from the spec: [wait_context::reserve] is not in this header.
    Section 6: "A completion counter abstraction: Reserve() before
    scheduling". *)
Definition reserve (st : storage_t) : storage_t :=
  mk_storage (wrap (my_wait_context st + 1)) (my_context st).

(** Modelled from the spec: the task object and its completion are not in
    this header.  Section 6: the counter is "decremented automatically when
    the scheduled task finishes"; the task is "bound to a completion counter
    and a failure context", so a failure of the closure is recorded in that
    context. *)
Definition task_finished (failure : option nat) (st : storage_t) : storage_t :=
  mk_storage (wrap (my_wait_context st - 1))
             (match failure with Some e => Some e | None => my_context st end).

(** Modelled from the spec: [execute_and_wait] and [wait] are not in this
    header.  Section 6: "a cooperative AwaitZero(counter, failureContext)
    that executes other stealable work while waiting and raises the first
    recorded failure on completion".  [None]: the counter is not zero yet. *)
Definition await_zero (counter : Z) (ctx : option nat) : option (option nat) :=
  if counter =? 0 then Some ctx else None.

(** line 126: a default-constructed [task_group_context] has recorded
    nothing. *)
Definition stub_context : option nat := None.

(** Modelled from the spec: [spin_wait_while_eq] is not in this header.
    Section 6: "WaitWhileEqual(atomic, value) -> newValue".  One load of the
    location: [None] while it still holds [value]. *)
Definition spin_wait_while_eq (location value : Z) : option Z :=
  if location =? value then None else Some location.

(** Modelled from the spec: [spin_wait_while] is not in this header.
    Section 6: "WaitWhile(atomic, predicate)".  One load of the location:
    [false] while the predicate holds. *)
Definition spin_wait_while (location : Z) (pred : Z -> bool) : bool :=
  negb (pred location).

(** Modelled from the spec: [try_call(body).on_exception(handler)] is not in
    this header.  Section 4.1, winner protocol, step 3: on failure the
    handler runs "then re-raise the captured failure to the caller"; without
    a failure control continues after the statement. *)
Definition try_call_on_exception (outcome : option nat)
    (handler : nat -> label) (next : label) : label :=
  match outcome with
  | Some e => handler e
  | None => next
  end.

Section Machine.

Variable cfg : config.

(** The functor of call [t]: it runs (the event), and raises or not. *)
Definition functor_failure (t : nat) : option nat :=
  if fails cfg t then Some t else None.

(** ** One step of call [t]

    [None]: the call cannot move (it has finished, it has run into undefined
    behaviour, or its stack slot is still occupied).  A spinning thread
    steps to the same program point. *)
Definition step (t : nat) (s : state) : option state :=
  let l := thr s t in
  let me := addr cfg t in
  match pc l with
  | L143 =>
      Some (with_thr t (goto L144 (set_expected (my_state s) l)) s)
  | L144 =>
      match mem s me with
      | None => Some (with_thr t (goto L145 l)
                        (with_mem me (Some (mk_runner 0 false None)) s))
      | Some _ => None
      end
  | L145 =>
      if expected l =? done
      then Some (with_thr t (goto (L90 exit_loop) l) s)
      else Some (with_thr t (goto L146 l) s)
  | L146 =>
      if expected l =? uninitialized then
        if my_state s =? expected l
        then Some (with_thr t (goto L97 l) (with_word me s))
        else Some (with_thr t (goto L168 (set_expected (my_state s) l)) s)
      else Some (with_thr t (goto L168 l) s)
  | L97 =>
      match mem s me with
      | Some r =>
          Some (with_thr t (goto L98 l)
                  (emit (ev_construct t)
                     (with_mem me (Some (set_storage (Some (mk_storage 0 None)) r)) s)))
      | None => Some (with_thr t (goto (Crashed L97) l) s)
      end
  | L98 =>
      match mem s me with
      | Some r =>
          Some (with_thr t (goto L114 (set_local_expected me l))
                  (with_mem me (Some (set_init true r)) s))
      | None => Some (with_thr t (goto (Crashed L98) l) s)
      end
  | L114 =>
      match mem s me with
      | Some r =>
          match m_storage r with
          | Some st =>
              Some (with_thr t (goto L116 l)
                      (with_mem me (Some (set_storage (Some (reserve st)) r)) s))
          | None => Some (with_thr t (goto (Crashed L114) l) s)
          end
      | None => Some (with_thr t (goto (Crashed L114) l) s)
      end
  | L116 =>
      match mem s me with
      | Some r =>
          match m_storage r with
          | Some st =>
              Some (with_thr t (goto L116w l)
                      (emit (ev_call t)
                         (with_mem me
                            (Some (set_storage
                                     (Some (task_finished (functor_failure t) st)) r))
                            s)))
          | None => Some (with_thr t (goto (Crashed L116) l) s)
          end
      | None => Some (with_thr t (goto (Crashed L116) l) s)
      end
  | L116w =>
      match mem s me with
      | Some r =>
          match m_storage r with
          | Some st =>
              match await_zero (my_wait_context st) (my_context st) with
              | None => Some s
              | Some outcome =>
                  Some (with_thr t
                          (goto (try_call_on_exception outcome L155 L160) l) s)
              end
          | None => Some (with_thr t (goto (Crashed L116w) l) s)
          end
      | None => Some (with_thr t (goto (Crashed L116w) l) s)
      end
  | L155 e =>
      if my_state s =? local_expected l
      then Some (with_thr t (goto (L90 (exit_throw e)) l) (with_word uninitialized s))
      else Some (with_thr t (goto (L156 e) (set_local_expected (my_state s) l)) s)
  | L156 e =>
      Some (with_thr t (goto (L155 e) (set_local_expected me l)) s)
  | L160 =>
      if my_state s =? local_expected l
      then Some (with_thr t (goto (L90 exit_return) l) (with_word done s))
      else Some (with_thr t (goto L161 (set_local_expected (my_state s) l)) s)
  | L161 =>
      Some (with_thr t (goto L160 (set_local_expected me l)) s)
  | L168 =>
      Some (with_thr t
              (goto L169 (set_max_value (Z.lor (expected l) (max_nfs_size - 1)) l)) s)
  | L169 =>
      match spin_wait_while_eq (my_state s) (max_value l) with
      | None => Some s
      | Some v => Some (with_thr t (goto L171 (set_expected v l)) s)
      end
  | L171 =>
      if done <? expected l then
        if my_state s =? expected l
        then Some (with_thr t (goto L173 l) (with_word (wrap (expected l + 1)) s))
        else Some (with_thr t (goto L168 (set_expected (my_state s) l)) s)
      else Some (with_thr t (goto L173 l) s)
  | L173 =>
      let r := maskoff_pointer (expected l) in
      if r =? 0
      then Some (with_thr t (goto L145 (set_runner r l)) s)
      else Some (with_thr t (goto L174 (set_runner r l)) s)
  | L174 =>
      match mem s (runner l) with
      | Some r =>
          match spin_wait_while_eq (Z.b2z (m_initialized r)) (Z.b2z false) with
          | None => Some s
          | Some _ => Some (with_thr t (goto L176 l) s)
          end
      | None => Some (with_thr t (goto (Crashed L174) l) s)
      end
  | L176 =>
      match mem s (runner l) with
      | Some r =>
          Some (with_thr t (goto L177 l)
                  (with_mem (runner l) (Some (set_ref (swrap (ref_count r + 1)) r)) s))
      | None => Some (with_thr t (goto (Crashed L176) l) s)
      end
  | L177 =>
      Some (with_thr t (goto L181 l) (with_word (wrap (my_state s - 1)) s))
  | L181 =>
      match mem s (runner l) with
      | Some r =>
          match m_storage r with
          | Some st =>
              match await_zero (my_wait_context st) stub_context with
              | None => Some s
              | Some (Some _) =>                                  (* noexcept *)
                  Some (with_thr t (goto (Crashed L181) l) s)
              | Some None => Some (with_thr t (goto L183 l) s)
              end
          | None => Some (with_thr t (goto (Crashed L181) l) s)
          end
      | None => Some (with_thr t (goto (Crashed L181) l) s)
      end
  | L183 =>
      match mem s (runner l) with
      | Some r =>
          Some (with_thr t (goto L145 l)
                  (with_mem (runner l) (Some (set_ref (swrap (ref_count r - 1)) r)) s))
      | None => Some (with_thr t (goto (Crashed L183) l) s)
      end
  | L90 k =>
      match mem s me with
      | Some r =>
          if spin_wait_while (ref_count r) (fun value => 0 <? value)
          then Some (with_thr t (goto (L91 k) l) s)
          else Some s
      | None => Some (with_thr t (goto (Crashed (L90 k)) l) s)
      end
  | L91 k =>
      match mem s me with
      | Some r =>
          if m_initialized r
          then Some (with_thr t (goto (Finished k) l)
                       (emit (ev_teardown t) (with_mem me None s)))
          else Some (with_thr t (goto (Finished k) l) (with_mem me None s))
      | None => Some (with_thr t (goto (Crashed (L91 k)) l) s)
      end
  | Finished _ => None
  | Crashed _ => None
  end.

(** The flag is fresh and no call has started. *)
Definition init : state :=
  mk_state uninitialized
           (fun _ => mk_locals L143 0 0 0 0)
           (fun _ => None)
           [].

(** Running a schedule: the calls that move, in order.  A call that cannot
    move, or that does not exist, is skipped. *)
Fixpoint exec (sched : list nat) (s : state) : state :=
  match sched with
  | [] => s
  | t :: rest =>
      if (t <? nthreads cfg)%nat then
        match step t s with
        | Some s' => exec rest s'
        | None => exec rest s
        end
      else exec rest s
  end.

(** [n] consecutive steps of call [t], with no other call in between. *)
Fixpoint steps (t : nat) (n : nat) (s : state) : option state :=
  match n with
  | O => Some s
  | S k => match step t s with
           | Some s' => steps t k s'
           | None => None
           end
  end.

Inductive reachable : state -> Prop :=
| reach_init : reachable init
| reach_step : forall s t s',
    reachable s -> (t < nthreads cfg)%nat -> step t s = Some s' -> reachable s'.

(** ** Roles of a call, read off its program point *)

(** Between the winning compare-and-swap of line 146 and the successful
    compare-and-swap of line 155 or 160. *)
Definition winner_pc (p : label) : bool :=
  match p with
  | L97 | L98 | L114 | L116 | L116w | L155 _ | L156 _ | L160 | L161 => true
  | _ => false
  end.

(** Between the successful registration of line 171 and the [fetch_sub] of
    line 177: the call's unit is in the admission count.  It stays there
    when the call goes wrong before line 177. *)
Definition registered (l : locals) : bool :=
  match pc l with
  | L173 => done <? expected l
  | L174 | L176 | L177 => true
  | Crashed L174 | Crashed L176 => true
  | _ => false
  end.

(** Between [increase_ref] and [decrease_ref] on the runner at [a]. *)
Definition holds_ref (a : Z) (l : locals) : bool :=
  match pc l with
  | L177 | L181 | L183 => runner l =? a
  | _ => false
  end.

(** The call's [local_runner] exists (line 144 to the end of line 94). *)
Definition live (p : label) : bool :=
  match p with
  | L143 | L144 | Finished _ => false
  | _ => true
  end.

(** The runner's bundle is built and its owner has not left the spin of
    line 90. *)
Definition alive_init (p : label) : bool :=
  match p with
  | L114 | L116 | L116w | L155 _ | L156 _ | L160 | L161 => true
  | L90 exit_return | L90 (exit_throw _) => true
  | _ => false
  end.

(** The program points of a call that found the flag done. *)
Definition on_done_path (l : locals) : bool :=
  match pc l with
  | L143 => true
  | L144 | L145 => expected l =? done
  | L90 exit_loop | L91 exit_loop | Finished exit_loop => true
  | _ => false
  end.

(** An exception is pending in the call, or was delivered to its caller. *)
Definition throwing (p : label) : option nat :=
  match p with
  | L155 e | L156 e => Some e
  | L90 (exit_throw e) | L91 (exit_throw e) | Finished (exit_throw e) => Some e
  | _ => None
  end.

Fixpoint cnt (f : nat -> bool) (n : nat) : Z :=
  match n with
  | O => 0
  | S k => cnt f k + Z.b2z (f k)
  end.

(** The number of registered calls, and of calls holding a reference to the
    runner at [a]. *)
Definition regs (s : state) : Z :=
  cnt (fun i => registered (thr s i)) (nthreads cfg).
Definition refs (a : Z) (s : state) : Z :=
  cnt (fun i => holds_ref a (thr s i)) (nthreads cfg).

Definition event_eqb (a b : event) : bool :=
  match a, b with
  | ev_call x, ev_call y => Nat.eqb x y
  | ev_construct x, ev_construct y => Nat.eqb x y
  | ev_teardown x, ev_teardown y => Nat.eqb x y
  | _, _ => false
  end.

Definition occ (e : event) (tr : list event) : nat :=
  length (filter (event_eqb e) tr).

Definition is_call (e : event) : bool :=
  match e with ev_call _ => true | _ => false end.

(** The shared counter of the tests: how often a functor ran. *)
Definition ncalls (s : state) : nat := length (filter is_call (trace s)).

(** ** Configurations *)

(** A runner is aligned to [max_nfs_size], is not at address 0 and lies in
    the address space. *)
Definition wf_addr (a : Z) : bool :=
  (a mod max_nfs_size =? 0) && (0 <? a) && (a <? 2 ^ 64).

(** Every runner is well placed; the word can count all the calls on top of
    the address of any runner, and so can [ref_count]. *)
Definition wf_config : bool :=
  forallb (fun t => wf_addr (addr cfg t) &&
                    (addr cfg t + Z.of_nat (nthreads cfg) <=? 2 ^ 64))
          (seq 0 (nthreads cfg))
  && (Z.of_nat (nthreads cfg) <? 2 ^ 63).

Definition never_fails : bool :=
  forallb (fun t => negb (fails cfg t)) (seq 0 (nthreads cfg)).

(** At most [max_nfs_size] calls, or no functor raises. *)
Definition bounded : bool :=
  (Z.of_nat (nthreads cfg) <=? max_nfs_size) || never_fails.

(** ** Invariants *)

(** What the owner's program point says about [m_initialized] and
    [m_storage] of its own runner. *)
Definition shape (t : nat) (p : label) : option (bool * option storage_t) :=
  match p with
  | L143 | L144 | Finished _ => None
  | L98 => Some (false, Some (mk_storage 0 None))
  | L114 => Some (true, Some (mk_storage 0 None))
  | L116 => Some (true, Some (mk_storage 1 None))
  | L116w => Some (true, Some (mk_storage 0 (functor_failure t)))
  | L155 e | L156 e => Some (true, Some (mk_storage 0 (Some e)))
  | L160 | L161 => Some (true, Some (mk_storage 0 None))
  | L90 exit_return | L91 exit_return => Some (true, Some (mk_storage 0 None))
  | L90 (exit_throw e) | L91 (exit_throw e) =>
      Some (true, Some (mk_storage 0 (Some e)))
  | _ => Some (false, None)
  end.

(** A pending or delivered exception is the one of the call's own functor;
    a winner that got past line 158 had a functor that returned. *)
Definition raised_ok (t : nat) (p : label) : Prop :=
  match p with
  | L155 e | L156 e
  | L90 (exit_throw e) | L91 (exit_throw e) | Finished (exit_throw e) =>
      e = t /\ fails cfg t = true
  | L160 | L161
  | L90 exit_return | L91 exit_return | Finished exit_return =>
      fails cfg t = false
  | _ => True
  end.

(** How many bundles the call has built, how often its functor ran, how many
    bundles it has destroyed. *)
Definition hist (p : label) : nat * nat * nat :=
  match p with
  | L98 | L114 | L116 => (1, 0, 0)
  | L116w | L155 _ | L156 _ | L160 | L161 => (1, 1, 0)
  | L90 exit_return | L90 (exit_throw _)
  | L91 exit_return | L91 (exit_throw _) => (1, 1, 0)
  | Finished exit_return | Finished (exit_throw _) => (1, 1, 1)
  | _ => (0, 0, 0)
  end%nat.

Definition hist_ok (t : nat) (s : state) : Prop :=
  hist (pc (thr s t)) =
  (occ (ev_construct t) (trace s), occ (ev_call t) (trace s),
   occ (ev_teardown t) (trace s)).

Definition shape_ok (t : nat) (s : state) : Prop :=
  forall ini st, shape t (pc (thr s t)) = Some (ini, st) ->
    exists rc, mem s (addr cfg t) = Some (mk_runner rc ini st).

(** Runners that exist at the same time are different objects. *)
Definition distinct_live (s : state) : Prop :=
  forall t1 t2, live (pc (thr s t1)) = true -> live (pc (thr s t2)) = true ->
    addr cfg t1 = addr cfg t2 -> t1 = t2.

(** Where [local_expected] holds the address of the call's own runner:
    from line 150 on, except between a failed compare-and-swap and the
    assignment that follows it. *)
Definition armed (p : label) : bool :=
  match p with
  | L114 | L116 | L116w | L155 _ | L160 => true
  | _ => false
  end.

Definition lexp_ok (s : state) : Prop :=
  forall t, armed (pc (thr s t)) = true ->
    local_expected (thr s t) = addr cfg t.

(** The part that holds for any number of calls. *)
Record Inv_mem (s : state) : Prop := {
  im_shape : forall t, shape_ok t s;
  im_raised : forall t, raised_ok t (pc (thr s t));
  im_hist : forall t, hist_ok t s;
  im_distinct : distinct_live s;
  im_lexp : lexp_ok s
}.

(** The flag is idle or done and no call is the winner or registered, or one
    winner is at work and the word is the address of its runner plus the
    number of registered calls. *)
Definition word_ok (s : state) : Prop :=
  ((my_state s = uninitialized \/ my_state s = done) /\
   forall t, (t < nthreads cfg)%nat ->
     winner_pc (pc (thr s t)) = false /\ registered (thr s t) = false)
  \/
  (exists w, (w < nthreads cfg)%nat /\
     winner_pc (pc (thr s w)) = true /\
     (forall t, (t < nthreads cfg)%nat -> winner_pc (pc (thr s t)) = true -> t = w) /\
     my_state s = addr cfg w + regs s).

(** A call left without raising. *)
Definition left_normally (p : label) : bool :=
  match p with
  | L90 exit_loop | L91 exit_loop | Finished exit_loop => true
  | L90 exit_return | L91 exit_return | Finished exit_return => true
  | _ => false
  end.

(** A call that read [done], or left without raising, did so on a flag
    that is done. *)
Definition done_ok (s : state) : Prop :=
  forall t, (t < nthreads cfg)%nat ->
    (expected (thr s t) = done -> my_state s = done) /\
    (left_normally (pc (thr s t)) = true -> my_state s = done).

(** The part about the word; it holds for any number of calls. *)
Record Inv_word (s : state) : Prop := {
  iw_phase : word_ok s;
  iw_expected : forall t, 0 <= expected (thr s t) < 2 ^ 64;
  iw_seen : forall t, registered (thr s t) = true ->
    max_nfs_size <= expected (thr s t);
  iw_done : done_ok s
}.

(** A registered call observed the word of the current winner's runner, below
    the saturated value, and decoded that runner. *)
Definition reg_ok (a : Z) (l : locals) : Prop :=
  registered l = true ->
  a <= expected l <= a + 126 /\ (pc l <> L173 -> runner l = a).

(** The flag is idle or done, or one winner is at work and the low bits of
    the word count the registered calls. *)
Definition phase_ok (s : state) : Prop :=
  ((my_state s = uninitialized \/ my_state s = done) /\
   forall t, (t < nthreads cfg)%nat ->
     winner_pc (pc (thr s t)) = false /\ registered (thr s t) = false)
  \/
  (exists w, (w < nthreads cfg)%nat /\
     winner_pc (pc (thr s w)) = true /\
     (forall t, (t < nthreads cfg)%nat -> winner_pc (pc (thr s t)) = true -> t = w) /\
     my_state s = addr cfg w + regs s /\
     regs s <= max_nfs_size - 1 /\
     forall t, (t < nthreads cfg)%nat -> reg_ok (addr cfg w) (thr s t)).

Definition past_init (p : label) : bool :=
  match p with
  | L176 | L177 | L181 | L183 => true
  | _ => false
  end.

Definition holder_ok (s : state) : Prop :=
  forall t, (t < nthreads cfg)%nat -> past_init (pc (thr s t)) = true ->
    exists w, (w < nthreads cfg)%nat /\ runner (thr s t) = addr cfg w /\
              alive_init (pc (thr s w)) = true.

Definition ref_ok (s : state) : Prop :=
  forall w, (w < nthreads cfg)%nat -> live (pc (thr s w)) = true ->
    exists r, mem s (addr cfg w) = Some r /\ ref_count r = refs (addr cfg w) s.

(** The part that needs the admission count to stay in its bits. *)
Record Inv_core (s : state) : Prop := {
  ic_phase : phase_ok s;
  ic_holder : holder_ok s;
  ic_ref : ref_ok s;
  ic_nocrash : forall t, (t < nthreads cfg)%nat ->
    forall p, pc (thr s t) <> Crashed p
}.

(** What a registration needs to keep the count in its bits. *)
Definition reg_guard (t : nat) (s : state) : Prop :=
  pc (thr s t) = L171 -> done < expected (thr s t) ->
  my_state s = expected (thr s t) -> regs s <= max_nfs_size - 2.

Definition entry_pc (p : label) : bool :=
  match p with
  | L143 | L144 | L145 | L146 => true
  | _ => false
  end.

Definition assist_pc (p : label) : bool :=
  match p with
  | L168 | L169 | L171 | L173 | L174 | L176 | L177 | L181 | L183 => true
  | _ => false
  end.

Definition ran_functor (p : label) : bool :=
  match p with
  | L116w | L155 _ | L156 _ | L160 | L161 => true
  | _ => false
  end.

(** What a call has seen of the word when no functor raises, relative to
    the winner [w]. *)
Definition view_ok (w : nat) (l : locals) : Prop :=
  (expected l = 0 \/
   addr cfg w <= expected l <= addr cfg w + (max_nfs_size - 1)) /\
  (assist_pc (pc l) = true -> expected l <> 0) /\
  (pc l = L169 -> max_value l = addr cfg w + (max_nfs_size - 1)) /\
  (pc l = L171 -> expected l <= addr cfg w + (max_nfs_size - 2)).

(** The part that holds when no functor raises. *)
Record Inv_nf (s : state) : Prop := {
  nf_idle : my_state s = uninitialized ->
    ncalls s = 0%nat /\
    forall t, (t < nthreads cfg)%nat ->
      entry_pc (pc (thr s t)) = true /\ expected (thr s t) = 0;
  nf_active : forall w, (w < nthreads cfg)%nat -> winner_pc (pc (thr s w)) = true ->
    ncalls s = (if ran_functor (pc (thr s w)) then 1 else 0)%nat /\
    forall t, (t < nthreads cfg)%nat -> view_ok w (thr s t);
  nf_done : my_state s = done -> ncalls s = 1%nat
}.

End Machine.

(** ** Executions used as examples *)

(** Three calls; the functor of call 0 raises. *)
Definition cfg3 : config :=
  mk_config 3 (fun t => 128 * (Z.of_nat t + 1)) (fun t => Nat.eqb t 0).

(** Three calls, no functor raises. *)
Definition cfg_ok3 : config :=
  mk_config 3 (fun t => 128 * (Z.of_nat t + 1)) (fun _ => false).

(** 130 calls; the functor of call 0 raises. *)
Definition cfg130 : config :=
  mk_config 130 (fun t => 128 * (Z.of_nat t + 1)) (fun t => Nat.eqb t 0).

(** Call 1 is about to register on the runner at 384. *)
Definition s_active_171 : state :=
  mk_state 384 (fun _ => mk_locals L171 384 0 511 0) (fun _ => None) [].

Definition s_registered_173 : state :=
  with_thr 1 (goto L173 (thr s_active_171 1%nat)) (with_word 385 s_active_171).

(** Call 1 won, ran its functor and returned. *)
Definition s_done3 : state := exec cfg3 (repeat 1%nat 12) init.

(** Call 0 won and its functor raised; it is about to reset the flag. *)
Definition s_failed3 : state := exec cfg3 (repeat 0%nat 9) init.

(** Call 1 is the winner; call 2 registered, waited for the bundle and took
    a reference. *)
Definition s_handoff3 : state :=
  exec cfg3 (repeat 1%nat 7 ++ repeat 2%nat 10) init.

(** Call 2 assists; call 1 has set the flag to done and waits in its
    destructor. *)
Definition s_assisting3 : state :=
  exec cfg3 (repeat 1%nat 7 ++ repeat 2%nat 11 ++ repeat 1%nat 3) init.

Definition round_robin3 : list nat := concat (repeat [0%nat; 1%nat; 2%nat] 40).

Definition s_all_returned3 : state := exec cfg_ok3 round_robin3 init.

(** Call 0 wins; call 1 reads the word and computes its sentinel from the
    runner of call 0; call 0 fails and resets the flag; call 2 wins; calls 3
    to 129 register one after the other. *)
Definition saturating_schedule : list nat :=
  repeat 0%nat 4 ++ repeat 1%nat 5 ++ repeat 0%nat 6 ++ repeat 2%nat 4
  ++ flat_map (fun i => repeat i 7) (seq 3 127).

Definition s_saturated : state := exec cfg130 saturating_schedule init.

(** Call 1 is scheduled again: the load of line 169, the compare-and-swap of
    line 171. *)
Definition s_overflow : state := exec cfg130 [1%nat; 1%nat] s_saturated.

(** [local_runner] objects of calls in progress do not overlap: the
    addresses of two of them differ by at least the size of a
    [once_runner], a multiple of [max_nfs_size] (line 46) that covers the
    reference count, the flag and the bundle of lines 48 to 53.  [apart cfg
    d] says that no two runners of [cfg] lie less than [d] bytes apart. *)
Definition apart (cfg : config) (d : Z) : bool :=
  forallb
    (fun t =>
       forallb
         (fun u => Nat.eqb t u || (d <=? Z.abs (addr cfg t - addr cfg u)))
         (seq 0 (nthreads cfg)))
    (seq 0 (nthreads cfg)).

(** 131 calls, their runners [2 ^ 18] bytes apart; the functor of call 0
    raises. *)
Definition cfg_wide131 : config :=
  mk_config 131 (fun t => 2 ^ 18 * (Z.of_nat t + 1)) (fun t => Nat.eqb t 0).

(** As in [saturating_schedule]; then call 1 registers as the 128th call,
    and call 130 reads the word, registers and decodes its runner pointer at
    line 173. *)
Definition stray_schedule : list nat :=
  saturating_schedule ++ repeat 1%nat 2 ++ repeat 130%nat 8.

Definition s_stray_registered : state := exec cfg_wide131 stray_schedule init.

(** Call 130 goes on to [wait_for_init]. *)
Definition s_stray : state := exec cfg_wide131 [130%nat] s_stray_registered.








(** ** Further roles, schedules and executions *)

(** The call left by the winner's [return] of line 164. *)
Definition returned (p : label) : bool :=
  match p with
  | L90 exit_return | L91 exit_return | Finished exit_return => true
  | _ => false
  end.

(** The lines at which a call goes through the [runner] pointer it
    decoded from the word. *)
Definition via_runner (p : label) : bool :=
  match p with
  | L174 | L176 | L181 | L183 => true
  | _ => false
  end.

(** The flag is done exactly through one call that returned as the winner. *)
Definition Inv_returned (cfg : config) (s : state) : Prop :=
  (my_state s = done ->
   exists w, (w < nthreads cfg)%nat /\ returned (pc (thr s w)) = true) /\
  (forall w1 w2, (w1 < nthreads cfg)%nat -> (w2 < nthreads cfg)%nat ->
     returned (pc (thr s w1)) = true -> returned (pc (thr s w2)) = true ->
     w1 = w2).

(** The calls of [ts] one after the other, each run to its end. *)
Definition sequential (ts : list nat) : list nat :=
  flat_map (fun t => repeat t 12) ts.

(** What sequential calls do: each call runs its functor until the first
    one that does not raise. *)
Fixpoint sequential_trace (cfg : config) (ts : list nat) : list event :=
  match ts with
  | [] => []
  | t :: rest =>
      [ev_construct t; ev_call t; ev_teardown t]
      ++ (if fails cfg t then sequential_trace cfg rest else [])
  end.

(** The calls of [ts] have not started and their stack slots are free. *)
Definition fresh_calls (cfg : config) (ts : list nat) (s : state) : Prop :=
  forall t, In t ts ->
    (t < nthreads cfg)%nat /\ pc (thr s t) = L143 /\ mem s (addr cfg t) = None.

(** Call 1 has run its functor and is about to set the flag to done; call 2
    is about to register. *)
Definition s_at_171 : state :=
  exec cfg3 (repeat 1%nat 9 ++ repeat 2%nat 6) init.

(** Call 1 has set the flag to done; call 2 is back from [assist] at the
    head of the loop. *)
Definition s_back_done : state := exec cfg3 [2%nat; 2%nat] s_assisting3.

(** Call 0 won, call 1 registered and assisted, the functor of call 0
    raised and call 0 reset the flag; call 1 is back at the head of the
    loop. *)
Definition s_back_reset : state :=
  exec cfg3 (repeat 0%nat 7 ++ repeat 1%nat 11 ++ repeat 0%nat 4
             ++ repeat 1%nat 2) init.

(** Call 1 has run its functor and is about to set the flag to done. *)
Definition s_at_160 : state := exec cfg3 (repeat 1%nat 9) init.

(** Call 1 is the winner; call 2 is about to read the word at line 169. *)
Definition s_at_169 : state :=
  exec cfg3 (repeat 1%nat 4 ++ repeat 2%nat 5) init.

(** * Proofs *)

(** ** Words *)

Lemma mask_value : wrap (Z.shiftl (wrap (-1)) bit_count) = 2 ^ 64 - 128.
Proof. reflexivity. Qed.

Lemma mask_testbit i :
  0 <= i -> Z.testbit (2 ^ 64 - 128) i = (7 <=? i) && (i <? 64).
Proof.
  intros Hi.
  replace (2 ^ 64 - 128) with (Z.shiftl (Z.ones 57) 7) by reflexivity.
  rewrite Z.shiftl_spec by assumption.
  destruct (7 <=? i) eqn:E7.
  - apply Z.leb_le in E7. rewrite Z.testbit_ones by lia.
    destruct (i <? 64) eqn:E; [apply Z.ltb_lt in E | apply Z.ltb_ge in E].
    + simpl. apply andb_true_intro. split; [apply Z.leb_le | apply Z.ltb_lt]; lia.
    + simpl. apply andb_false_intro2. apply Z.ltb_ge. lia.
  - apply Z.leb_gt in E7. simpl. apply Z.testbit_neg_r. lia.
Qed.

Lemma maskoff_spec p :
  0 <= p < 2 ^ 64 -> maskoff_pointer p = p - p mod 128.
Proof.
  intros Hp. unfold maskoff_pointer. rewrite mask_value.
  assert (E : p - p mod 128 = Z.shiftl (Z.shiftr p 7) 7).
  { rewrite Z.shiftl_mul_pow2, Z.shiftr_div_pow2 by lia.
    change (2 ^ 7) with 128. pose proof (Z.div_mod p 128). lia. }
  rewrite E. apply Z.bits_inj'. intros i Hi.
  rewrite Z.land_spec, mask_testbit by assumption.
  rewrite Z.shiftl_spec by assumption.
  destruct (7 <=? i) eqn:E7.
  - apply Z.leb_le in E7. rewrite Z.shiftr_spec by lia.
    replace (i - 7 + 7) with i by lia.
    destruct (i <? 64) eqn:E64; simpl.
    + apply andb_true_r.
    + apply Z.ltb_ge in E64. rewrite andb_false_r. symmetry.
      destruct (Z.eq_dec p 0) as [->|Hnz]; [apply Z.testbit_0_l|].
      apply Z.bits_above_log2; [lia|].
      apply Z.lt_le_trans with 64; [|assumption].
      apply Z.log2_lt_pow2; lia.
  - apply Z.leb_gt in E7. simpl. rewrite andb_false_r.
    symmetry. apply Z.testbit_neg_r. lia.
Qed.

Lemma maskoff_base a c :
  0 <= a < 2 ^ 64 -> a mod 128 = 0 -> 0 <= c <= 127 ->
  maskoff_pointer (a + c) = a.
Proof.
  intros Ha Hal Hc.
  assert (a + 128 <= 2 ^ 64).
  { pose proof (Z.div_mod a 128). 
    assert (a / 128 < 2 ^ 57) by (apply Z.div_lt_upper_bound; lia).
    change (2 ^ 64) with (128 * 2 ^ 57). lia. }
  rewrite maskoff_spec by lia.
  replace ((a + c) mod 128) with c; [lia|].
  symmetry. rewrite <- (Z.mod_small c 128) at 2 by lia.
  rewrite Z.add_mod, Hal by lia. simpl. rewrite Z.mod_mod by lia. reflexivity.
Qed.

Lemma lor_sentinel a c :
  0 <= a -> a mod 128 = 0 -> 0 <= c <= 127 ->
  Z.lor (a + c) (max_nfs_size - 1) = a + 127.
Proof.
  intros Ha Hal Hc. change (max_nfs_size - 1) with (Z.ones 7).
  assert (Ea : a = Z.shiftl (a / 128) 7).
  { rewrite Z.shiftl_mul_pow2 by lia. change (2 ^ 7) with 128.
    pose proof (Z.div_mod a 128). lia. }
  assert (Hq : 0 <= a / 128) by (apply Z.div_pos; lia).
  set (q := a / 128) in *.
  assert (Hsum : forall d, 0 <= d <= 127 -> a + d = Z.lor a d).
  { intros d Hd.
    assert (Hland : Z.land a d = 0).
    { rewrite Ea. apply Z.bits_inj'. intros i Hi.
      rewrite Z.land_spec, Z.bits_0, Z.shiftl_spec by lia.
      destruct (Z.lt_ge_cases i 7).
      + rewrite Z.testbit_neg_r by lia. reflexivity.
      + replace (Z.testbit d i) with false; [apply andb_false_r|].
        symmetry. destruct (Z.eq_dec d 0) as [->|]; [apply Z.testbit_0_l|].
        apply Z.bits_above_log2; [lia|].
        apply Z.lt_le_trans with 7; [|assumption]. apply Z.log2_lt_pow2; lia. }
    rewrite Z.add_nocarry_lxor by exact Hland.
    apply Z.lxor_lor. exact Hland. }
  rewrite (Hsum c Hc), (Hsum 127) by lia.
  rewrite <- Z.lor_assoc. f_equal.
  change 127 with (Z.ones 7). rewrite Z.lor_ones_low; try lia. 
  destruct (Z.eq_dec c 0) as [->|]; [simpl; lia|].
  apply Z.log2_lt_pow2; lia.
Qed.

Lemma maskoff_small z : 0 <= z <= 1 -> maskoff_pointer z = 0.
Proof.
  intros Hz. assert (z = 0 \/ z = 1) as [->| ->] by lia; reflexivity.
Qed.

Lemma maskoff_large z : 128 <= z < 2 ^ 64 -> maskoff_pointer z <> 0.
Proof.
  intros Hz. rewrite maskoff_spec by lia.
  pose proof (Z.mod_pos_bound z 128 ltac:(lia)).
  pose proof (Z.div_mod z 128 ltac:(lia)).
  assert (1 <= z / 128) by (apply Z.div_le_lower_bound; lia). lia.
Qed.

Lemma wrap_small z : 0 <= z < 2 ^ 64 -> wrap z = z.
Proof. intros. unfold wrap. apply Z.mod_small. assumption. Qed.

Lemma swrap_small z : - 2 ^ 63 <= z < 2 ^ 63 -> swrap z = z.
Proof. intros. unfold swrap. rewrite Z.mod_small; lia. Qed.

Lemma wrap_range z : 0 <= wrap z < 2 ^ 64.
Proof. unfold wrap. apply Z.mod_pos_bound. lia. Qed.

(** ** Updates and counting *)

Lemma upd_same {A} (f : nat -> A) t x : upd f t x t = x.
Proof. unfold upd. rewrite Nat.eqb_refl. reflexivity. Qed.

Lemma upd_other {A} (f : nat -> A) t x i : i <> t -> upd f t x i = f i.
Proof. intros H. unfold upd. apply Nat.eqb_neq in H. rewrite H. reflexivity. Qed.

Lemma updm_same {A} (m : Z -> option A) a x : updm m a x a = x.
Proof. unfold updm. rewrite Z.eqb_refl. reflexivity. Qed.

Lemma updm_other {A} (m : Z -> option A) a x b : b <> a -> updm m a x b = m b.
Proof. intros H. unfold updm. apply Z.eqb_neq in H. rewrite H. reflexivity. Qed.

Lemma cnt_ext f g n :
  (forall i, (i < n)%nat -> f i = g i) -> cnt f n = cnt g n.
Proof.
  induction n as [|n IH]; intros H; simpl; [reflexivity|].
  rewrite IH, H by (intros; try apply H; lia). reflexivity.
Qed.

Lemma cnt_bounds f n : 0 <= cnt f n <= Z.of_nat n.
Proof.
  induction n as [|n IH]; simpl cnt; [lia|].
  destruct (f n); simpl Z.b2z; lia.
Qed.

Lemma cnt_upd (f : locals -> bool) g t x n :
  (t < n)%nat ->
  cnt (fun i => f (upd g t x i)) n
  = cnt (fun i => f (g i)) n - Z.b2z (f (g t)) + Z.b2z (f x).
Proof.
  induction n as [|n IH]; intros Ht; [lia|].
  simpl cnt. destruct (Nat.eq_dec t n) as [->|Hne].
  - rewrite upd_same.
    rewrite (cnt_ext (fun i => f (upd g n x i)) (fun i => f (g i))).
    + lia.
    + intros i Hi. rewrite upd_other by lia. reflexivity.
  - rewrite IH by lia. rewrite upd_other by lia. lia.
Qed.

Lemma cnt_pos f n t : (t < n)%nat -> f t = true -> 1 <= cnt f n.
Proof.
  induction n as [|n IH]; intros Ht Hf; [lia|].
  simpl cnt. destruct (Nat.eq_dec t n) as [->|Hne].
  - rewrite Hf. pose proof (cnt_bounds f n). simpl Z.b2z. lia.
  - specialize (IH ltac:(lia) Hf). destruct (f n); simpl Z.b2z; lia.
Qed.

Lemma cnt_zero f n t : cnt f n = 0 -> (t < n)%nat -> f t = false.
Proof.
  intros H0 Ht. destruct (f t) eqn:E; [|reflexivity].
  pose proof (cnt_pos f n t Ht E). lia.
Qed.

Lemma cnt_all_false f n : (forall i, (i < n)%nat -> f i = false) -> cnt f n = 0.
Proof.
  intros H. rewrite (cnt_ext f (fun _ => false)) by assumption.
  clear H. induction n; simpl; lia.
Qed.

Lemma cnt_miss f n t : (t < n)%nat -> f t = false -> cnt f n <= Z.of_nat n - 1.
Proof.
  induction n as [|n IH]; intros Ht Hf; [lia|].
  simpl cnt. destruct (Nat.eq_dec t n) as [->|Hne].
  - rewrite Hf. pose proof (cnt_bounds f n). simpl Z.b2z. lia.
  - specialize (IH ltac:(lia) Hf). destruct (f n); simpl Z.b2z; lia.
Qed.

Lemma cnt_miss2 f n t u :
  (t < n)%nat -> (u < n)%nat -> t <> u -> f t = false -> f u = false ->
  cnt f n <= Z.of_nat n - 2.
Proof.
  induction n as [|n IH]; intros Ht Hu Hne Hft Hfu; [lia|].
  simpl cnt. destruct (Nat.eq_dec t n) as [->|Htn].
  - rewrite Hft. pose proof (cnt_miss f n u ltac:(lia) Hfu). simpl Z.b2z. lia.
  - destruct (Nat.eq_dec u n) as [->|Hun].
    + rewrite Hfu. pose proof (cnt_miss f n t ltac:(lia) Hft). simpl Z.b2z. lia.
    + specialize (IH ltac:(lia) ltac:(lia) Hne Hft Hfu).
      destruct (f n); simpl Z.b2z; lia.
Qed.

Lemma event_eqb_refl e : event_eqb e e = true.
Proof. destruct e; simpl; apply Nat.eqb_refl. Qed.

Lemma occ_app e tr e' :
  occ e (tr ++ [e']) = (occ e tr + (if event_eqb e e' then 1 else 0))%nat.
Proof.
  unfold occ. rewrite filter_app, length_app. simpl.
  destruct (event_eqb e e'); reflexivity.
Qed.

Lemma ncalls_emit e s :
  ncalls (emit e s) = (ncalls s + (if is_call e then 1 else 0))%nat.
Proof.
  unfold ncalls, emit. simpl. rewrite filter_app, length_app. simpl.
  destruct (is_call e); reflexivity.
Qed.

Ltac break_match H :=
  repeat match type of H with
    | context [match ?x with _ => _ end] =>
        let E := fresh "E" in destruct x eqn:E
    end.

(** Tests of a step, put into the form of equations between values. *)
Ltac tidy :=
  repeat match goal with
  | E : (if ?c then _ else _) = _ |- _ =>
      let C := fresh "C" in destruct c eqn:C; try discriminate E
  | E : Some _ = Some _ |- _ => injection E as E; try subst
  | E : Some _ = None |- _ => discriminate E
  | E : None = Some _ |- _ => discriminate E
  | E : negb _ = true |- _ => apply negb_true_iff in E
  | E : negb _ = false |- _ => apply negb_false_iff in E
  | E : (_ =? _) = true |- _ => apply Z.eqb_eq in E
  | E : (_ =? _) = false |- _ => apply Z.eqb_neq in E
  | E : (_ <? _) = true |- _ => apply Z.ltb_lt in E
  | E : (_ <? _) = false |- _ => apply Z.ltb_ge in E
  end.

Lemma wrap_0p1 : wrap (0 + 1) = 1.
Proof. reflexivity. Qed.
Lemma wrap_1m1 : wrap (1 - 1) = 0.
Proof. reflexivity. Qed.

(** ** The runners and the trace *)

Section OwnRunner.
Variable cfg : config.

Lemma shape_live t p x : shape cfg t p = Some x -> live p = true.
Proof. destruct p; try destruct k; simpl; intros; congruence. Qed.

Lemma live_shape t p : live p = true -> exists x, shape cfg t p = Some x.
Proof. destruct p; try destruct k; simpl; intros; try congruence; eauto. Qed.

(** The own runner of a live call, by its program point. *)
Lemma own_runner s t :
  Inv_mem cfg s -> live (pc (thr s t)) = true ->
  exists rc ini st, shape cfg t (pc (thr s t)) = Some (ini, st) /\
    mem s (addr cfg t) = Some (mk_runner rc ini st).
Proof.
  intros I L. destruct (live_shape t _ L) as [[ini st] Hs].
  destruct (im_shape _ _ I t _ _ Hs) as [rc Hm]. eauto 6.
Qed.

End OwnRunner.

(** Case analysis of a step from a state that satisfies [Inv_mem]: the
    program point first, the own runner in the form the program point
    dictates, then the tests of the step. *)
Ltac step_cases I H :=
  match type of H with
  | step ?cfg ?t ?s = Some ?s' =>
      let Hpc := fresh "Hpc" in
      let L := fresh "L" in
      let rc := fresh "rc" in
      let Hm := fresh "Hm" in
      let Hs := fresh "Hs" in
      let ini := fresh "ini" in
      let st := fresh "st" in
      cbv beta zeta delta [step] in H;
      destruct (pc (thr s t))
        as [ | | | | | | | | | ? | ? | | | | | | | | | | | | [| |?] | [| |?] | ? | ? ]
        eqn:Hpc;
      try discriminate H;
      first
        [ assert (L : live (pc (thr s t)) = true) by (rewrite Hpc; reflexivity);
          destruct (own_runner cfg s t I L) as (rc & ini & st & Hs & Hm);
          rewrite Hpc in Hs; simpl in Hs; injection Hs as <- <-; clear L;
          try (rewrite Hm in H; cbv beta iota in H)
        | idtac ];
      unfold await_zero, spin_wait_while_eq, spin_wait_while, stub_context in H;
      simpl in H; rewrite ?wrap_0p1, ?wrap_1m1 in H;
      break_match H;
      try discriminate H;
      injection H as H; subst s';
      tidy
  end.

Section MemoryInvariant.
Variable cfg : config.

Lemma updm_case {A} (m : Z -> option A) a x b :
  (b = a /\ updm m a x b = x) \/ (b <> a /\ updm m a x b = m b).
Proof.
  destruct (Z.eq_dec b a) as [->|H]; [left|right]; split;
    auto using updm_same, updm_other.
Qed.

Lemma other_addr s t t' :
  Inv_mem cfg s -> t' <> t -> live (pc (thr s t')) = true ->
  live (pc (thr s t)) = true \/ mem s (addr cfg t) = None ->
  addr cfg t' <> addr cfg t.
Proof.
  intros I Hne L' [L|Hn] Heq.
  - apply Hne. apply (im_distinct _ _ I); assumption.
  - destruct (own_runner cfg s t' I L') as (rc & ini & st & _ & Hm).
    rewrite Heq in Hm. congruence.
Qed.

Lemma shape_step t s s' :
  Inv_mem cfg s -> step cfg t s = Some s' -> forall t', shape_ok cfg t' s'.
Proof.
  intros I H t'. 
  pose proof (im_shape _ _ I t') as St'.
  assert (Ho : t' <> t -> live (pc (thr s t')) = true ->
               live (pc (thr s t)) = true \/ mem s (addr cfg t) = None ->
               addr cfg t' <> addr cfg t) by (intros; eapply other_addr; eauto).
  unfold shape_ok in *.
  step_cases I H; simpl.
  all: destruct (Nat.eq_dec t' t) as [->|Hne];
    [ rewrite ?upd_same; clear St'; simpl; intros ini st Hs;
      try rewrite Hpc in Hs; simpl in Hs
    | rewrite ?upd_other by assumption; intros ini st Hs;
      pose proof (shape_live _ _ _ _ Hs) as L';
      specialize (Ho Hne L');
      destruct (St' _ _ Hs) as [rc' Hm'] ].
  all: unfold try_call_on_exception, functor_failure, task_finished, reserve in *;
    try match goal with
        | |- context [fails _ ?x] => destruct (fails cfg x) eqn:F
        | H : context [fails _ ?x] |- _ => destruct (fails cfg x) eqn:F
        end;
    simpl in *; rewrite ?wrap_0p1, ?wrap_1m1; tidy.
  all: try (rewrite updm_other by
              (apply Ho; first [left; reflexivity | right; reflexivity | right; assumption])).
  all: try (eexists; eassumption).
  all: try (tidy; rewrite ?updm_same; eexists; first [reflexivity | eassumption]).
  all: try match goal with
    | |- context [updm ?m ?a ?x ?b] =>
        let Ea := fresh "Ea" in
        destruct (updm_case m a x b) as [[Ea ->]|[Ea ->]];
        [ match goal with
          | E : m a = Some _ |- _ => rewrite <- Ea in E
          end | ]
    end.
  all: try match goal with
    | E : mem ?s ?a = Some ?o, Hm : mem ?s ?a = Some _ |- _ =>
        rewrite Hm in E; injection E as <-
    end.
  all: try (simpl; eexists; first [reflexivity | eassumption]).
Qed.

Lemma raised_step t s s' :
  Inv_mem cfg s -> step cfg t s = Some s' ->
  forall t', raised_ok cfg t' (pc (thr s' t')).
Proof.
  intros I H t'.
  pose proof (im_raised _ _ I t') as R'.
  pose proof (im_raised _ _ I t) as R.
  step_cases I H; simpl.
  all: destruct (Nat.eq_dec t' t) as [->|Hne];
    [ rewrite ?upd_same; clear R'; rewrite ?Hpc in *; simpl in *
    | rewrite ?upd_other by assumption; exact R' ].
  all: unfold try_call_on_exception, functor_failure in *.
  all: try match goal with
        | |- context [fails _ ?x] => destruct (fails cfg x) eqn:F
        end; simpl; auto.
Qed.

Lemma hist_step t s s' :
  Inv_mem cfg s -> step cfg t s = Some s' -> forall t', hist_ok t' s'.
Proof.
  intros I H t'.
  pose proof (im_hist _ _ I t') as R'.
  unfold hist_ok in *.
  step_cases I H; simpl.
  all: destruct (Nat.eq_dec t' t) as [->|Hne];
    [ rewrite ?upd_same; rewrite ?Hpc in *; simpl in *
    | rewrite ?upd_other by assumption ].
  all: rewrite ?occ_app; simpl; rewrite ?Nat.eqb_refl, ?Nat.add_0_r.
  all: try (apply Nat.eqb_neq in Hne; rewrite ?Hne, ?Nat.add_0_r).
  all: try exact R'.
  all: unfold try_call_on_exception, functor_failure in *.
  all: try match goal with
        | |- context [fails _ ?x] => destruct (fails cfg x) eqn:F
        end; simpl.
  all: try (injection R' as <- <- <-; reflexivity).
Qed.

Lemma distinct_step t s s' :
  Inv_mem cfg s -> step cfg t s = Some s' -> distinct_live cfg s'.
Proof.
  intros I H t1 t2.
  pose proof (im_distinct _ _ I t1 t2) as D.
  pose proof (fun u Hu => other_addr s t u I Hu) as Ho.
  step_cases I H; simpl; try exact D.
  all: destruct (Nat.eq_dec t1 t) as [->|Hne1];
       destruct (Nat.eq_dec t2 t) as [->|Hne2];
       rewrite ?upd_same, ?upd_other by assumption; simpl;
       rewrite ?Hpc in *; simpl in *; auto; try congruence.
  all: intros L1 L2 Heq.
  - exfalso. eapply Ho; eauto.
  - exfalso. eapply Ho; eauto.
Qed.

Lemma lexp_step t s s' :
  Inv_mem cfg s -> step cfg t s = Some s' -> lexp_ok cfg s'.
Proof.
  intros M H.
  pose proof (im_lexp _ _ M) as Hl.
  assert (G : forall l', (armed (pc l') = true -> local_expected l' = addr cfg t) ->
    forall s'', thr s'' = upd (thr s) t l' -> lexp_ok cfg s'').
  { intros l' Hx s'' Et u Ha. rewrite Et in *.
    destruct (Nat.eq_dec u t) as [->|Hne].
    - rewrite upd_same in *. auto.
    - rewrite upd_other in * by assumption. auto. }
  pose proof (Hl t) as Hlt.
  step_cases M H; try assumption.
  all: eapply G; [|reflexivity]; simpl; try discriminate; try reflexivity.
  all: try rewrite Hpc in Hlt; simpl in Hlt; auto.
  all: unfold try_call_on_exception, functor_failure;
       try match goal with |- context [fails _ ?x] => destruct (fails cfg x) end; auto.
Qed.

Lemma inv_mem_init : Inv_mem cfg init.
Proof.
  split.
  - intros t ini st Hs. discriminate Hs.
  - intros t. exact Logic.I.
  - intros t. reflexivity.
  - intros t1 t2 L. discriminate L.
  - intros t Ha. discriminate Ha.
Qed.

Lemma inv_mem_step t s s' :
  Inv_mem cfg s -> step cfg t s = Some s' -> Inv_mem cfg s'.
Proof.
  intros I H. split.
  - eapply shape_step; eauto.
  - eapply raised_step; eauto.
  - eapply hist_step; eauto.
  - eapply distinct_step; eauto.
  - eapply lexp_step; eauto.
Qed.

Lemma reachable_inv_mem s : reachable cfg s -> Inv_mem cfg s.
Proof.
  induction 1; [apply inv_mem_init | eapply inv_mem_step; eauto].
Qed.

End MemoryInvariant.

Ltac splits := repeat match goal with |- _ /\ _ => split end.

(** ** Configurations and counts *)

Section Configuration.
Variable cfg : config.
Hypothesis Wf : wf_config cfg = true.

Lemma wf_addr_of t :
  (t < nthreads cfg)%nat ->
  addr cfg t mod 128 = 0 /\ 128 <= addr cfg t /\ addr cfg t + 128 <= 2 ^ 64.
Proof.
  intros Ht. unfold wf_config in Wf. apply andb_prop in Wf. destruct Wf as [Wa _].
  rewrite forallb_forall in Wa. specialize (Wa t).
  assert (Hin : In t (seq 0 (nthreads cfg))) by (apply in_seq; lia).
  specialize (Wa Hin). apply andb_prop in Wa. destruct Wa as [Wa _].
  unfold wf_addr in Wa.
  apply andb_prop in Wa. destruct Wa as [Wa W3].
  apply andb_prop in Wa. destruct Wa as [W1 W2].
  apply Z.eqb_eq in W1. apply Z.ltb_lt in W2. apply Z.ltb_lt in W3.
  change max_nfs_size with 128 in W1.
  pose proof (Z.div_mod (addr cfg t) 128 ltac:(lia)) as Hd.
  rewrite W1 in Hd.
  assert (1 <= addr cfg t / 128 < 2 ^ 57).
  { split.
    - destruct (Z.le_gt_cases 1 (addr cfg t / 128)); [assumption|].
      assert (addr cfg t / 128 <= 0) by lia. lia.
    - apply Z.div_lt_upper_bound; [lia|]. change (128 * 2 ^ 57) with (2 ^ 64). lia. }
  change (2 ^ 64) with (128 * 2 ^ 57). lia.
Qed.

Lemma wf_room t :
  (t < nthreads cfg)%nat -> addr cfg t + Z.of_nat (nthreads cfg) <= 2 ^ 64.
Proof.
  intros Ht. unfold wf_config in Wf. apply andb_prop in Wf. destruct Wf as [Wa _].
  rewrite forallb_forall in Wa. specialize (Wa t).
  assert (Hin : In t (seq 0 (nthreads cfg))) by (apply in_seq; lia).
  specialize (Wa Hin). apply andb_prop in Wa. destruct Wa as [_ Wa].
  apply Z.leb_le in Wa. exact Wa.
Qed.

Lemma wf_threads : Z.of_nat (nthreads cfg) < 2 ^ 63.
Proof.
  unfold wf_config in Wf. apply andb_prop in Wf. destruct Wf as [_ W].
  apply Z.ltb_lt in W. exact W.
Qed.

Lemma regs_upd s s' t l' :
  (t < nthreads cfg)%nat -> thr s' = upd (thr s) t l' ->
  regs cfg s' = regs cfg s - Z.b2z (registered (thr s t)) + Z.b2z (registered l').
Proof.
  intros Ht E. unfold regs. rewrite E. apply cnt_upd. assumption.
Qed.

Lemma refs_upd a s s' t l' :
  (t < nthreads cfg)%nat -> thr s' = upd (thr s) t l' ->
  refs cfg a s' = refs cfg a s - Z.b2z (holds_ref a (thr s t)) + Z.b2z (holds_ref a l').
Proof.
  intros Ht E. unfold refs. rewrite E.
  apply (cnt_upd (holds_ref a)). assumption.
Qed.

Lemma regs_bounds s : 0 <= regs cfg s <= Z.of_nat (nthreads cfg).
Proof. apply cnt_bounds. Qed.

Lemma refs_bounds a s : 0 <= refs cfg a s <= Z.of_nat (nthreads cfg).
Proof. apply cnt_bounds. Qed.

End Configuration.

(** ** The word

    What holds of the word for any number of calls. *)

Section Word.
Variable cfg : config.
Hypothesis Wf : wf_config cfg = true.

Lemma registered_not_winner l : registered l = true -> winner_pc (pc l) = false.
Proof. unfold registered. destruct (pc l); simpl; congruence. Qed.

Lemma winner_not_registered l : winner_pc (pc l) = true -> registered l = false.
Proof.
  intros H. destruct (registered l) eqn:E; [|reflexivity].
  apply registered_not_winner in E. congruence.
Qed.

(** With a winner at work the word is the address of its runner plus the
    number of registered calls, and is neither sentinel. *)
Lemma winner_word s w :
  word_ok cfg s -> (w < nthreads cfg)%nat -> winner_pc (pc (thr s w)) = true ->
  my_state s = addr cfg w + regs cfg s /\
  0 <= regs cfg s <= Z.of_nat (nthreads cfg) - 1 /\
  128 <= my_state s < 2 ^ 64 /\
  forall t, (t < nthreads cfg)%nat -> winner_pc (pc (thr s t)) = true -> t = w.
Proof.
  intros P Hw Hwp.
  destruct P as [[_ Hall]|(w' & Hwn & Hwp' & Huniq & Hst)].
  - destruct (Hall w Hw) as [Hx _]. congruence.
  - assert (w = w') by (apply Huniq; assumption). subst w'.
    pose proof (wf_addr_of cfg Wf w Hw) as (_ & Hlo & _).
    pose proof (wf_room cfg Wf w Hw).
    pose proof (regs_bounds cfg s).
    assert (regs cfg s <= Z.of_nat (nthreads cfg) - 1).
    { apply (cnt_miss _ _ w Hw). apply winner_not_registered. exact Hwp. }
    splits; try assumption; lia.
Qed.

(** A registered call is counted in the word of a flag with a winner. *)
Lemma registered_word s t :
  word_ok cfg s -> (t < nthreads cfg)%nat -> registered (thr s t) = true ->
  exists w, (w < nthreads cfg)%nat /\ w <> t /\
    winner_pc (pc (thr s w)) = true /\
    my_state s = addr cfg w + regs cfg s /\
    1 <= regs cfg s <= Z.of_nat (nthreads cfg) - 1 /\
    128 < my_state s < 2 ^ 64.
Proof.
  intros P Ht Hr.
  destruct P as [[_ Hall]|(w & Hwn & Hwp & Huniq & Hst)].
  - destruct (Hall t Ht) as [_ Hx]. congruence.
  - assert (P : word_ok cfg s) by (right; exists w; auto).
    destruct (winner_word s w P Hwn Hwp) as (_ & Hb & Hrange & _).
    pose proof (cnt_pos _ _ t Ht Hr : 1 <= regs cfg s).
    pose proof (wf_addr_of cfg Wf w Hwn) as (_ & Hlo & _).
    exists w. splits; try assumption; try lia.
    intros ->. pose proof (registered_not_winner _ Hr). congruence.
Qed.

Lemma word_range s : word_ok cfg s -> 0 <= my_state s < 2 ^ 64.
Proof.
  intros P. destruct P as [[[Hv|Hv] _]|(w & Hwn & Hwp & Huniq & Hst)].
  - rewrite Hv. unfold uninitialized. lia.
  - rewrite Hv. unfold done. lia.
  - assert (P : word_ok cfg s) by (right; exists w; auto).
    destruct (winner_word s w P Hwn Hwp) as (_ & _ & Hrange & _). lia.
Qed.

(** With the word at a sentinel no call is the winner or registered. *)
Lemma sentinel_idle s t :
  word_ok cfg s -> (t < nthreads cfg)%nat ->
  my_state s = uninitialized \/ my_state s = done ->
  winner_pc (pc (thr s t)) = false /\ registered (thr s t) = false.
Proof.
  intros P Ht Hs. destruct P as [[_ Hall]|(w & Hwn & Hwp & Huniq & Hst)].
  - apply Hall. exact Ht.
  - assert (P : word_ok cfg s) by (right; exists w; auto).
    destruct (winner_word s w P Hwn Hwp) as (_ & _ & Hrange & _).
    unfold uninitialized, done in Hs. lia.
Qed.

(** A step that touches neither the word nor the role of the call. *)
Lemma word_frame s s' t l' :
  (t < nthreads cfg)%nat -> word_ok cfg s ->
  my_state s' = my_state s -> thr s' = upd (thr s) t l' ->
  winner_pc (pc l') = winner_pc (pc (thr s t)) ->
  registered l' = registered (thr s t) ->
  word_ok cfg s'.
Proof.
  intros Ht P Ew Et Hw Hr.
  assert (Er : regs cfg s' = regs cfg s).
  { rewrite (regs_upd cfg s s' t l' Ht Et), Hr. lia. }
  destruct P as [[Hv Hall]|(w & Hwn & Hwp & Huniq & Hst)].
  - left. split; [rewrite Ew; exact Hv|].
    intros u Hu. rewrite Et. destruct (Nat.eq_dec u t) as [->|Hne].
    + rewrite upd_same, Hw, Hr. apply Hall. assumption.
    + rewrite upd_other by assumption. apply Hall. assumption.
  - right. exists w. rewrite Ew, Er, Et. splits; try assumption.
    + destruct (Nat.eq_dec w t) as [->|Hne].
      * rewrite upd_same, Hw. exact Hwp.
      * rewrite upd_other by assumption. exact Hwp.
    + intros u Hu. destruct (Nat.eq_dec u t) as [->|Hne].
      * rewrite upd_same, Hw. apply Huniq. assumption.
      * rewrite upd_other by assumption. apply Huniq. assumption.
Qed.

(** Line 146, the compare-and-swap succeeds. *)
Lemma word_win s s' t l' :
  (t < nthreads cfg)%nat -> word_ok cfg s ->
  my_state s = uninitialized ->
  my_state s' = addr cfg t -> thr s' = upd (thr s) t l' ->
  winner_pc (pc l') = true -> registered l' = false ->
  word_ok cfg s'.
Proof.
  intros Ht P E0 Ew Et Hw Hr.
  destruct P as [[Hv Hall]|(w & Hwn & Hwp & Huniq & Hst)].
  - assert (Hnone : forall u, (u < nthreads cfg)%nat -> registered (thr s' u) = false).
    { intros u Hu. rewrite Et. destruct (Nat.eq_dec u t) as [->|Hne].
      - rewrite upd_same. exact Hr.
      - rewrite upd_other by assumption. apply Hall. assumption. }
    assert (Er : regs cfg s' = 0) by (apply cnt_all_false; exact Hnone).
    right. exists t. rewrite Ew, Er, Et. splits.
    + assumption.
    + rewrite upd_same. exact Hw.
    + intros u Hu. destruct (Nat.eq_dec u t) as [->|Hne]; [reflexivity|].
      rewrite upd_other by assumption. intros Hx.
      destruct (Hall u Hu) as [Hy _]. congruence.
    + lia.
  - assert (P : word_ok cfg s) by (right; exists w; auto).
    destruct (winner_word s w P Hwn Hwp) as (_ & _ & Hrange & _).
    unfold uninitialized in E0. lia.
Qed.

(** Lines 155 and 160, the compare-and-swap succeeds. *)
Lemma word_leave s s' t l' :
  (t < nthreads cfg)%nat -> word_ok cfg s ->
  winner_pc (pc (thr s t)) = true -> my_state s = addr cfg t ->
  my_state s' = uninitialized \/ my_state s' = done ->
  thr s' = upd (thr s) t l' ->
  winner_pc (pc l') = false -> registered l' = false ->
  word_ok cfg s'.
Proof.
  intros Ht P Hwt E Ew Et Hw Hr.
  destruct (winner_word s t P Ht Hwt) as (Hst & _ & _ & Huniq).
  assert (Hz : regs cfg s = 0) by lia.
  left. split; [exact Ew|].
  intros u Hu. rewrite Et. destruct (Nat.eq_dec u t) as [->|Hne].
  - rewrite upd_same. split; assumption.
  - rewrite upd_other by assumption. split.
    + destruct (winner_pc (pc (thr s u))) eqn:Hx; [|reflexivity].
      exfalso. apply Hne. apply Huniq; assumption.
    + apply (cnt_zero _ _ u Hz Hu).
Qed.

(** Line 171, the compare-and-swap succeeds. *)
Lemma word_register s s' t l' :
  (t < nthreads cfg)%nat -> word_ok cfg s ->
  winner_pc (pc (thr s t)) = false -> registered (thr s t) = false ->
  done < expected (thr s t) -> my_state s = expected (thr s t) ->
  my_state s' = wrap (expected (thr s t) + 1) ->
  thr s' = upd (thr s) t l' ->
  pc l' = L173 -> expected l' = expected (thr s t) ->
  word_ok cfg s'.
Proof.
  intros Ht P Hwt Hrt Hgt E Ew Et Hpc He.
  unfold done in Hgt.
  assert (Hr : registered l' = true).
  { unfold registered. rewrite Hpc, He. apply Z.ltb_lt. exact Hgt. }
  assert (Er : regs cfg s' = regs cfg s + 1).
  { rewrite (regs_upd cfg s s' t l' Ht Et), Hrt, Hr. simpl. lia. }
  destruct P as [[Hv Hall]|(w & Hwn & Hwp & Huniq & Hst)].
  - unfold uninitialized, done in Hv. lia.
  - pose proof (wf_addr_of cfg Wf w Hwn) as (Hal & Hlo & Hhi).
    pose proof (wf_room cfg Wf w Hwn).
    pose proof (regs_bounds cfg s).
    assert (Hne : w <> t) by congruence.
    assert (regs cfg s <= Z.of_nat (nthreads cfg) - 2).
    { apply (cnt_miss2 _ _ w t Hwn Ht Hne);
        [apply winner_not_registered; exact Hwp | exact Hrt]. }
    right. exists w. rewrite Ew, Er, Et. splits.
    + assumption.
    + rewrite upd_other by assumption. exact Hwp.
    + intros u Hu. destruct (Nat.eq_dec u t) as [->|Hnu].
      * rewrite upd_same. rewrite Hpc. simpl. discriminate.
      * rewrite upd_other by assumption. apply Huniq. assumption.
    + rewrite <- E, Hst. rewrite wrap_small by lia. lia.
Qed.

(** Line 177. *)
Lemma word_deregister s s' t l' :
  (t < nthreads cfg)%nat -> word_ok cfg s ->
  registered (thr s t) = true ->
  my_state s' = wrap (my_state s - 1) ->
  thr s' = upd (thr s) t l' ->
  winner_pc (pc l') = false -> registered l' = false ->
  word_ok cfg s'.
Proof.
  intros Ht P Hrt Ew Et Hw Hr.
  assert (Er : regs cfg s' = regs cfg s - 1).
  { rewrite (regs_upd cfg s s' t l' Ht Et), Hrt, Hr. simpl. lia. }
  destruct (registered_word s t P Ht Hrt) as (w & Hwn & Hne & Hwp & Hst & Hb & Hrange).
  destruct (winner_word s w P Hwn Hwp) as (_ & _ & _ & Huniq).
  right. exists w. rewrite Ew, Er, Et. splits.
  - assumption.
  - rewrite upd_other by assumption. exact Hwp.
  - intros u Hu. destruct (Nat.eq_dec u t) as [->|Hnu].
    + rewrite upd_same. congruence.
    + rewrite upd_other by assumption. apply Huniq. assumption.
  - rewrite wrap_small by lia. lia.
Qed.

Lemma word_ok_step s s' t :
  Inv_mem cfg s -> Inv_word cfg s -> (t < nthreads cfg)%nat ->
  step cfg t s = Some s' -> word_ok cfg s'.
Proof.
  intros M W Ht H.
  pose proof (iw_phase _ _ W) as P.
  pose proof (im_lexp _ _ M t) as Hl.
  pose proof (iw_expected _ _ W t) as He0.
  pose proof (iw_seen _ _ W t) as Hseen.
  step_cases M H; try assumption.
  all: rewrite ?Hpc in *; simpl in Hl.
  all: try (eapply word_frame with (s := s) (t := t);
            [ exact Ht | exact P | reflexivity | reflexivity
            | simpl; rewrite Hpc; reflexivity
            | unfold registered; simpl; rewrite Hpc; reflexivity ]).
  - (* line 146, the call wins *)
    eapply word_win with (s := s) (t := t);
      [ exact Ht | exact P | congruence | reflexivity | reflexivity
      | reflexivity | reflexivity ].
  - (* line 116, the wait is over *)
    eapply word_frame with (s := s) (t := t);
      [ exact Ht | exact P | reflexivity | reflexivity | | ].
    + simpl. rewrite Hpc. unfold try_call_on_exception, functor_failure.
      destruct (fails cfg t); reflexivity.
    + unfold registered. simpl. rewrite Hpc.
      unfold try_call_on_exception, functor_failure.
      destruct (fails cfg t); reflexivity.
  - (* line 155, the reset succeeds *)
    eapply word_leave with (s := s) (t := t);
      [ exact Ht | exact P | rewrite Hpc; reflexivity | rewrite <- Hl; auto
      | left; reflexivity | reflexivity | reflexivity | reflexivity ].
  - (* line 160, done *)
    eapply word_leave with (s := s) (t := t);
      [ exact Ht | exact P | rewrite Hpc; reflexivity | rewrite <- Hl; auto
      | right; reflexivity | reflexivity | reflexivity | reflexivity ].
  - (* line 171, the call registers *)
    eapply word_register with (s := s) (t := t);
      [ exact Ht | exact P | rewrite Hpc; reflexivity
      | unfold registered; rewrite Hpc; reflexivity
      | assumption | assumption | reflexivity | reflexivity
      | reflexivity | reflexivity ].
  - (* line 171, a sentinel was read *)
    assert (Hr : registered (goto L173 (thr s t)) = false).
    { unfold registered. simpl. apply Z.ltb_ge. assumption. }
    eapply word_frame with (s := s) (t := t);
      [ exact Ht | exact P | reflexivity | reflexivity
      | simpl; rewrite Hpc; reflexivity
      | rewrite Hr; unfold registered; rewrite Hpc; reflexivity ].
  - (* line 173, null runner *)
    match goal with Hx : maskoff_pointer _ = 0 |- _ => rename Hx into C0 end.
    assert (Hr : registered (thr s t) = false).
    { destruct (registered (thr s t)) eqn:Hr; [exfalso|reflexivity].
      specialize (Hseen eq_refl). change max_nfs_size with 128 in Hseen.
      apply (maskoff_large (expected (thr s t))); [lia | exact C0]. }
    eapply word_frame with (s := s) (t := t);
      [ exact Ht | exact P | reflexivity | reflexivity
      | simpl; rewrite Hpc; reflexivity
      | rewrite Hr; reflexivity ].
  - (* line 173, a runner *)
    match goal with Hx : maskoff_pointer _ <> 0 |- _ => rename Hx into C0 end.
    assert (Hr : registered (thr s t) = true).
    { unfold registered. rewrite Hpc. apply Z.ltb_lt.
      destruct (Z.lt_ge_cases done (expected (thr s t))) as [Hlt|Hge]; [exact Hlt|].
      exfalso. apply C0. apply maskoff_small. unfold done in Hge. lia. }
    eapply word_frame with (s := s) (t := t);
      [ exact Ht | exact P | reflexivity | reflexivity
      | simpl; rewrite Hpc; reflexivity
      | rewrite Hr; reflexivity ].
  - (* line 177 *)
    eapply word_deregister with (s := s) (t := t);
      [ exact Ht | exact P
      | unfold registered; rewrite Hpc; reflexivity
      | reflexivity | reflexivity | reflexivity | reflexivity ].
Qed.


(** A step of [t] leaves the other calls alone. *)
Lemma step_other s s' t u :
  step cfg t s = Some s' -> u <> t -> thr s' u = thr s u.
Proof.
  intros H Hne. cbv beta zeta delta [step] in H.
  break_match H; try discriminate H; injection H as <-; simpl;
    rewrite ?upd_other by assumption; reflexivity.
Qed.

Lemma expected_step s s' t :
  Inv_mem cfg s -> Inv_word cfg s -> (t < nthreads cfg)%nat ->
  step cfg t s = Some s' -> forall u, 0 <= expected (thr s' u) < 2 ^ 64.
Proof.
  intros M W Ht H u.
  pose proof (iw_expected _ _ W) as He.
  pose proof (word_range s (iw_phase _ _ W)) as Hw.
  destruct (Nat.eq_dec u t) as [->|Hne];
    [|rewrite (step_other s s' t u H Hne); apply He].
  specialize (He t).
  step_cases M H; simpl; rewrite ?upd_same; simpl; assumption.
Qed.

Lemma seen_step s s' t :
  Inv_mem cfg s -> Inv_word cfg s -> (t < nthreads cfg)%nat ->
  step cfg t s = Some s' ->
  forall u, registered (thr s' u) = true -> max_nfs_size <= expected (thr s' u).
Proof.
  intros M W Ht H u.
  pose proof (iw_seen _ _ W) as Hs.
  pose proof (iw_expected _ _ W t) as He.
  pose proof (iw_phase _ _ W) as P.
  destruct (Nat.eq_dec u t) as [->|Hne];
    [|rewrite (step_other s s' t u H Hne); apply Hs].
  specialize (Hs t). unfold registered in *.
  step_cases M H; simpl; rewrite ?upd_same; simpl; rewrite ?Hpc in *;
    try discriminate; auto.
  all: unfold try_call_on_exception, functor_failure;
       try match goal with |- context [fails _ ?x] => destruct (fails cfg x) end;
       try discriminate.
  - (* line 171, the call registers *)
    intros _. change max_nfs_size with 128.
    destruct P as [[Hv _]|(w & Hwn & Hwp & Huniq & Hst)].
    + unfold uninitialized, done in *. lia.
    + assert (P : word_ok cfg s) by (right; exists w; auto).
      destruct (winner_word s w P Hwn Hwp) as (_ & _ & Hrange & _). lia.
  - (* line 171, a sentinel was read *)
    intros Hx. apply Z.ltb_lt in Hx. lia.
  - (* line 173, a runner *)
    intros _. apply Hs. apply Z.ltb_lt.
    destruct (Z.lt_ge_cases done (expected (thr s t))) as [Hlt|Hge]; [exact Hlt|].
    exfalso. match goal with Hx : maskoff_pointer _ <> 0 |- _ => apply Hx end.
    apply maskoff_small. unfold done in Hge. lia.
Qed.

Lemma done_step s s' t :
  Inv_mem cfg s -> Inv_word cfg s -> (t < nthreads cfg)%nat ->
  step cfg t s = Some s' -> done_ok cfg s'.
Proof.
  intros M W Ht H.
  pose proof (iw_done _ _ W) as Hd.
  pose proof (iw_phase _ _ W) as P.
  assert (G : forall l' s'', thr s'' = upd (thr s) t l' ->
    my_state s'' = my_state s \/ my_state s <> done ->
    (expected l' = done -> my_state s'' = done) ->
    (left_normally (pc l') = true -> my_state s'' = done) ->
    done_ok cfg s'').
  { intros l' s'' Et Hw He Hn u Hu. rewrite Et.
    destruct (Nat.eq_dec u t) as [->|Hne].
    - rewrite upd_same. auto.
    - rewrite upd_other by assumption. destruct (Hd u Hu) as [H1 H2].
      destruct Hw as [Hw|Hw]; [rewrite Hw; auto|].
      split; intros Hx; exfalso; auto. }
  destruct (Hd t Ht) as [Hd1 Hd2].
  pose proof (im_lexp _ _ M t) as Hl.
  pose proof (wf_addr_of cfg Wf t Ht) as (_ & Ha & _).
  step_cases M H; try assumption.
  all: eapply G; [reflexivity| | |]; simpl; try (left; reflexivity);
       try discriminate; try reflexivity; try assumption.
  all: rewrite ?Hpc in *; simpl in *; auto.
  all: unfold try_call_on_exception, functor_failure;
       try match goal with |- context [fails _ ?x] => destruct (fails cfg x) end;
       simpl; try discriminate.
  all: try (assert (Hr : registered (thr s t) = true)
              by (unfold registered; rewrite Hpc; reflexivity);
            destruct (registered_word s t P Ht Hr)
              as (w & _ & _ & _ & _ & _ & Hrange)).
  all: unfold done, uninitialized in *; try lia.
  all: try (right; lia).
  all: intros Hx; specialize (Hd1 Hx); lia.
Qed.

Lemma inv_word_step s s' t :
  Inv_mem cfg s -> Inv_word cfg s -> (t < nthreads cfg)%nat ->
  step cfg t s = Some s' -> Inv_word cfg s'.
Proof.
  intros M W Ht H. split.
  - eapply word_ok_step; eauto.
  - eapply expected_step; eauto.
  - eapply seen_step; eauto.
  - eapply done_step; eauto.
Qed.

Lemma inv_word_init : Inv_word cfg init.
Proof.
  split; simpl.
  - left. split; [left; reflexivity|]. intros t Ht. split; reflexivity.
  - intros t. lia.
  - intros t Hr. discriminate Hr.
  - intros t Ht. split; intros Hx; discriminate Hx.
Qed.

Lemma reachable_word s : reachable cfg s -> Inv_mem cfg s /\ Inv_word cfg s.
Proof.
  induction 1 as [|s t s' R [M W] Ht H].
  - split; [apply inv_mem_init | apply inv_word_init].
  - split; [eapply inv_mem_step; eauto | eapply inv_word_step; eauto].
Qed.

End Word.

(** ** The admission count in its bits

    What holds as long as every registration finds the count below
    [max_nfs_size - 1]. *)

Section Phase.
Variable cfg : config.
Hypothesis Wf : wf_config cfg = true.

(** A step that touches neither the word nor the role of the call. *)
Lemma phase_frame s s' t l' :
  (t < nthreads cfg)%nat -> phase_ok cfg s ->
  my_state s' = my_state s -> thr s' = upd (thr s) t l' ->
  winner_pc (pc l') = winner_pc (pc (thr s t)) ->
  registered l' = registered (thr s t) ->
  (forall w, (w < nthreads cfg)%nat ->
     reg_ok (addr cfg w) (thr s t) -> reg_ok (addr cfg w) l') ->
  phase_ok cfg s'.
Proof.
  intros Ht P Ew Et Hw Hr Hk.
  assert (Er : regs cfg s' = regs cfg s).
  { rewrite (regs_upd cfg s s' t l' Ht Et), Hr. lia. }
  destruct P as [[Hv Hall]|(w & Hwn & Hwp & Huniq & Hst & Hle & Hreg)].
  - left. split; [rewrite Ew; exact Hv|].
    intros u Hu. rewrite Et. destruct (Nat.eq_dec u t) as [->|Hne].
    + rewrite upd_same, Hw, Hr. apply Hall. assumption.
    + rewrite upd_other by assumption. apply Hall. assumption.
  - right. exists w. rewrite Ew, Er, Et. splits; try assumption.
    + destruct (Nat.eq_dec w t) as [->|Hne].
      * rewrite upd_same, Hw. exact Hwp.
      * rewrite upd_other by assumption. exact Hwp.
    + intros u Hu. destruct (Nat.eq_dec u t) as [->|Hne].
      * rewrite upd_same, Hw. apply Huniq. assumption.
      * rewrite upd_other by assumption. apply Huniq. assumption.
    + intros u Hu. destruct (Nat.eq_dec u t) as [->|Hne].
      * rewrite upd_same. apply Hk; [assumption|]. apply Hreg. assumption.
      * rewrite upd_other by assumption. apply Hreg. assumption.
Qed.

(** The word of an active flag is neither sentinel. *)
Lemma active_word s w :
  (w < nthreads cfg)%nat -> my_state s = addr cfg w + regs cfg s ->
  128 <= my_state s.
Proof.
  intros Hw E. pose proof (wf_addr_of cfg Wf w Hw). pose proof (regs_bounds cfg s). lia.
Qed.

(** Line 146, the compare-and-swap succeeds. *)
Lemma phase_win s s' t l' :
  (t < nthreads cfg)%nat -> phase_ok cfg s ->
  my_state s = uninitialized ->
  my_state s' = addr cfg t -> thr s' = upd (thr s) t l' ->
  winner_pc (pc l') = true -> registered l' = false ->
  phase_ok cfg s'.
Proof.
  intros Ht P E0 Ew Et Hw Hr.
  destruct P as [[Hv Hall]|(w & Hwn & Hwp & Huniq & Hst & Hle & Hreg)].
  - assert (Hnone : forall u, (u < nthreads cfg)%nat -> registered (thr s' u) = false).
    { intros u Hu. rewrite Et. destruct (Nat.eq_dec u t) as [->|Hne].
      - rewrite upd_same. exact Hr.
      - rewrite upd_other by assumption. apply Hall. assumption. }
    assert (Er : regs cfg s' = 0) by (apply cnt_all_false; exact Hnone).
    right. exists t. rewrite Ew, Er, Et. splits.
    + assumption.
    + rewrite upd_same. exact Hw.
    + intros u Hu. destruct (Nat.eq_dec u t) as [->|Hne]; [reflexivity|].
      rewrite upd_other by assumption. intros Hx.
      destruct (Hall u Hu) as [Hy _]. congruence.
    + lia.
    + change max_nfs_size with 128. lia.
    + intros u Hu Hx. rewrite <- Et in Hx. rewrite Hnone in Hx by assumption.
      discriminate Hx.
  - pose proof (active_word s w Hwn Hst). unfold uninitialized in E0. lia.
Qed.

(** Lines 155 and 160, the compare-and-swap succeeds. *)
Lemma phase_leave s s' t l' :
  (t < nthreads cfg)%nat -> phase_ok cfg s ->
  winner_pc (pc (thr s t)) = true -> my_state s = addr cfg t ->
  my_state s' = uninitialized \/ my_state s' = done ->
  thr s' = upd (thr s) t l' ->
  winner_pc (pc l') = false -> registered l' = false ->
  phase_ok cfg s'.
Proof.
  intros Ht P Hwt E Ew Et Hw Hr.
  destruct P as [[Hv Hall]|(w & Hwn & Hwp & Huniq & Hst & Hle & Hreg)].
  - destruct (Hall t Ht) as [Hx _]. congruence.
  - assert (w = t) by (symmetry; apply Huniq; assumption). subst w.
    assert (Hz : regs cfg s = 0) by lia.
    left. split; [exact Ew|].
    intros u Hu. rewrite Et. destruct (Nat.eq_dec u t) as [->|Hne].
    + rewrite upd_same. split; assumption.
    + rewrite upd_other by assumption. split.
      * destruct (winner_pc (pc (thr s u))) eqn:Hx; [|reflexivity].
        exfalso. apply Hne. apply Huniq; assumption.
      * apply (cnt_zero _ _ u Hz Hu).
Qed.

(** Line 171, the compare-and-swap succeeds. *)
Lemma phase_register s s' t l' :
  (t < nthreads cfg)%nat -> phase_ok cfg s ->
  winner_pc (pc (thr s t)) = false -> registered (thr s t) = false ->
  done < expected (thr s t) -> my_state s = expected (thr s t) ->
  regs cfg s <= max_nfs_size - 2 ->
  my_state s' = wrap (expected (thr s t) + 1) ->
  thr s' = upd (thr s) t l' ->
  pc l' = L173 -> expected l' = expected (thr s t) ->
  phase_ok cfg s'.
Proof.
  intros Ht P Hwt Hrt Hgt E Hguard Ew Et Hpc He.
  change max_nfs_size with 128 in Hguard. unfold done in Hgt.
  assert (Hr : registered l' = true).
  { unfold registered. rewrite Hpc, He. apply Z.ltb_lt. exact Hgt. }
  assert (Er : regs cfg s' = regs cfg s + 1).
  { rewrite (regs_upd cfg s s' t l' Ht Et), Hrt, Hr. simpl. lia. }
  destruct P as [[Hv Hall]|(w & Hwn & Hwp & Huniq & Hst & Hle & Hreg)].
  - unfold uninitialized, done in Hv. lia.
  - pose proof (wf_addr_of cfg Wf w Hwn) as (Hal & Hlo & Hhi).
    pose proof (regs_bounds cfg s).
    right. exists w. rewrite Ew, Er, Et. splits.
    + assumption.
    + destruct (Nat.eq_dec w t) as [->|Hne]; [congruence|].
      rewrite upd_other by assumption. exact Hwp.
    + intros u Hu. destruct (Nat.eq_dec u t) as [->|Hne].
      * rewrite upd_same. rewrite Hpc. simpl. discriminate.
      * rewrite upd_other by assumption. apply Huniq. assumption.
    + rewrite <- E, Hst. rewrite wrap_small by lia. lia.
    + change max_nfs_size with 128. lia.
    + intros u Hu. destruct (Nat.eq_dec u t) as [->|Hne].
      * rewrite upd_same. intros _. rewrite He, <- E, Hst. split; [lia|].
        intros Hx. congruence.
      * rewrite upd_other by assumption. apply Hreg. assumption.
Qed.

(** Line 177. *)
Lemma phase_deregister s s' t l' :
  (t < nthreads cfg)%nat -> phase_ok cfg s ->
  registered (thr s t) = true ->
  my_state s' = wrap (my_state s - 1) ->
  thr s' = upd (thr s) t l' ->
  winner_pc (pc l') = false -> registered l' = false ->
  phase_ok cfg s'.
Proof.
  intros Ht P Hrt Ew Et Hw Hr.
  assert (Er : regs cfg s' = regs cfg s - 1).
  { rewrite (regs_upd cfg s s' t l' Ht Et), Hrt, Hr. simpl. lia. }
  destruct P as [[Hv Hall]|(w & Hwn & Hwp & Huniq & Hst & Hle & Hreg)].
  - destruct (Hall t Ht) as [_ Hx]. congruence.
  - pose proof (wf_addr_of cfg Wf w Hwn) as (Hal & Hlo & Hhi).
    pose proof (regs_bounds cfg s).
    assert (1 <= regs cfg s) by (apply (cnt_pos _ _ t Ht Hrt)).
    change max_nfs_size with 128 in Hle.
    right. exists w. rewrite Ew, Er, Et. splits.
    + assumption.
    + destruct (Nat.eq_dec w t) as [->|Hne].
      * exfalso. unfold registered in Hrt.
        destruct (pc (thr s t)); simpl in Hwp; congruence.
      * rewrite upd_other by assumption. exact Hwp.
    + intros u Hu. destruct (Nat.eq_dec u t) as [->|Hne].
      * rewrite upd_same. congruence.
      * rewrite upd_other by assumption. apply Huniq. assumption.
    + rewrite Hst. rewrite wrap_small by lia. lia.
    + change max_nfs_size with 128. lia.
    + intros u Hu. destruct (Nat.eq_dec u t) as [->|Hne].
      * rewrite upd_same. intros Hx. congruence.
      * rewrite upd_other by assumption. apply Hreg. assumption.
Qed.

End Phase.

Section Frames.
Variable cfg : config.
Hypothesis Wf : wf_config cfg = true.

(** *** Holders of a reference *)

Lemma holder_step s s' t l' :
  holder_ok cfg s -> thr s' = upd (thr s) t l' ->
  (alive_init (pc (thr s t)) = true -> alive_init (pc l') = true) ->
  (past_init (pc l') = true ->
     exists w, (w < nthreads cfg)%nat /\ runner l' = addr cfg w /\
               alive_init (pc (thr s w)) = true) ->
  holder_ok cfg s'.
Proof.
  intros Ho Et Ha Hp h Hh Hpast. rewrite Et in *.
  assert (Hkeep : forall w, alive_init (pc (thr s w)) = true ->
                            alive_init (pc (upd (thr s) t l' w)) = true).
  { intros w Hw. destruct (Nat.eq_dec w t) as [->|Hne].
    - rewrite upd_same. auto.
    - rewrite upd_other by assumption. exact Hw. }
  destruct (Nat.eq_dec h t) as [->|Hne].
  - rewrite upd_same in *. destruct (Hp Hpast) as (w & Hw & Er & Hal).
    exists w. auto.
  - rewrite upd_other in * by assumption.
    destruct (Ho h Hh Hpast) as (w & Hw & Er & Hal). exists w. auto.
Qed.

(** The owner leaves the spin of line 90: nobody points at its runner. *)
Lemma holder_owner_leaves s s' t l' :
  holder_ok cfg s -> thr s' = upd (thr s) t l' ->
  past_init (pc l') = false ->
  (forall h, (h < nthreads cfg)%nat -> past_init (pc (thr s h)) = true ->
     runner (thr s h) <> addr cfg t) ->
  holder_ok cfg s'.
Proof.
  intros Ho Et Hp Hnone h Hh Hpast. rewrite Et in *.
  destruct (Nat.eq_dec h t) as [->|Hne].
  - rewrite upd_same in Hpast. congruence.
  - rewrite upd_other in * by assumption.
    destruct (Ho h Hh Hpast) as (w & Hw & Er & Hal). exists w.
    splits; try assumption.
    destruct (Nat.eq_dec w t) as [->|Hnw].
    + exfalso. apply (Hnone h Hh Hpast). exact Er.
    + rewrite upd_other by assumption. exact Hal.
Qed.

(** *** Reference counts *)

Lemma refs_same a s s' t l' :
  (t < nthreads cfg)%nat -> thr s' = upd (thr s) t l' ->
  holds_ref a l' = holds_ref a (thr s t) ->
  refs cfg a s' = refs cfg a s.
Proof.
  intros Ht Et Hh. rewrite (refs_upd cfg a s s' t l' Ht Et), Hh. lia.
Qed.

(** A step that keeps every runner's [ref_count] and the set of runners
    of the calls that stay live. *)
Lemma ref_frame s s' t l' :
  (t < nthreads cfg)%nat -> ref_ok cfg s -> thr s' = upd (thr s) t l' ->
  (forall a, holds_ref a l' = holds_ref a (thr s t)) ->
  (live (pc l') = true -> live (pc (thr s t)) = true) ->
  (forall u r, (u < nthreads cfg)%nat -> live (pc (thr s' u)) = true ->
     mem s (addr cfg u) = Some r ->
     exists r', mem s' (addr cfg u) = Some r' /\ ref_count r' = ref_count r) ->
  ref_ok cfg s'.
Proof.
  intros Ht Ro Et Hh Hl Hm u Hu Lu.
  assert (Lold : live (pc (thr s u)) = true).
  { rewrite Et in Lu. destruct (Nat.eq_dec u t) as [->|Hne].
    - rewrite upd_same in Lu. auto.
    - rewrite upd_other in Lu by assumption. exact Lu. }
  destruct (Ro u Hu Lold) as (r & Hr & Hc).
  destruct (Hm u r Hu Lu Hr) as (r' & Hr' & Hc').
  exists r'. split; [exact Hr'|].
  rewrite Hc', Hc. symmetry. apply (refs_same _ s s' t l'); auto.
Qed.

End Frames.

(** *** What the calls know *)

Section Views.
Variable cfg : config.
Hypothesis Wf : wf_config cfg = true.

Lemma winner_live p : winner_pc p = true -> live p = true.
Proof. destruct p; simpl; congruence. Qed.

Lemma alive_init_live p : alive_init p = true -> live p = true.
Proof. destruct p; try destruct k; simpl; congruence. Qed.

Lemma alive_init_shape t p :
  alive_init p = true -> exists st, shape cfg t p = Some (true, Some st).
Proof. destruct p; try destruct k; simpl; try congruence; eauto. Qed.

(** What a registered call knows. *)
Lemma registered_view s t :
  Inv_core cfg s -> (t < nthreads cfg)%nat -> registered (thr s t) = true ->
  exists w, (w < nthreads cfg)%nat /\ w <> t /\
    winner_pc (pc (thr s w)) = true /\
    my_state s = addr cfg w + regs cfg s /\
    1 <= regs cfg s <= 127 /\
    addr cfg w <= expected (thr s t) <= addr cfg w + 126 /\
    (pc (thr s t) <> L173 -> runner (thr s t) = addr cfg w).
Proof.
  intros C Ht Hr.
  destruct (ic_phase _ _ C) as [[_ Hall]|(w & Hwn & Hwp & Huniq & Hst & Hle & Hreg)].
  - destruct (Hall t Ht) as [_ Hx]. congruence.
  - exists w. destruct (Hreg t Ht Hr) as [He Hrun].
    change max_nfs_size with 128 in Hle.
    pose proof (cnt_pos _ _ t Ht Hr : 1 <= regs cfg s).
    splits; try assumption; try lia.
    intros ->. pose proof (registered_not_winner _ Hr). congruence.
Qed.

(** What a call that got past [wait_for_init] knows. *)
Lemma holder_view s t :
  Inv_mem cfg s -> Inv_core cfg s -> (t < nthreads cfg)%nat ->
  past_init (pc (thr s t)) = true ->
  exists w rc st, (w < nthreads cfg)%nat /\ runner (thr s t) = addr cfg w /\
    alive_init (pc (thr s w)) = true /\
    mem s (addr cfg w) = Some (mk_runner rc true (Some st)) /\
    rc = refs cfg (addr cfg w) s.
Proof.
  intros M C Ht Hp.
  destruct (ic_holder _ _ C t Ht Hp) as (w & Hw & Er & Hal).
  destruct (alive_init_shape w _ Hal) as [st Hs].
  destruct (im_shape _ _ M w _ _ Hs) as [rc Hm].
  destruct (ic_ref _ _ C w Hw (alive_init_live _ Hal)) as (r & Hr & Hc).
  rewrite Hm in Hr. injection Hr as <-. simpl in Hc.
  exists w, rc, st. auto.
Qed.

(** The runner a registered call decoded is the winner's and exists. *)
Lemma registered_runner s t :
  Inv_mem cfg s -> Inv_core cfg s -> (t < nthreads cfg)%nat ->
  registered (thr s t) = true -> pc (thr s t) <> L173 ->
  exists w rc ini st, (w < nthreads cfg)%nat /\ w <> t /\
    winner_pc (pc (thr s w)) = true /\
    runner (thr s t) = addr cfg w /\
    shape cfg w (pc (thr s w)) = Some (ini, st) /\
    mem s (addr cfg w) = Some (mk_runner rc ini st).
Proof.
  intros M C Ht Hr Hpc.
  destruct (registered_view s t C Ht Hr) as (w & Hw & Hne & Hwp & _ & _ & _ & Hrun).
  destruct (own_runner cfg s w M (winner_live _ Hwp)) as (rc & ini & st & Hs & Hm).
  exists w, rc, ini, st. splits; auto.
Qed.

Lemma winner_init_alive t p st :
  winner_pc p = true -> shape cfg t p = Some (true, st) -> alive_init p = true.
Proof. destruct p; simpl; congruence. Qed.

(** No dereference goes wrong. *)
Lemma no_crash_step s s' t :
  Inv_mem cfg s -> Inv_core cfg s -> (t < nthreads cfg)%nat ->
  step cfg t s = Some s' -> forall p, pc (thr s' t) <> Crashed p.
Proof.
  intros M C Ht H q.
  pose proof (ic_nocrash _ _ C t Ht q) as Hnc.
  step_cases M H; simpl; rewrite ?upd_same; simpl; try discriminate; try assumption.
  all: unfold try_call_on_exception, functor_failure;
       try match goal with |- context [fails _ ?x] => destruct (fails cfg x) end;
       try discriminate.
  all: try (rewrite Hpc; discriminate).
  all: intros _; exfalso.
  all: try (assert (Hr : registered (thr s t) = true)
              by (unfold registered; rewrite Hpc; reflexivity);
            destruct (registered_runner s t M C Ht Hr ltac:(rewrite Hpc; discriminate))
              as (w & rcw & iniw & stw & _ & _ & _ & Er & _ & Hmw);
            rewrite Er in *; congruence).
  all: assert (Hp : past_init (pc (thr s t)) = true) by (rewrite Hpc; reflexivity);
       destruct (holder_view s t M C Ht Hp) as (w & rcw & stw & _ & Er & _ & Hmw & _);
       rewrite Er in *; rewrite Hmw in *; tidy; simpl in *; congruence.
Qed.

End Views.

(** Case analysis of a step from a state that satisfies both invariants:
    the crashes are gone. *)
Ltac core_cases M C Ht H :=
  let Hnc := fresh "Hnc" in
  match type of H with
  | step ?cfg ?t ?s = Some ?s' =>
      pose proof (no_crash_step cfg s s' t M C Ht H) as Hnc;
      step_cases M H;
      try (exfalso; simpl in Hnc; rewrite upd_same in Hnc; eapply Hnc; reflexivity);
      clear Hnc
  end.

(** *** The steps keep the invariant *)

Section PhaseStep.
Variable cfg : config.
Hypothesis Wf : wf_config cfg = true.

Lemma phase_step s s' t :
  Inv_mem cfg s -> Inv_word cfg s -> Inv_core cfg s -> (t < nthreads cfg)%nat ->
  reg_guard cfg t s ->
  step cfg t s = Some s' -> phase_ok cfg s'.
Proof.
  intros M W C Ht G H.
  pose proof (ic_phase _ _ C) as P.
  pose proof (im_lexp _ _ M t) as Hl.
  pose proof (iw_expected _ _ W t) as [He0 _].
  unfold reg_guard in G.
  core_cases M C Ht H; try assumption.
  all: rewrite ?Hpc in *; simpl in Hl.
  all: try (eapply phase_frame with (s := s) (t := t);
            [ exact Ht | exact P | reflexivity | reflexivity
            | simpl; rewrite Hpc; reflexivity
            | unfold registered; simpl; rewrite Hpc; reflexivity
            | intros w Hw; unfold reg_ok, registered; simpl; rewrite Hpc; simpl;
              solve [ discriminate | auto ] ]).
  - (* line 146, the call wins *)
    eapply phase_win with (s := s) (t := t);
      [ exact Wf | exact Ht | exact P | congruence | reflexivity | reflexivity
      | reflexivity | reflexivity ].
  - (* line 116, the wait is over *)
    eapply phase_frame with (s := s) (t := t);
      [ exact Ht | exact P | reflexivity | reflexivity | | | ].
    + simpl. rewrite Hpc. unfold try_call_on_exception, functor_failure.
      destruct (fails cfg t); reflexivity.
    + unfold registered. simpl. rewrite Hpc.
      unfold try_call_on_exception, functor_failure.
      destruct (fails cfg t); reflexivity.
    + intros w Hw _. unfold reg_ok, registered. simpl.
      unfold try_call_on_exception, functor_failure.
      destruct (fails cfg t); discriminate.
  - (* line 155, the reset succeeds *)
    eapply phase_leave with (s := s) (t := t);
      [ exact Ht | exact P | rewrite Hpc; reflexivity | rewrite <- Hl; auto
      | left; reflexivity | reflexivity | reflexivity | reflexivity ].
  - (* line 160, done *)
    eapply phase_leave with (s := s) (t := t);
      [ exact Ht | exact P | rewrite Hpc; reflexivity | rewrite <- Hl; auto
      | right; reflexivity | reflexivity | reflexivity | reflexivity ].
  - (* line 171, the call registers *)
    eapply phase_register with (s := s) (t := t);
      [ exact Wf | exact Ht | exact P | rewrite Hpc; reflexivity
      | unfold registered; rewrite Hpc; reflexivity
      | assumption | assumption | auto | reflexivity | reflexivity
      | reflexivity | reflexivity ].
  - (* line 171, a sentinel was read *)
    assert (Hr : registered (goto L173 (thr s t)) = false).
    { unfold registered. simpl. apply Z.ltb_ge. assumption. }
    eapply phase_frame with (s := s) (t := t);
      [ exact Ht | exact P | reflexivity | reflexivity
      | simpl; rewrite Hpc; reflexivity
      | rewrite Hr; unfold registered; rewrite Hpc; reflexivity
      | intros w Hw _ Hx; congruence ].
  - (* line 173, null runner *)
    match goal with Hx : maskoff_pointer _ = 0 |- _ => rename Hx into C0 end.
    assert (Hr : registered (thr s t) = false).
    { destruct (registered (thr s t)) eqn:Hr; [exfalso|reflexivity].
      destruct (registered_view cfg s t C Ht Hr)
        as (w & Hw & _ & _ & _ & _ & Hex & _).
      destruct (wf_addr_of cfg Wf w Hw) as (Hal & Hlo & Hhi).
      replace (expected (thr s t))
        with (addr cfg w + (expected (thr s t) - addr cfg w)) in C0 by lia.
      rewrite maskoff_base in C0 by lia. lia. }
    eapply phase_frame with (s := s) (t := t);
      [ exact Ht | exact P | reflexivity | reflexivity
      | simpl; rewrite Hpc; reflexivity
      | rewrite Hr; reflexivity
      | intros w Hw _ Hx; discriminate Hx ].
  - (* line 173, a runner *)
    match goal with Hx : maskoff_pointer _ <> 0 |- _ => rename Hx into C0 end.
    assert (Hr : registered (thr s t) = true).
    { unfold registered. rewrite Hpc. apply Z.ltb_lt.
      destruct (Z.lt_ge_cases done (expected (thr s t))) as [Hlt|Hge]; [exact Hlt|].
      exfalso. apply C0. apply maskoff_small. unfold done in Hge. lia. }
    eapply phase_frame with (s := s) (t := t);
      [ exact Ht | exact P | reflexivity | reflexivity
      | simpl; rewrite Hpc; reflexivity
      | rewrite Hr; reflexivity
      | ].
    intros w Hw Hx _. destruct (Hx Hr) as [Hex _].
    destruct (wf_addr_of cfg Wf w Hw) as (Hal & Hlo & Hhi).
    simpl. split; [exact Hex|]. intros _.
    replace (expected (thr s t))
      with (addr cfg w + (expected (thr s t) - addr cfg w)) by lia.
    apply maskoff_base; lia.
  - (* line 174, the runner is initialized *)
    eapply phase_frame with (s := s) (t := t);
      [ exact Ht | exact P | reflexivity | reflexivity
      | simpl; rewrite Hpc; reflexivity
      | unfold registered; simpl; rewrite Hpc; reflexivity
      | ].
    intros w Hw Hx _.
    assert (Hr : registered (thr s t) = true)
      by (unfold registered; rewrite Hpc; reflexivity).
    destruct (Hx Hr) as [Hex Hrun]. simpl. split; [exact Hex|].
    intros _. apply Hrun. rewrite Hpc. discriminate.
  - (* line 176 *)
    eapply phase_frame with (s := s) (t := t);
      [ exact Ht | exact P | reflexivity | reflexivity
      | simpl; rewrite Hpc; reflexivity
      | unfold registered; simpl; rewrite Hpc; reflexivity
      | ].
    intros w Hw Hx _.
    assert (Hr : registered (thr s t) = true)
      by (unfold registered; rewrite Hpc; reflexivity).
    destruct (Hx Hr) as [Hex Hrun]. simpl. split; [exact Hex|].
    intros _. apply Hrun. rewrite Hpc. discriminate.
  - (* line 177 *)
    eapply phase_deregister with (s := s) (t := t);
      [ exact Wf | exact Ht | exact P
      | unfold registered; rewrite Hpc; reflexivity
      | reflexivity | reflexivity | reflexivity | reflexivity ].
Qed.


End PhaseStep.

Section HolderStep.
Variable cfg : config.
Hypothesis Wf : wf_config cfg = true.

(** When the owner gets past line 90 no call is between [wait_for_init]
    and [decrease_ref] on its runner. *)
Lemma nobody_points s t rc ini st :
  Inv_mem cfg s -> Inv_core cfg s -> (t < nthreads cfg)%nat ->
  live (pc (thr s t)) = true -> winner_pc (pc (thr s t)) = false ->
  mem s (addr cfg t) = Some (mk_runner rc ini st) -> rc <= 0 ->
  forall h, (h < nthreads cfg)%nat -> past_init (pc (thr s h)) = true ->
    runner (thr s h) <> addr cfg t.
Proof.
  intros M C Ht Lt Hnw Hm Hrc h Hh Hp Heq.
  destruct (ic_ref _ _ C t Ht Lt) as (r & Hr & Hc).
  rewrite Hm in Hr. injection Hr as <-. simpl in Hc.
  destruct (pc (thr s h)) eqn:Hpc; simpl in Hp; try discriminate.
  - (* line 176: still registered, so the runner is the winner's *)
    assert (Hreg : registered (thr s h) = true)
      by (unfold registered; rewrite Hpc; reflexivity).
    destruct (registered_view cfg s h C Hh Hreg)
      as (w & Hw & _ & Hwp & _ & _ & _ & Hrun).
    rewrite Hrun in Heq by (rewrite Hpc; discriminate).
    assert (w = t).
    { apply (im_distinct _ _ M); auto using winner_live. }
    congruence.
  - assert (1 <= refs cfg (addr cfg t) s).
    { apply (cnt_pos _ _ h Hh). unfold holds_ref. rewrite Hpc.
      apply Z.eqb_eq. exact Heq. }
    lia.
  - assert (1 <= refs cfg (addr cfg t) s).
    { apply (cnt_pos _ _ h Hh). unfold holds_ref. rewrite Hpc.
      apply Z.eqb_eq. exact Heq. }
    lia.
  - assert (1 <= refs cfg (addr cfg t) s).
    { apply (cnt_pos _ _ h Hh). unfold holds_ref. rewrite Hpc.
      apply Z.eqb_eq. exact Heq. }
    lia.
Qed.

Lemma hold_step s s' t :
  Inv_mem cfg s -> Inv_core cfg s -> (t < nthreads cfg)%nat ->
  step cfg t s = Some s' -> holder_ok cfg s'.
Proof.
  intros M C Ht H.
  pose proof (ic_holder _ _ C) as Ho.
  pose proof (Ho t Ht) as Hot.
  pose proof (nobody_points s t) as Hnp.
  core_cases M C Ht H; try assumption.
  all: rewrite ?Hpc in *; simpl in Hot.
  all: try (eapply holder_step with (s := s) (t := t);
            [ exact Ho | reflexivity
            | simpl; rewrite ?Hpc; simpl; solve [ discriminate | reflexivity | auto ]
            | simpl; rewrite ?Hpc; simpl; solve [ discriminate | auto ] ]).
  - (* line 116, the wait is over *)
    eapply holder_step with (s := s) (t := t); [ exact Ho | reflexivity | | ].
    + intros _. simpl. unfold try_call_on_exception, functor_failure.
      destruct (fails cfg t); reflexivity.
    + simpl. unfold try_call_on_exception, functor_failure.
      destruct (fails cfg t); discriminate.
  - (* line 174, the runner is initialized *)
    eapply holder_step with (s := s) (t := t);
      [ exact Ho | reflexivity | rewrite Hpc; discriminate | ].
    intros _. simpl.
    assert (Hr : registered (thr s t) = true)
      by (unfold registered; rewrite Hpc; reflexivity).
    destruct (registered_runner cfg s t M C Ht Hr ltac:(rewrite Hpc; discriminate))
      as (w & rcw & iniw & stw & Hw & _ & Hwp & Er & Hs & Hmw).
    exists w. splits; try assumption.
    match goal with
    | Hd : mem s (runner (thr s t)) = Some ?o, Hi : Z.b2z (m_initialized ?o) <> _ |- _ =>
        rewrite Er, Hmw in Hd; injection Hd as <-; simpl in Hi;
        destruct iniw; [| exfalso; apply Hi; reflexivity]
    end.
    eapply winner_init_alive; eassumption.
  - (* line 90, the winner leaves after its return *)
    eapply holder_owner_leaves with (s := s) (t := t);
      [ exact Ho | reflexivity | reflexivity | ].
    eapply Hnp; eauto.
  - eapply holder_owner_leaves with (s := s) (t := t);
      [ exact Ho | reflexivity | reflexivity | ].
    eapply Hnp; eauto.
Qed.


End HolderStep.

Section RefCount.
Variable cfg : config.
Hypothesis Wf : wf_config cfg = true.

Lemma live_upd s s' t l' u :
  thr s' = upd (thr s) t l' -> u <> t ->
  live (pc (thr s' u)) = live (pc (thr s u)).
Proof. intros Et Hne. rewrite Et, upd_other by assumption. reflexivity. Qed.

(** Line 144: the runner is constructed with no reference to it. *)
Lemma ref_alloc s s' t l' :
  Inv_mem cfg s -> Inv_core cfg s -> (t < nthreads cfg)%nat ->
  mem s (addr cfg t) = None ->
  thr s' = upd (thr s) t l' ->
  mem s' = updm (mem s) (addr cfg t) (Some (mk_runner 0 false None)) ->
  (forall a, holds_ref a (thr s t) = false) ->
  (forall a, holds_ref a l' = false) ->
  ref_ok cfg s'.
Proof.
  intros M C Ht Hn Et Em Hold Hnew u Hu Lu.
  assert (Hsame : forall a, refs cfg a s' = refs cfg a s).
  { intros a. apply (refs_same cfg a s s' t l' Ht Et). rewrite Hold, Hnew. reflexivity. }
  rewrite Em, Hsame. destruct (Nat.eq_dec u t) as [->|Hne].
  - rewrite updm_same. eexists. split; [reflexivity|]. simpl.
    symmetry. apply cnt_all_false. intros h Hh.
    destruct (holds_ref (addr cfg t) (thr s h)) eqn:Hx; [exfalso|reflexivity].
    assert (Hp : past_init (pc (thr s h)) = true).
    { unfold holds_ref in Hx. destruct (pc (thr s h)); simpl; congruence. }
    destruct (holder_view cfg s h M C Hh Hp) as (w & rc & st & _ & Er & _ & Hmw & _).
    assert (runner (thr s h) = addr cfg t).
    { unfold holds_ref in Hx. destruct (pc (thr s h)); try discriminate;
        apply Z.eqb_eq; exact Hx. }
    congruence.
  - rewrite (live_upd s s' t l' u Et Hne) in Lu.
    rewrite updm_other by (eapply other_addr; eauto).
    apply (ic_ref _ _ C u Hu Lu).
Qed.

(** Line 176. *)
Lemma ref_incr s s' t l' o :
  Inv_mem cfg s -> Inv_core cfg s -> (t < nthreads cfg)%nat ->
  pc (thr s t) = L176 ->
  mem s (runner (thr s t)) = Some o ->
  thr s' = upd (thr s) t l' ->
  mem s' = updm (mem s) (runner (thr s t))
             (Some (set_ref (swrap (ref_count o + 1)) o)) ->
  pc l' = L177 -> runner l' = runner (thr s t) ->
  ref_ok cfg s'.
Proof.
  intros M C Ht Hpc Ho Et Em Hpc' Hrun u Hu Lu.
  assert (Lold : live (pc (thr s u)) = true).
  { destruct (Nat.eq_dec u t) as [->|Hne].
    - rewrite Hpc. reflexivity.
    - rewrite <- (live_upd s s' t l' u Et Hne). exact Lu. }
  destruct (ic_ref _ _ C u Hu Lold) as (r & Hr & Hc).
  rewrite Em, (refs_upd cfg _ s s' t l' Ht Et).
  unfold holds_ref. rewrite Hpc, Hpc', Hrun. simpl Z.b2z.
  destruct (updm_case (mem s) (runner (thr s t))
              (Some (set_ref (swrap (ref_count o + 1)) o)) (addr cfg u))
    as [[Ea ->]|[Ea ->]].
  - eexists. split; [reflexivity|]. simpl.
    rewrite <- Ea, Z.eqb_refl. rewrite <- Ea in Ho.
    rewrite Hr in Ho. injection Ho as <-. rewrite Hc.
    pose proof (refs_bounds cfg (addr cfg u) s). pose proof (wf_threads cfg Wf).
    assert (refs cfg (addr cfg u) s <= Z.of_nat (nthreads cfg) - 1).
    { apply (cnt_miss _ _ t Ht). unfold holds_ref. rewrite Hpc. reflexivity. }
    rewrite swrap_small by lia. simpl. lia.
  - exists r. split; [exact Hr|]. rewrite Hc.
    replace (runner (thr s t) =? addr cfg u) with false
      by (symmetry; apply Z.eqb_neq; congruence).
    simpl. lia.
Qed.

(** Line 183. *)
Lemma ref_decr s s' t l' o :
  Inv_mem cfg s -> Inv_core cfg s -> (t < nthreads cfg)%nat ->
  pc (thr s t) = L183 ->
  mem s (runner (thr s t)) = Some o ->
  thr s' = upd (thr s) t l' ->
  mem s' = updm (mem s) (runner (thr s t))
             (Some (set_ref (swrap (ref_count o - 1)) o)) ->
  pc l' = L145 ->
  ref_ok cfg s'.
Proof.
  intros M C Ht Hpc Ho Et Em Hpc' u Hu Lu.
  assert (Lold : live (pc (thr s u)) = true).
  { destruct (Nat.eq_dec u t) as [->|Hne].
    - rewrite Hpc. reflexivity.
    - rewrite <- (live_upd s s' t l' u Et Hne). exact Lu. }
  destruct (ic_ref _ _ C u Hu Lold) as (r & Hr & Hc).
  rewrite Em, (refs_upd cfg _ s s' t l' Ht Et).
  unfold holds_ref. rewrite Hpc, Hpc'. simpl Z.b2z.
  destruct (updm_case (mem s) (runner (thr s t))
              (Some (set_ref (swrap (ref_count o - 1)) o)) (addr cfg u))
    as [[Ea ->]|[Ea ->]].
  - eexists. split; [reflexivity|]. simpl.
    rewrite <- Ea, Z.eqb_refl. rewrite <- Ea in Ho.
    rewrite Hr in Ho. injection Ho as <-. rewrite Hc.
    pose proof (refs_bounds cfg (addr cfg u) s). pose proof (wf_threads cfg Wf).
    assert (1 <= refs cfg (addr cfg u) s).
    { apply (cnt_pos _ _ t Ht). unfold holds_ref. rewrite Hpc.
      apply Z.eqb_eq. congruence. }
    rewrite swrap_small by lia. simpl. lia.
  - exists r. split; [exact Hr|]. rewrite Hc.
    replace (runner (thr s t) =? addr cfg u) with false
      by (symmetry; apply Z.eqb_neq; congruence).
    simpl. lia.
Qed.

End RefCount.

Section CoreStep.
Variable cfg : config.
Hypothesis Wf : wf_config cfg = true.

Lemma own_update_keeps_ref s t r0 r1 :
  mem s (addr cfg t) = Some r0 -> ref_count r1 = ref_count r0 ->
  forall u r, mem s (addr cfg u) = Some r ->
    exists r', updm (mem s) (addr cfg t) (Some r1) (addr cfg u) = Some r' /\
               ref_count r' = ref_count r.
Proof.
  intros H0 Hc u r Hr.
  destruct (updm_case (mem s) (addr cfg t) (Some r1) (addr cfg u))
    as [[Ea ->]|[Ea ->]].
  - rewrite Ea, H0 in Hr. injection Hr as <-. eauto.
  - eauto.
Qed.

Lemma ref_step s s' t :
  Inv_mem cfg s -> Inv_core cfg s -> (t < nthreads cfg)%nat ->
  step cfg t s = Some s' -> ref_ok cfg s'.
Proof.
  intros M C Ht H.
  pose proof (ic_ref _ _ C) as Ro.
  assert (Hoth : forall u, u <> t -> live (pc (thr s u)) = true ->
            live (pc (thr s t)) = true -> addr cfg u <> addr cfg t).
  { intros u Hne Lu Lt. eapply other_addr; eauto. }
  core_cases M C Ht H; try assumption.
  all: rewrite ?Hpc in *.
  all: try (eapply ref_frame with (s := s) (t := t);
            [ exact Ht | exact Ro | reflexivity
            | intros a; unfold holds_ref; simpl; rewrite ?Hpc; reflexivity
            | simpl; rewrite ?Hpc; simpl; solve [ discriminate | reflexivity | auto ]
            | intros u r Hu Lu Hr; simpl;
              solve [ eauto
                    | eapply own_update_keeps_ref; [exact Hm | reflexivity | exact Hr] ] ]).
  - (* line 144 *)
    eapply ref_alloc with (s := s) (t := t);
      first [ exact M | exact C | exact Ht | eassumption | reflexivity
            | intros a; unfold holds_ref; rewrite ?Hpc; reflexivity ].
  - (* line 116, the wait is over *)
    eapply ref_frame with (s := s) (t := t);
      [ exact Ht | exact Ro | reflexivity | | | intros u r Hu Lu Hr; eauto ].
    + intros a. unfold holds_ref. simpl. rewrite Hpc.
      unfold try_call_on_exception, functor_failure.
      destruct (fails cfg t); reflexivity.
    + intros _. rewrite Hpc. reflexivity.
  - (* line 176 *)
    eapply ref_incr with (s := s) (t := t);
      first [ exact Wf | exact M | exact C | exact Ht | exact Hpc | eassumption
            | reflexivity ].
  - (* line 183 *)
    eapply ref_decr with (s := s) (t := t);
      first [ exact Wf | exact M | exact C | exact Ht | exact Hpc | eassumption
            | reflexivity ].
  - (* line 91, a call that never won *)
    eapply ref_frame with (s := s) (t := t);
      [ exact Ht | exact Ro | reflexivity
      | intros a; unfold holds_ref; simpl; rewrite ?Hpc; reflexivity
      | discriminate | ].
    intros u r Hu Lu Hr. simpl in *.
    destruct (Nat.eq_dec u t) as [->|Hne];
      [rewrite upd_same in Lu; discriminate Lu|].
    rewrite upd_other in Lu by assumption.
    rewrite updm_other by auto. eauto.
  - eapply ref_frame with (s := s) (t := t);
      [ exact Ht | exact Ro | reflexivity
      | intros a; unfold holds_ref; simpl; rewrite ?Hpc; reflexivity
      | discriminate | ].
    intros u r Hu Lu Hr. simpl in *.
    destruct (Nat.eq_dec u t) as [->|Hne];
      [rewrite upd_same in Lu; discriminate Lu|].
    rewrite upd_other in Lu by assumption.
    rewrite updm_other by auto. eauto.
  - eapply ref_frame with (s := s) (t := t);
      [ exact Ht | exact Ro | reflexivity
      | intros a; unfold holds_ref; simpl; rewrite ?Hpc; reflexivity
      | discriminate | ].
    intros u r Hu Lu Hr. simpl in *.
    destruct (Nat.eq_dec u t) as [->|Hne];
      [rewrite upd_same in Lu; discriminate Lu|].
    rewrite upd_other in Lu by assumption.
    rewrite updm_other by auto. eauto.
Qed.

(** Every step keeps the invariant, provided a registration finds room. *)
Lemma inv_core_step s s' t :
  Inv_mem cfg s -> Inv_word cfg s -> Inv_core cfg s -> (t < nthreads cfg)%nat ->
  reg_guard cfg t s ->
  step cfg t s = Some s' -> Inv_core cfg s'.
Proof.
  intros M W C Ht G H.
  split.
  - eapply phase_step; eauto.
  - eapply hold_step; eauto.
  - eapply ref_step; eauto.
  - intros u Hu. destruct (Nat.eq_dec u t) as [->|Hne].
    + intros q. eapply no_crash_step; eauto.
    + assert (E : pc (thr s' u) = pc (thr s u)).
      { clear - H Hne. cbv beta zeta delta [step] in H.
        break_match H; try discriminate H; injection H as <-; simpl;
          rewrite ?upd_other by assumption; reflexivity. }
      rewrite E. apply (ic_nocrash _ _ C u Hu).
Qed.

Lemma inv_core_init : Inv_core cfg init.
Proof.
  split; simpl.
  - left. split; [left; reflexivity|]. intros t Ht. split; reflexivity.
  - intros t Ht Hp. discriminate Hp.
  - intros w Hw L. discriminate L.
  - intros t Ht. discriminate.
Qed.

End CoreStep.

(** ** Room for a registration *)

Section Guards.
Variable cfg : config.
Hypothesis Wf : wf_config cfg = true.
Hypothesis NF : never_fails cfg = true.

Lemma no_failure t : (t < nthreads cfg)%nat -> fails cfg t = false.
Proof.
  intros Ht. unfold never_fails in NF. rewrite forallb_forall in NF.
  specialize (NF t ltac:(apply in_seq; lia)).
  apply negb_true_iff in NF. exact NF.
Qed.

(** With an active winner the word is far from both sentinels. *)
Lemma active_state s w :
  Inv_core cfg s -> (w < nthreads cfg)%nat -> winner_pc (pc (thr s w)) = true ->
  my_state s = addr cfg w + regs cfg s /\ 0 <= regs cfg s <= 127 /\
  128 <= addr cfg w /\ addr cfg w + 128 <= 2 ^ 64 /\ addr cfg w mod 128 = 0 /\
  (forall u, (u < nthreads cfg)%nat -> winner_pc (pc (thr s u)) = true -> u = w).
Proof.
  intros C Hw Hwp.
  destruct (ic_phase _ _ C) as [[_ Hall]|(w' & Hwn & Hwp' & Huniq & Hst & Hle & Hreg)].
  - destruct (Hall w Hw) as [Hx _]. congruence.
  - assert (w = w') by (apply Huniq; assumption). subst w'.
    destruct (wf_addr_of cfg Wf w Hw) as (Hal & Hlo & Hhi).
    pose proof (regs_bounds cfg s). change max_nfs_size with 128 in Hle.
    splits; try assumption; lia.
Qed.

(** With the word at a sentinel nobody is a winner. *)
Lemma sentinel_no_winner s w :
  Inv_core cfg s -> (w < nthreads cfg)%nat ->
  my_state s = uninitialized \/ my_state s = done ->
  winner_pc (pc (thr s w)) = false.
Proof.
  intros C Hw Hs. destruct (winner_pc (pc (thr s w))) eqn:Hwp; [exfalso|reflexivity].
  destruct (active_state s w C Hw Hwp) as (Hst & Hr & Hlo & _).
  unfold uninitialized, done in Hs. lia.
Qed.

Lemma guard_nf s t :
  Inv_core cfg s -> Inv_nf cfg s -> (t < nthreads cfg)%nat -> reg_guard cfg t s.
Proof.
  intros C F Ht Hpc Hgt Heq.
  destruct (ic_phase _ _ C) as [[Hv _]|(w & Hwn & Hwp & Huniq & Hst & Hle & Hreg)].
  - unfold uninitialized, done in *. lia.
  - destruct (nf_active _ _ F w Hwn Hwp) as [_ Hview].
    destruct (Hview t Ht) as (_ & _ & _ & H171).
    specialize (H171 Hpc). change max_nfs_size with 128 in *. lia.
Qed.

Lemma guard_small s t :
  Z.of_nat (nthreads cfg) <= max_nfs_size ->
  Inv_core cfg s -> (t < nthreads cfg)%nat -> reg_guard cfg t s.
Proof.
  intros Hn C Ht Hpc Hgt Heq.
  destruct (ic_phase _ _ C) as [[Hv _]|(w & Hwn & Hwp & Huniq & Hst & Hle & Hreg)].
  - unfold uninitialized, done in *. lia.
  - assert (Hne : t <> w) by (intros ->; rewrite Hpc in Hwp; discriminate).
    assert (regs cfg s <= Z.of_nat (nthreads cfg) - 2).
    { apply (cnt_miss2 _ _ t w Ht Hwn Hne).
      - unfold registered. rewrite Hpc. reflexivity.
      - destruct (registered (thr s w)) eqn:Hr; [|reflexivity].
        pose proof (registered_not_winner _ Hr). congruence. }
    lia.
Qed.

End Guards.

(** ** When no functor raises *)

Section NoFailureIdle.
Variable cfg : config.
Hypothesis Wf : wf_config cfg = true.
Hypothesis NF : never_fails cfg = true.

Lemma nf_idle_step s s' t :
  Inv_mem cfg s -> Inv_core cfg s -> Inv_nf cfg s -> (t < nthreads cfg)%nat ->
  step cfg t s = Some s' ->
  my_state s' = uninitialized ->
  ncalls s' = 0%nat /\
  forall u, (u < nthreads cfg)%nat ->
    entry_pc (pc (thr s' u)) = true /\ expected (thr s' u) = 0.
Proof.
  intros M C F Ht H.
  pose proof (nf_idle _ _ F) as Hi.
  pose proof (im_raised _ _ M t) as Hr.
  pose proof (no_failure cfg NF t Ht) as Hnf.
  pose proof (guard_nf cfg s t C F Ht) as G.
  pose proof (wf_addr_of cfg Wf t Ht) as (_ & Ha & _).
  pose proof (im_lexp _ _ M t) as Hl.
  assert (Hreg : registered (thr s t) = true ->
            129 <= my_state s /\ my_state s <= 2 ^ 64 - 1).
  { intros Hx. destruct (registered_view cfg s t C Ht Hx)
      as (w & Hw & _ & _ & Hst & Hn & _ & _).
    destruct (wf_addr_of cfg Wf w Hw) as (_ & Hlo & Hhi). lia. }
  assert (Hsame : forall l' s'',
    thr s'' = upd (thr s) t l' -> trace s'' = trace s ->
    my_state s = uninitialized ->
    entry_pc (pc l') = true -> expected l' = 0 ->
    ncalls s'' = 0%nat /\
    forall u, (u < nthreads cfg)%nat ->
      entry_pc (pc (thr s'' u)) = true /\ expected (thr s'' u) = 0).
  { intros l' s'' Et Etr H0 Hp He. destruct (Hi H0) as [Hn Hall].
    split; [unfold ncalls in *; rewrite Etr; exact Hn|].
    intros u Hu. rewrite Et. destruct (Nat.eq_dec u t) as [->|Hne].
    - rewrite upd_same. auto.
    - rewrite upd_other by assumption. auto. }
  assert (Hact : done < my_state s ->
            128 <= my_state s /\ my_state s <= 2 ^ 64 - 1 /\
            (regs cfg s <= max_nfs_size - 2 -> my_state s + 1 <= 2 ^ 64 - 1)).
  { intros Hgt.
    destruct (ic_phase _ _ C) as [[Hv _]|(w & Hwn & Hwp & Huniq & Hst & Hle & _)].
    - unfold uninitialized, done in *. lia.
    - destruct (wf_addr_of cfg Wf w Hwn) as (_ & Hlo & Hhi).
      pose proof (regs_bounds cfg s). change max_nfs_size with 128 in *. lia. }
  unfold reg_guard in G.
  core_cases M C Ht H; intros H0; simpl in H0; auto.
  all: rewrite ?Hpc in *; simpl in Hl, Hr.
  all: try (destruct Hr; congruence).
  all: try (exfalso; unfold uninitialized, done in *; lia).
  all: try (destruct (Hi H0) as [_ Hall]; destruct (Hall t Ht) as [Hx Hy];
            rewrite ?Hpc in Hx; simpl in Hx; try discriminate Hx).
  all: try (eapply Hsame; [ reflexivity | reflexivity | assumption | reflexivity
                          | simpl; unfold uninitialized in *; congruence ]).
  all: try (exfalso; unfold uninitialized, done in *; lia).
  - (* line 171: the word does not wrap *)
    exfalso. specialize (G eq_refl E E0).
    rewrite <- E0 in *. destruct (Hact E) as (Hlo & Hhi & Hroom).
    specialize (Hroom G). rewrite wrap_small in H0 by lia.
    unfold uninitialized in H0. lia.
  - (* line 177 *)
    exfalso. destruct Hreg as [Hlo Hhi];
      [unfold registered; rewrite Hpc; reflexivity|].
    rewrite wrap_small in H0 by lia. unfold uninitialized in H0. lia.
Qed.

End NoFailureIdle.

Section NoFailureDone.
Variable cfg : config.
Hypothesis Wf : wf_config cfg = true.
Hypothesis NF : never_fails cfg = true.

Lemma nf_done_step s s' t :
  Inv_mem cfg s -> Inv_core cfg s -> Inv_nf cfg s -> (t < nthreads cfg)%nat ->
  step cfg t s = Some s' ->
  my_state s' = done -> ncalls s' = 1%nat.
Proof.
  intros M C F Ht H.
  pose proof (nf_done _ _ F) as Hd.
  pose proof (nf_active _ _ F t Ht) as Hat.
  pose proof (im_raised _ _ M t) as Hr.
  pose proof (no_failure cfg NF t Ht) as Hnf.
  pose proof (guard_nf cfg s t C F Ht) as G.
  pose proof (wf_addr_of cfg Wf t Ht) as (_ & Ha & _).
  pose proof (sentinel_no_winner cfg Wf s t C Ht) as Hsw.
  assert (Hreg : registered (thr s t) = true ->
            129 <= my_state s /\ my_state s <= 2 ^ 64 - 1).
  { intros Hx. destruct (registered_view cfg s t C Ht Hx)
      as (w & Hw & _ & _ & Hst & Hn & _ & _).
    destruct (wf_addr_of cfg Wf w Hw) as (_ & Hlo & Hhi). lia. }
  assert (Hact : done < my_state s ->
            128 <= my_state s /\ my_state s <= 2 ^ 64 - 1 /\
            (regs cfg s <= max_nfs_size - 2 -> my_state s + 1 <= 2 ^ 64 - 1)).
  { intros Hgt.
    destruct (ic_phase _ _ C) as [[Hv _]|(w & Hwn & Hwp & Huniq & Hst & Hle & _)].
    - unfold uninitialized, done in *. lia.
    - destruct (wf_addr_of cfg Wf w Hwn) as (_ & Hlo & Hhi).
      pose proof (regs_bounds cfg s). change max_nfs_size with 128 in *. lia. }
  unfold reg_guard in G.
  core_cases M C Ht H; intros H0; simpl in H0; auto.
  all: rewrite ?Hpc in *; simpl in Hr, Hsw, Hat.
  all: try (destruct Hr; congruence).
  all: try (exfalso; unfold uninitialized, done in *; lia).
  all: unfold ncalls; simpl; rewrite ?filter_app, ?length_app; simpl;
       rewrite ?Nat.add_0_r; try (apply Hd; assumption).
  all: try (specialize (Hsw (or_intror H0)); discriminate Hsw).
  - (* line 160 *)
    destruct (Hat eq_refl) as [Hn _]. exact Hn.
  - (* line 171 *)
    exfalso. specialize (G eq_refl ltac:(assumption) ltac:(assumption)).
    match goal with Hx : my_state s = expected _ |- _ => rewrite <- Hx in * end.
    destruct Hact as (Hlo & Hhi & Hroom); [assumption|].
    specialize (Hroom G). rewrite wrap_small in H0 by lia.
    unfold done in *. lia.
  - (* line 177 *)
    exfalso. destruct Hreg as [Hlo Hhi];
      [unfold registered; rewrite Hpc; reflexivity|].
    rewrite wrap_small in H0 by lia. unfold done in H0. lia.
Qed.

End NoFailureDone.

Section NoFailureActive.
Variable cfg : config.
Hypothesis Wf : wf_config cfg = true.
Hypothesis NF : never_fails cfg = true.

Lemma view_upd s t l' w :
  (forall u, (u < nthreads cfg)%nat -> view_ok cfg w (thr s u)) ->
  view_ok cfg w l' ->
  forall u, (u < nthreads cfg)%nat -> view_ok cfg w (upd (thr s) t l' u).
Proof.
  intros Hall Hl u Hu. destruct (Nat.eq_dec u t) as [->|Hne].
  - rewrite upd_same. exact Hl.
  - rewrite upd_other by assumption. auto.
Qed.

(** A call that is not the winner moves while [w] is at work. *)
Lemma nf_other_step s s' t w :
  Inv_mem cfg s -> Inv_word cfg s -> Inv_core cfg s -> Inv_nf cfg s ->
  (t < nthreads cfg)%nat ->
  step cfg t s = Some s' ->
  (w < nthreads cfg)%nat -> w <> t -> winner_pc (pc (thr s w)) = true ->
  ncalls s' = ncalls s /\
  forall u, (u < nthreads cfg)%nat -> view_ok cfg w (thr s' u).
Proof.
  intros M W C F Ht H Hw Hne Hwp.
  destruct (nf_active _ _ F w Hw Hwp) as [_ Hview].
  destruct (active_state cfg Wf s w C Hw Hwp) as (Hst & Hregs & Hlo & Hhi & Hal & Huniq).
  assert (Hnw : winner_pc (pc (thr s t)) = false).
  { destruct (winner_pc (pc (thr s t))) eqn:Hx; [|reflexivity].
    exfalso. apply Hne. symmetry. apply Huniq; assumption. }
  pose proof (Hview t Ht) as (V1 & V2 & V3 & V4).
  pose proof (iw_done _ _ W t Ht) as [Hd1 _].
  change max_nfs_size with 128 in *.
  core_cases M C Ht H.
  all: rewrite ?Hpc in *; simpl in Hnw, V2, V3, V4; try discriminate Hnw.
  all: split; [ reflexivity || (unfold ncalls; simpl;
                 rewrite ?filter_app, ?length_app; simpl; lia) | ].
  all: try assumption.
  all: simpl; apply view_upd; [assumption|].
  all: unfold view_ok; simpl; change max_nfs_size with 128.
  all: splits; try discriminate; try (intros _); auto; try lia.
  - (* line 168: the sentinel of the winner's runner *)
    destruct V1 as [V1|V1]; [exfalso; apply V2; [reflexivity|exact V1]|].
    replace (expected (thr s t))
      with (addr cfg w + (expected (thr s t) - addr cfg w)) by lia.
    apply (lor_sentinel (addr cfg w)); lia.
  - (* line 169: the word read is below the sentinel *)
    specialize (V3 eq_refl).
    match goal with Hx : my_state s <> max_value _ |- _ => rewrite V3 in Hx end.
    lia.
Qed.

(** The winner itself moves. *)
Lemma nf_winner_step s s' t :
  Inv_mem cfg s -> Inv_core cfg s -> Inv_nf cfg s -> (t < nthreads cfg)%nat ->
  step cfg t s = Some s' ->
  winner_pc (pc (thr s' t)) = true ->
  ncalls s' = (if ran_functor (pc (thr s' t)) then 1 else 0)%nat /\
  forall u, (u < nthreads cfg)%nat -> view_ok cfg t (thr s' u).
Proof.
  intros M C F Ht H.
  pose proof (nf_active _ _ F t Ht) as Hat.
  pose proof (nf_idle _ _ F) as Hi.
  pose proof (no_failure cfg NF t Ht) as Hnf.
  pose proof (im_raised _ _ M t) as Hr.
  core_cases M C Ht H; simpl; rewrite ?upd_same; simpl; try discriminate.
  all: rewrite ?Hpc in *; simpl in Hat, Hr.
  all: try (destruct Hr; congruence).
  all: unfold try_call_on_exception, functor_failure; rewrite ?Hnf; simpl.
  all: intros Hwp; try discriminate Hwp.
  1: { (* line 146: the call wins an idle flag *)
    destruct Hi as [Hn Hall]; [congruence|].
    split; [exact Hn|]. intros u Hu.
    assert (Hv : view_ok cfg t (thr s u)).
    { destruct (Hall u Hu) as [Hp He]. unfold view_ok. rewrite He.
      splits; try (left; reflexivity);
        destruct (pc (thr s u)); simpl in Hp; try discriminate; intros Hx;
        discriminate Hx. }
    destruct (Nat.eq_dec u t) as [->|Hne].
    + rewrite upd_same. destruct Hv as (V1 & _). unfold view_ok. simpl.
      splits; try assumption; intros Hx; discriminate Hx.
    + rewrite upd_other by assumption. exact Hv. }
  all: destruct (Hat eq_refl) as [Hn Hv].
  all: (split;
        [ unfold ncalls in *; simpl; rewrite ?filter_app, ?length_app; simpl;
          rewrite Hn; reflexivity
        | apply view_upd; [exact Hv|];
          destruct (Hv t Ht) as (V1 & _); unfold view_ok; simpl;
          splits; try assumption; intros Hx; discriminate Hx ]).
Qed.

Lemma nf_step s s' t :
  Inv_mem cfg s -> Inv_word cfg s -> Inv_core cfg s -> Inv_nf cfg s ->
  (t < nthreads cfg)%nat ->
  step cfg t s = Some s' -> Inv_nf cfg s'.
Proof.
  intros M W C F Ht H. split.
  - eapply nf_idle_step; eauto.
  - intros w Hw Hwp. destruct (Nat.eq_dec w t) as [->|Hne].
    + eapply nf_winner_step; eauto.
    + assert (E : pc (thr s' w) = pc (thr s w)).
      { clear - H Hne. cbv beta zeta delta [step] in H.
        break_match H; try discriminate H; injection H as <-; simpl;
          rewrite ?upd_other by assumption; reflexivity. }
      rewrite E in *.
      destruct (nf_other_step s s' t w M W C F Ht H Hw Hne Hwp) as [Hn Hv].
      split; [|exact Hv].
      rewrite Hn. apply (nf_active _ _ F w Hw Hwp).
  - eapply nf_done_step; eauto.
Qed.

Lemma inv_nf_init : Inv_nf cfg init.
Proof.
  split; simpl.
  - intros _. split; [reflexivity|]. intros t Ht. split; reflexivity.
  - intros w Hw Hx. discriminate Hx.
  - intros Hx. discriminate Hx.
Qed.

End NoFailureActive.

(** ** The invariants hold in every reachable state *)

Section Reachable.
Variable cfg : config.
Hypothesis Wf : wf_config cfg = true.

Lemma bounded_cases :
  bounded cfg = true ->
  Z.of_nat (nthreads cfg) <= max_nfs_size \/ never_fails cfg = true.
Proof.
  unfold bounded. intros H. apply orb_prop in H. destruct H as [H|H].
  - left. apply Z.leb_le. exact H.
  - right. exact H.
Qed.

Lemma reachable_small s :
  Z.of_nat (nthreads cfg) <= max_nfs_size ->
  reachable cfg s -> Inv_mem cfg s /\ Inv_core cfg s.
Proof.
  intros Hn R. induction R as [|s t s' R [M C] Ht H].
  - split; [apply inv_mem_init | apply inv_core_init].
  - destruct (reachable_word cfg Wf s R) as [_ W].
    split; [eapply inv_mem_step; eauto|].
    eapply inv_core_step; eauto. apply guard_small; assumption.
Qed.

Lemma reachable_nf s :
  never_fails cfg = true ->
  reachable cfg s -> Inv_mem cfg s /\ Inv_core cfg s /\ Inv_nf cfg s.
Proof.
  intros NF R. induction R as [|s t s' R (M & C & F) Ht H].
  - splits; [apply inv_mem_init | apply inv_core_init | apply inv_nf_init].
  - destruct (reachable_word cfg Wf s R) as [_ W].
    splits; [eapply inv_mem_step; eauto | | eapply nf_step; eauto].
    eapply inv_core_step; eauto. apply guard_nf; assumption.
Qed.

Lemma reachable_inv s :
  bounded cfg = true -> reachable cfg s -> Inv_mem cfg s /\ Inv_core cfg s.
Proof.
  intros B R. destruct (bounded_cases B) as [Hn|NF].
  - apply reachable_small; assumption.
  - destruct (reachable_nf s NF R) as (M & C & _). auto.
Qed.

End Reachable.

(** ** Executions stay reachable *)

Lemma reachable_exec cfg sched s :
  reachable cfg s -> reachable cfg (exec cfg sched s).
Proof.
  revert s. induction sched as [|t rest IH]; intros s R; simpl; [exact R|].
  destruct (t <? nthreads cfg)%nat eqn:Ht; [|auto].
  apply Nat.ltb_lt in Ht.
  destruct (step cfg t s) as [s'|] eqn:Hs; [|auto].
  apply IH. eapply reach_step; eauto.
Qed.

(** ** Decoding the word *)

(** C9.  For every runner address [p] (a 64-bit word whose low [bit_count]
    bits are zero) and every admission count [c] between 0 and
    [max_nfs_size - 1], [maskoff_pointer] applied to [p + c] gives back
    [p]; applied to the sentinels [uninitialized] and [done] it gives 0, so
    that at line 173 a call that read a sentinel decodes a null runner and
    goes back to the head of the loop: the word, the runners and the
    trace are untouched (no dereference, no reference counting, no
    assist). *)

Theorem maskoff_pointer_decodes (p c : Z) :
  0 <= p < 2 ^ 64 -> Z.land p (max_nfs_size - 1) = 0 ->
  0 <= c <= max_nfs_size - 1 ->
  maskoff_pointer (wrap (p + c)) = p /\
  maskoff_pointer uninitialized = 0 /\
  maskoff_pointer done = 0 /\
  forall cfg t s,
    pc (thr s t) = L173 ->
    expected (thr s t) = uninitialized \/ expected (thr s t) = done ->
    step cfg t s = Some (with_thr t (goto L145 (set_runner 0 (thr s t))) s).
Proof.
  intros Hp Hlow Hc. change (max_nfs_size - 1) with (Z.ones 7) in Hlow.
  rewrite Z.land_ones in Hlow by lia. change (2 ^ 7) with 128 in Hlow.
  change (max_nfs_size - 1) with 127 in Hc.
  assert (p + 128 <= 2 ^ 64).
  { pose proof (Z.div_mod p 128 ltac:(lia)) as Hd. rewrite Hlow in Hd.
    assert (p / 128 < 2 ^ 57) by (apply Z.div_lt_upper_bound; lia).
    change (2 ^ 64) with (128 * 2 ^ 57). lia. }
  splits.
  - rewrite wrap_small by lia. apply maskoff_base; assumption.
  - reflexivity.
  - reflexivity.
  - intros cfg t s Hpc He. unfold step. rewrite Hpc.
    destruct He as [-> | ->]; reflexivity.
Qed.

Lemma maskoff_pointer_decodes_witness :
  maskoff_pointer (wrap (256 + 127)) = 256 /\
  maskoff_pointer uninitialized = 0 /\
  maskoff_pointer done = 0 /\
  forall cfg t s,
    pc (thr s t) = L173 ->
    expected (thr s t) = uninitialized \/ expected (thr s t) = done ->
    step cfg t s = Some (with_thr t (goto L145 (set_runner 0 (thr s t))) s).
Proof.
  apply (maskoff_pointer_decodes 256 127); [lia | reflexivity | vm_compute; split; discriminate].
Defined.

(** ** Registration

    C10.  At line 171 the registration compare-and-swap is attempted only
    when the value the call holds in [expected] is greater than [done]: a
    step from line 171 that changes the word found [expected > done] and the
    word equal to [expected], and wrote the word plus one.  Hence a word that
    is [uninitialized] or [done] is left as it is, and the value written by
    a registration is neither 1 nor 2. *)

Theorem registration_spares_sentinels cfg t s s' :
  0 <= my_state s < 2 ^ 64 ->
  pc (thr s t) = L171 -> step cfg t s = Some s' ->
  (my_state s' <> my_state s ->
     done < expected (thr s t) /\ my_state s = expected (thr s t) /\
     my_state s' = wrap (my_state s + 1)) /\
  (my_state s = uninitialized \/ my_state s = done -> my_state s' = my_state s) /\
  (my_state s' <> my_state s -> my_state s' <> 1 /\ my_state s' <> 2).
Proof.
  intros Hr Hpc H. unfold step in H. rewrite Hpc in H.
  destruct (done <? expected (thr s t)) eqn:Hgt.
  - apply Z.ltb_lt in Hgt.
    destruct (my_state s =? expected (thr s t)) eqn:Heq.
    + apply Z.eqb_eq in Heq. injection H as <-. simpl. rewrite <- Heq.
      unfold done, uninitialized in *.
      assert (Hw : wrap (my_state s + 1) = 0 \/ 3 <= wrap (my_state s + 1)).
      { destruct (Z.eq_dec (my_state s + 1) (2 ^ 64)) as [E|E].
        - left. rewrite E. reflexivity.
        - right. rewrite wrap_small by lia. lia. }
      splits; intros; try lia.
    + injection H as <-. simpl. splits; intros; congruence.
  - injection H as <-. simpl. splits; intros; congruence.
Qed.

Lemma registration_spares_sentinels_witness :
  (my_state s_registered_173 <> my_state s_active_171 ->
     done < expected (thr s_active_171 1%nat) /\
     my_state s_active_171 = expected (thr s_active_171 1%nat) /\
     my_state s_registered_173 = wrap (my_state s_active_171 + 1)) /\
  (my_state s_active_171 = uninitialized \/ my_state s_active_171 = done ->
   my_state s_registered_173 = my_state s_active_171) /\
  (my_state s_registered_173 <> my_state s_active_171 ->
   my_state s_registered_173 <> 1 /\ my_state s_registered_173 <> 2).
Proof.
  apply (registration_spares_sentinels cfg3 1%nat s_active_171 s_registered_173);
    [vm_compute; split; [discriminate | reflexivity] | reflexivity | reflexivity].
Defined.

(** ** A flag that is done *)

Section Done.
Variable cfg : config.
Hypothesis Wf : wf_config cfg = true.

(** Once done, always done. *)
Lemma done_absorbing s s' t :
  Inv_mem cfg s -> Inv_word cfg s -> (t < nthreads cfg)%nat ->
  my_state s = done -> step cfg t s = Some s' -> my_state s' = done.
Proof.
  intros M W Ht Hd H.
  destruct (sentinel_idle cfg Wf s t (iw_phase _ _ W) Ht (or_intror Hd))
    as [Hnw Hnr].
  step_cases M H; simpl; try assumption.
  all: rewrite ?Hpc in *; simpl in Hnw; try discriminate Hnw.
  all: unfold registered in Hnr; rewrite ?Hpc in Hnr; simpl in Hnr;
       try discriminate Hnr.
  all: unfold uninitialized, done in *; try lia.
Qed.

Lemma done_path_step s s' t u :
  Inv_mem cfg s -> (u < nthreads cfg)%nat ->
  my_state s = done -> on_done_path (thr s t) = true ->
  step cfg u s = Some s' -> on_done_path (thr s' t) = true.
Proof.
  intros M Hu Hd Hp H.
  destruct (Nat.eq_dec t u) as [->|Hne].
  - unfold on_done_path in *.
    step_cases M H; simpl; rewrite ?upd_same; simpl; try assumption.
    all: rewrite ?Hpc in *; simpl in Hp; try discriminate Hp; try reflexivity.
    all: try (apply Z.eqb_eq; assumption).
    all: try (apply Z.eqb_eq in Hp; unfold done, uninitialized in *; lia).
  - rewrite (step_other cfg s s' u t H Hne). exact Hp.
Qed.

End Done.

Lemma done_stays cfg sched s t :
  wf_config cfg = true -> reachable cfg s ->
  my_state s = done -> on_done_path (thr s t) = true ->
  my_state (exec cfg sched s) = done /\
  on_done_path (thr (exec cfg sched s) t) = true.
Proof.
  intros Wf. revert s. induction sched as [|u rest IH]; intros s R Hd Hp; simpl;
    [auto|].
  destruct (u <? nthreads cfg)%nat eqn:Hu; [|auto].
  apply Nat.ltb_lt in Hu.
  destruct (step cfg u s) as [s'|] eqn:Hs; [|auto].
  destruct (reachable_word cfg Wf s R) as [M W].
  apply IH.
  - eapply reach_step; eauto.
  - eapply done_absorbing; eauto.
  - eapply done_path_step; eauto.
Qed.

(** C4.  A call on a flag whose word is [done], whatever functor it passes
    and however earlier attempts ended: running alone it returns after the
    five steps of lines 143, 144, 145, 90 and 91, by falling out of the
    loop, and leaves the word, the trace, the runners and the other calls as
    they were.  In any schedule, from a reachable state, the word stays
    [done] and the call stays on that path: its functor never runs and no
    exception is raised. *)
Theorem done_flag_call_is_noop cfg s t :
  my_state s = done -> pc (thr s t) = L143 ->
  (mem s (addr cfg t) = None ->
   exists s', steps cfg t 5 s = Some s' /\
     pc (thr s' t) = Finished exit_loop /\
     my_state s' = done /\ trace s' = trace s /\
     (forall a, mem s' a = mem s a) /\
     (forall u, u <> t -> thr s' u = thr s u)) /\
  (wf_config cfg = true -> reachable cfg s ->
   forall sched,
     my_state (exec cfg sched s) = done /\
     on_done_path (thr (exec cfg sched s) t) = true /\
     throwing (pc (thr (exec cfg sched s) t)) = None /\
     occ (ev_call t) (trace (exec cfg sched s)) = 0%nat).
Proof.
  intros Hd Hpc. split.
  - intros Hfree. unfold steps, step. rewrite Hpc. simpl.
    rewrite upd_same. simpl. rewrite Hfree. simpl.
    rewrite upd_same. simpl. rewrite Hd. simpl.
    rewrite upd_same. simpl. rewrite updm_same. simpl.
    rewrite upd_same. simpl. rewrite updm_same. simpl.
    eexists. split; [reflexivity|]. simpl. rewrite upd_same. simpl.
    splits; try reflexivity.
    + exact Hd.
    + intros a. unfold updm. destruct (a =? addr cfg t) eqn:E; [|reflexivity].
      apply Z.eqb_eq in E. subst a. symmetry. exact Hfree.
    + intros u Hne. rewrite !upd_other by assumption. reflexivity.
  - intros Wf R sched.
    assert (Hp : on_done_path (thr s t) = true)
      by (unfold on_done_path; rewrite Hpc; reflexivity).
    destruct (done_stays cfg sched s t Wf R Hd Hp) as [Hd' Hp'].
    pose proof (reachable_exec cfg sched s R) as R'.
    pose proof (reachable_inv_mem cfg _ R') as M'.
    pose proof (im_hist _ _ M' t) as Hh. unfold hist_ok in Hh.
    assert (E : hist (pc (thr (exec cfg sched s) t)) = (0, 0, 0)%nat /\
                throwing (pc (thr (exec cfg sched s) t)) = None).
    { revert Hp'. unfold on_done_path.
      destruct (pc (thr (exec cfg sched s) t)); try destruct k; simpl;
        split; congruence. }
    destruct E as [E1 E2]. rewrite E1 in Hh.
    splits; try assumption. congruence.
Qed.

Lemma done_flag_call_is_noop_witness :
  (mem s_done3 (addr cfg3 2%nat) = None ->
   exists s', steps cfg3 2%nat 5 s_done3 = Some s' /\
     pc (thr s' 2%nat) = Finished exit_loop /\
     my_state s' = done /\ trace s' = trace s_done3 /\
     (forall a, mem s' a = mem s_done3 a) /\
     (forall u, u <> 2%nat -> thr s' u = thr s_done3 u)) /\
  (wf_config cfg3 = true -> reachable cfg3 s_done3 ->
   forall sched,
     my_state (exec cfg3 sched s_done3) = done /\
     on_done_path (thr (exec cfg3 sched s_done3) 2%nat) = true /\
     throwing (pc (thr (exec cfg3 sched s_done3) 2%nat)) = None /\
     occ (ev_call 2%nat) (trace (exec cfg3 sched s_done3)) = 0%nat).
Proof.
  apply (done_flag_call_is_noop cfg3 s_done3 2%nat); reflexivity.
Defined.

(** ** A failing functor *)



(** ** The destructor of the runner *)

Lemma holds_ref_past_init a l :
  holds_ref a l = true -> past_init (pc l) = true /\ runner l = a.
Proof.
  unfold holds_ref. destruct (pc l); try discriminate; intros H;
    apply Z.eqb_eq in H; auto.
Qed.

(** Past the spin of line 90 nobody holds a reference to the runner. *)
Lemma refs_zero_at_destroy cfg s t k :
  wf_config cfg = true -> Inv_mem cfg s -> Inv_core cfg s ->
  (t < nthreads cfg)%nat -> pc (thr s t) = L91 k ->
  refs cfg (addr cfg t) s = 0.
Proof.
  intros Wf M C Ht Hpc. apply cnt_all_false. intros h Hh.
  destruct (holds_ref (addr cfg t) (thr s h)) eqn:Hx; [exfalso|reflexivity].
  destruct (holds_ref_past_init _ _ Hx) as [Hp Hrun].
  destruct (holder_view cfg s h M C Hh Hp) as (w & rc & st & Hw & Er & Hal & _).
  assert (w = t).
  { apply (im_distinct _ _ M).
    - apply alive_init_live. exact Hal.
    - rewrite Hpc. reflexivity.
    - congruence. }
  subst w. rewrite Hpc in Hal. destruct k; discriminate Hal.
Qed.

(** C7.  A call ends only through the destructor of its runner: it reaches
    [Finished k] from line 91 and line 91 from line 90, on each of the three
    ways out.  At line 90 the call spins while the reference count is
    greater than 0; the count is that of the calls between [increase_ref]
    and [decrease_ref] on this runner and is never negative, so the call
    goes on exactly when it is 0.  At line 91 the bundle is destroyed
    exactly when [m_initialized] is set, which is the case exactly when the
    call did not fall out of the loop; a call that falls out of the loop
    never built a bundle and destroys none. *)
Theorem runner_destruction cfg s t k :
  reachable cfg s ->
  (forall s', step cfg t s = Some s' ->
     (pc (thr s' t) = Finished k -> pc (thr s t) = L91 k) /\
     (pc (thr s' t) = L91 k -> pc (thr s t) = L90 k)) /\
  (pc (thr s t) = L90 k ->
     exists r, mem s (addr cfg t) = Some r /\
       (m_initialized r = true <-> k <> exit_loop) /\
       step cfg t s =
         Some (if 0 <? ref_count r
               then s else with_thr t (goto (L91 k) (thr s t)) s) /\
       (wf_config cfg = true -> bounded cfg = true -> (t < nthreads cfg)%nat ->
        0 <= ref_count r /\ ref_count r = refs cfg (addr cfg t) s)) /\
  (pc (thr s t) = L91 k ->
     exists r, mem s (addr cfg t) = Some r /\
       (m_initialized r = true <-> k <> exit_loop) /\
       (k = exit_loop -> m_storage r = None /\
                         occ (ev_construct t) (trace s) = 0%nat) /\
       step cfg t s =
         Some (with_thr t (goto (Finished k) (thr s t))
                 (if m_initialized r
                  then emit (ev_teardown t) (with_mem (addr cfg t) None s)
                  else with_mem (addr cfg t) None s)) /\
       (wf_config cfg = true -> bounded cfg = true -> (t < nthreads cfg)%nat ->
        ref_count r = 0)) /\
  (pc (thr s t) = Finished k ->
     occ (ev_teardown t) (trace s) = occ (ev_construct t) (trace s) /\
     (k = exit_loop -> occ (ev_teardown t) (trace s) = 0%nat)).
Proof.
  intros R.
  pose proof (reachable_inv_mem cfg s R) as M.
  pose proof (im_hist _ _ M t) as Hh. unfold hist_ok in Hh.
  splits.
  - intros s' H. split; intros Hx.
    + step_cases M H; simpl in Hx; rewrite ?upd_same in Hx; simpl in Hx;
        try congruence.
      unfold try_call_on_exception, functor_failure in Hx.
      destruct (fails cfg t); discriminate Hx.
    + step_cases M H; simpl in Hx; rewrite ?upd_same in Hx; simpl in Hx;
        try congruence.
      unfold try_call_on_exception, functor_failure in Hx.
      destruct (fails cfg t); discriminate Hx.
  - intros Hpc.
    assert (L : live (pc (thr s t)) = true) by (rewrite Hpc; reflexivity).
    destruct (own_runner cfg s t M L) as (rc & ini & st & Hs & Hm).
    exists (mk_runner rc ini st). simpl. splits; try assumption.
    + rewrite Hpc in Hs. destruct k; simpl in Hs; injection Hs as <- <-;
        split; congruence.
    + unfold step. rewrite Hpc, Hm. unfold spin_wait_while. simpl.
      destruct (0 <? rc); reflexivity.
    + intros Wf B Ht. destruct (reachable_inv cfg Wf s B R) as [_ C].
      destruct (ic_ref _ _ C t Ht L) as (r & Hr & Hc).
      rewrite Hm in Hr. injection Hr as <-. simpl in Hc.
      pose proof (refs_bounds cfg (addr cfg t) s) as Hb. lia.
  - intros Hpc.
    assert (L : live (pc (thr s t)) = true) by (rewrite Hpc; reflexivity).
    destruct (own_runner cfg s t M L) as (rc & ini & st & Hs & Hm).
    exists (mk_runner rc ini st). simpl. splits; try assumption.
    + rewrite Hpc in Hs. destruct k; simpl in Hs; injection Hs as <- <-;
        split; congruence.
    + intros ->. rewrite Hpc in Hs, Hh. simpl in Hs, Hh.
      injection Hs as <- <-. injection Hh as <- _ _. auto.
    + unfold step. rewrite Hpc, Hm. simpl. destruct ini; reflexivity.
    + intros Wf B Ht. destruct (reachable_inv cfg Wf s B R) as [_ C].
      destruct (ic_ref _ _ C t Ht L) as (r & Hr & Hc).
      rewrite Hm in Hr. injection Hr as <-. simpl in Hc.
      rewrite (refs_zero_at_destroy cfg s t k Wf M C Ht Hpc) in Hc. exact Hc.
  - intros Hpc. rewrite Hpc in Hh. destruct k; simpl in Hh;
      injection Hh as <- _ <-; split; congruence.
Qed.

Lemma runner_destruction_witness :
  pc (thr s_assisting3 1%nat) = L90 exit_return /\
  exists r, mem s_assisting3 (addr cfg3 1%nat) = Some r /\
    m_initialized r = true /\
    step cfg3 1%nat s_assisting3 =
      Some (if 0 <? ref_count r
            then s_assisting3
            else with_thr 1%nat (goto (L91 exit_return) (thr s_assisting3 1%nat))
                   s_assisting3).
Proof.
  destruct (runner_destruction cfg3 s_assisting3 1%nat exit_return)
    as (_ & H90 & _); [apply reachable_exec; apply reach_init|].
  split; [reflexivity|].
  destruct (H90 eq_refl) as (r & Hm & Hi & Hs & _).
  exists r. splits; auto. apply Hi. discriminate.
Defined.

(** ** Assisting calls *)

(** The hand-off while the admission count stays in its bits (at most
    [max_nfs_size] calls, or no functor raises).  From its registration to
    line 177 a call is counted in the word: the word is the address of the
    winner's runner, which the call decoded, plus a count between 1 and
    [max_nfs_size - 1], and the winner has not left.  From line 177 to
    [decrease_ref] the runner's reference count is at least 1, the bundle
    is built and the owner has not got past line 90.  Line 177 is in both
    ranges.  The steps come in this order: line 174 goes on only when
    [m_initialized] is set, line 176 adds one to the reference count and
    leaves the word alone, line 177 takes one off the word and leaves the
    runner alone. *)

Lemma assist_handoff cfg s t :
  wf_config cfg = true -> bounded cfg = true -> reachable cfg s ->
  (t < nthreads cfg)%nat ->
  (pc (thr s t) = L174 \/ pc (thr s t) = L176 \/ pc (thr s t) = L177 ->
     exists w r, (w < nthreads cfg)%nat /\ runner (thr s t) = addr cfg w /\
       winner_pc (pc (thr s w)) = true /\ mem s (addr cfg w) = Some r /\
       my_state s = addr cfg w + regs cfg s /\
       1 <= regs cfg s <= max_nfs_size - 1) /\
  (pc (thr s t) = L177 \/ pc (thr s t) = L181 \/ pc (thr s t) = L183 ->
     exists w r st, (w < nthreads cfg)%nat /\ runner (thr s t) = addr cfg w /\
       alive_init (pc (thr s w)) = true /\ mem s (addr cfg w) = Some r /\
       m_initialized r = true /\ m_storage r = Some st /\
       1 <= ref_count r /\ ref_count r = refs cfg (addr cfg w) s) /\
  (pc (thr s t) = L174 ->
     exists r, mem s (runner (thr s t)) = Some r /\
       step cfg t s =
         Some (if m_initialized r then with_thr t (goto L176 (thr s t)) s else s)) /\
  (pc (thr s t) = L176 ->
     exists r, mem s (runner (thr s t)) = Some r /\ m_initialized r = true /\
       step cfg t s =
         Some (with_thr t (goto L177 (thr s t))
                 (with_mem (runner (thr s t))
                    (Some (set_ref (ref_count r + 1) r)) s))) /\
  (pc (thr s t) = L177 ->
     step cfg t s =
       Some (with_thr t (goto L181 (thr s t)) (with_word (my_state s - 1) s))).
Proof.
  intros Wf B R Ht.
  destruct (reachable_inv cfg Wf s B R) as [M C].
  assert (Hreg : pc (thr s t) = L174 \/ pc (thr s t) = L176 \/ pc (thr s t) = L177 ->
                 registered (thr s t) = true /\ pc (thr s t) <> L173).
  { unfold registered. intros [H|[H|H]]; rewrite H; split; auto; discriminate. }
  assert (Hpast : pc (thr s t) = L176 \/ pc (thr s t) = L177 \/
                  pc (thr s t) = L181 \/ pc (thr s t) = L183 ->
                  past_init (pc (thr s t)) = true).
  { intros [H|[H|[H|H]]]; rewrite H; reflexivity. }
  splits.
  - intros Hpc. destruct (Hreg Hpc) as [Hr Hn].
    destruct (registered_view cfg s t C Ht Hr)
      as (w & Hw & _ & Hwp & Hst & Hn1 & _ & Hrun).
    destruct (own_runner cfg s w M (winner_live _ Hwp)) as (rc & ini & st & _ & Hm).
    exists w. eexists. splits; eauto; try lia.
    change max_nfs_size with 128. lia.
  - intros Hpc.
    assert (Hp : past_init (pc (thr s t)) = true) by (apply Hpast; tauto).
    destruct (holder_view cfg s t M C Ht Hp) as (w & rc & st & Hw & Er & Hal & Hm & Hc).
    exists w, (mk_runner rc true (Some st)), st. simpl. splits; auto.
    subst rc. apply (cnt_pos _ _ t Ht). unfold holds_ref.
    destruct Hpc as [H|[H|H]]; rewrite H; apply Z.eqb_eq; exact Er.
  - intros Hpc. destruct (Hreg (or_introl Hpc)) as [Hr Hn].
    destruct (registered_runner cfg s t M C Ht Hr Hn)
      as (w & rc & ini & st & _ & _ & _ & Er & _ & Hm).
    rewrite Er. eexists. split; [exact Hm|].
    unfold step. rewrite Hpc, Er, Hm. unfold spin_wait_while_eq. simpl.
    destruct ini; reflexivity.
  - intros Hpc.
    assert (Hp : past_init (pc (thr s t)) = true) by (apply Hpast; tauto).
    destruct (holder_view cfg s t M C Ht Hp) as (w & rc & st & Hw & Er & Hal & Hm & Hc).
    rewrite Er. eexists. splits; [exact Hm | reflexivity |].
    unfold step. rewrite Hpc, Er, Hm. simpl.
    assert (rc <= Z.of_nat (nthreads cfg) - 1).
    { subst rc. apply (cnt_miss _ _ t Ht). unfold holds_ref. rewrite Hpc. reflexivity. }
    pose proof (refs_bounds cfg (addr cfg w) s). pose proof (wf_threads cfg Wf).
    rewrite swrap_small by lia. reflexivity.
  - intros Hpc. destruct (Hreg (or_intror (or_intror Hpc))) as [Hr Hn].
    destruct (registered_view cfg s t C Ht Hr)
      as (w & Hw & _ & Hwp & Hst & Hn1 & _ & Hrun).
    destruct (wf_addr_of cfg Wf w Hw) as (_ & Hlo & Hhi).
    unfold step. rewrite Hpc. rewrite wrap_small by lia. reflexivity.
Qed.

Example assist_handoff_cfg3 :
  pc (thr s_handoff3 2%nat) = L177 /\
  step cfg3 2%nat s_handoff3 =
    Some (with_thr 2%nat (goto L181 (thr s_handoff3 2%nat))
            (with_word (my_state s_handoff3 - 1) s_handoff3)).
Proof.
  destruct (assist_handoff cfg3 s_handoff3 2%nat)
    as (_ & _ & _ & _ & H177);
    [ reflexivity | reflexivity | apply reachable_exec; apply reach_init
    | simpl; lia | ].
  split; [reflexivity | apply H177; reflexivity].
Defined.

(** C8.  An exception is pending in a call, or was delivered to its
    caller, only if it is the failure of the call's own functor, which that
    call ran itself, once.  A call on the assisting path (lines 168 to 183)
    has not run its functor, has no exception pending, and none of its steps
    runs a functor or raises.  The step of [assist] waits on the completion
    counter with the stub context: it leaves the word and the runners alone,
    and on a runner with a bundle it spins while the counter is not zero and
    goes to line 183 when it is, whatever failure the bundle's own context
    has recorded. *)

Theorem assist_never_raises cfg s t :
  reachable cfg s ->
  (forall e, throwing (pc (thr s t)) = Some e ->
     e = t /\ fails cfg t = true /\ occ (ev_call t) (trace s) = 1%nat) /\
  (assist_pc (pc (thr s t)) = true ->
     throwing (pc (thr s t)) = None /\
     occ (ev_call t) (trace s) = 0%nat /\
     forall s', step cfg t s = Some s' ->
       trace s' = trace s /\ throwing (pc (thr s' t)) = None) /\
  (pc (thr s t) = L181 -> forall s', step cfg t s = Some s' ->
     my_state s' = my_state s /\ mem s' = mem s /\ trace s' = trace s /\
     forall r st, mem s (runner (thr s t)) = Some r -> m_storage r = Some st ->
       s' = if my_wait_context st =? 0
            then with_thr t (goto L183 (thr s t)) s else s).
Proof.
  intros R. pose proof (reachable_inv_mem cfg s R) as M.
  pose proof (im_raised _ _ M t) as Hr.
  pose proof (im_hist _ _ M t) as Hh. unfold hist_ok in Hh.
  splits.
  - intros e He. destruct (pc (thr s t)); try destruct k; simpl in *;
      try discriminate He; injection He as <-; injection Hh as _ <- _;
      destruct Hr; auto.
  - intros Ha. splits.
    + destruct (pc (thr s t)); simpl in *; congruence.
    + destruct (pc (thr s t)); simpl in *; try discriminate Ha;
        injection Hh as _ <- _; reflexivity.
    + intros s' H. step_cases M H; simpl; rewrite ?upd_same; simpl;
        rewrite ?Hpc in *; simpl in Ha; try discriminate Ha; auto.
  - intros Hpc s' H. splits.
    + step_cases M H; simpl; try congruence; reflexivity.
    + step_cases M H; simpl; try congruence; reflexivity.
    + step_cases M H; simpl; try congruence; reflexivity.
    + intros r st Hm Hst. unfold step in H. rewrite Hpc, Hm, Hst in H.
      unfold await_zero, stub_context in H.
      destruct (my_wait_context st =? 0); injection H as <-; reflexivity.
Qed.

Lemma assist_never_raises_witness :
  pc (thr s_assisting3 2%nat) = L181 /\
  throwing (pc (thr s_assisting3 2%nat)) = None /\
  occ (ev_call 2%nat) (trace s_assisting3) = 0%nat.
Proof.
  destruct (assist_never_raises cfg3 s_assisting3 2%nat)
    as (_ & Ha & _); [apply reachable_exec; apply reach_init|].
  destruct Ha as (Hn & Ho & _); [reflexivity|].
  split; [reflexivity|]. split; assumption.
Defined.

(** ** One winner *)

(** C2.  A call enters the winner's role only by the compare-and-swap of
    line 146 from [uninitialized] to the address of its runner, and at any
    time at most one call is in that role, for any number of calls and
    whatever the functors do.  When no functor raises (a functor that
    increments the shared counter), for any number of calls: the counter
    is at most 1, and once all the calls have returned it is exactly 1 and
    the flag is done. *)
Theorem single_winner cfg s :
  wf_config cfg = true -> reachable cfg s ->
  (forall t s', step cfg t s = Some s' ->
     winner_pc (pc (thr s t)) = false -> winner_pc (pc (thr s' t)) = true ->
     pc (thr s t) = L146 /\ expected (thr s t) = uninitialized /\
     my_state s = uninitialized /\ my_state s' = addr cfg t) /\
  (forall t1 t2, (t1 < nthreads cfg)%nat -> (t2 < nthreads cfg)%nat ->
     winner_pc (pc (thr s t1)) = true -> winner_pc (pc (thr s t2)) = true ->
     t1 = t2) /\
  (never_fails cfg = true ->
     (ncalls s <= 1)%nat /\
     ((0 < nthreads cfg)%nat ->
      (forall t, (t < nthreads cfg)%nat -> exists k, pc (thr s t) = Finished k) ->
      ncalls s = 1%nat /\ my_state s = done)).
Proof.
  intros Wf R.
  destruct (reachable_word cfg Wf s R) as [M W].
  splits.
  - intros t s' H Hnw Hw.
    step_cases M H; simpl in Hw; rewrite ?upd_same in Hw; simpl in Hw;
      rewrite ?Hpc in *; simpl in Hnw; try discriminate Hnw; try discriminate Hw.
    all: try (simpl; splits; congruence).
  - intros t1 t2 H1 H2 W1 W2.
    destruct (winner_word cfg Wf s t1 (iw_phase _ _ W) H1 W1) as (_ & _ & _ & Huniq).
    symmetry. apply Huniq; assumption.
  - intros NF. destruct (reachable_nf cfg Wf s NF R) as (_ & C & F).
    split.
    + destruct (ic_phase _ _ C) as [[[Hv|Hv] _]|(w & Hwn & Hwp & _)].
      * destruct (nf_idle _ _ F Hv) as [Hn _]. lia.
      * rewrite (nf_done _ _ F Hv). lia.
      * destruct (nf_active _ _ F w Hwn Hwp) as [Hn _]. rewrite Hn.
        destruct (ran_functor (pc (thr s w))); lia.
    + intros Hpos Hall. destruct (Hall 0%nat Hpos) as [k Hk].
      assert (Hd : my_state s = done).
      { destruct (iw_done _ _ W 0%nat Hpos) as [_ Hl]. apply Hl.
        rewrite Hk. destruct k; try reflexivity.
        pose proof (im_raised _ _ M 0%nat) as Hr. rewrite Hk in Hr.
        destruct Hr as [_ Hr]. rewrite (no_failure cfg NF 0%nat Hpos) in Hr.
        discriminate Hr. }
      split; [apply (nf_done _ _ F Hd) | exact Hd].
Qed.

Lemma single_winner_witness :
  (forall t, (t < nthreads cfg_ok3)%nat ->
     exists k, pc (thr s_all_returned3 t) = Finished k) /\
  ncalls s_all_returned3 = 1%nat /\ my_state s_all_returned3 = done.
Proof.
  assert (Hall : forall t, (t < nthreads cfg_ok3)%nat ->
            exists k, pc (thr s_all_returned3 t) = Finished k).
  { intros t Ht. simpl in Ht.
    destruct t as [|[|[|t]]]; [| | |lia]; eexists; vm_compute; reflexivity. }
  destruct (single_winner cfg_ok3 s_all_returned3) as (_ & _ & Hnf);
    [ reflexivity | apply reachable_exec; apply reach_init | ].
  destruct (Hnf eq_refl) as (_ & Hret).
  split; [exact Hall|]. apply Hret; [simpl; lia | exact Hall].
Defined.

(** ** The admission count with more than [max_nfs_size] calls *)

(** C5.  130 calls on one flag; the functor of call 0 raises.  Call 1
    computes its sentinel from the runner of call 0 and is then not
    scheduled; call 0 fails and resets the flag; call 2 wins; calls 3 to
    129 register.  The word is now the saturated value of the runner of
    call 2.  Call 1 reads it, finds it different from its own sentinel, and
    registers instead of waiting: 128 calls are registered, and the word is
    the address of the runner of call 3. *)

Theorem admission_count_overflows :
  wf_config cfg130 = true /\
  pc (thr s_saturated 1%nat) = L169 /\
  max_value (thr s_saturated 1%nat) = Z.lor (addr cfg130 0%nat) (max_nfs_size - 1) /\
  winner_pc (pc (thr s_saturated 2%nat)) = true /\
  my_state s_saturated = Z.lor (addr cfg130 2%nat) (max_nfs_size - 1) /\
  regs cfg130 s_saturated = max_nfs_size - 1 /\
  expected (thr s_overflow 1%nat) = Z.lor (addr cfg130 2%nat) (max_nfs_size - 1) /\
  registered (thr s_overflow 1%nat) = true /\
  regs cfg130 s_overflow = max_nfs_size /\
  my_state s_overflow = addr cfg130 2%nat + max_nfs_size /\
  maskoff_pointer (my_state s_overflow) = addr cfg130 3%nat.
Proof. vm_compute. repeat split. Qed.

(** C1.  The same execution, seen as a transition of the word: two steps of
    call 1 take it from [Active (addr 2, 127)] to a value whose count bits
    are 0 and whose address bits are not the winner's, with the winner
    still at work and 128 calls registered.  The word is neither sentinel,
    so this is none of the transitions to or from [Active (addr 2, 0)]. *)

Theorem state_word_leaves_active_shape :
  reachable cfg130 s_saturated /\
  my_state s_saturated = addr cfg130 2%nat + (max_nfs_size - 1) /\
  s_overflow = exec cfg130 [1%nat; 1%nat] s_saturated /\
  reachable cfg130 s_overflow /\
  winner_pc (pc (thr s_overflow 2%nat)) = true /\
  Z.land (my_state s_overflow) (max_nfs_size - 1) = 0 /\
  maskoff_pointer (my_state s_overflow) <> addr cfg130 2%nat /\
  my_state s_overflow <> uninitialized /\ my_state s_overflow <> done /\
  max_nfs_size - 1 < regs cfg130 s_overflow.
Proof.
  split; [apply reachable_exec; apply reach_init|].
  split; [vm_compute; reflexivity|].
  split; [reflexivity|].
  split; [apply reachable_exec; apply reachable_exec; apply reach_init|].
  vm_compute. repeat split; discriminate.
Qed.

(** With the runners far apart, the word after the carry is the address
    of no runner: call 130 registers on it, decodes an address inside the
    runner of call 2 and calls [wait_for_init] through it. *)

Lemma registered_call_decodes_no_runner :
  wf_config cfg_wide131 = true /\
  apart cfg_wide131 (2 ^ 18) = true /\
  reachable cfg_wide131 s_stray_registered /\
  winner_pc (pc (thr s_stray_registered 2%nat)) = true /\
  regs cfg_wide131 s_stray_registered = max_nfs_size + 1 /\
  registered (thr s_stray_registered 130%nat) = true /\
  pc (thr s_stray_registered 130%nat) = L174 /\
  runner (thr s_stray_registered 130%nat) = addr cfg_wide131 2%nat + max_nfs_size /\
  mem s_stray_registered (runner (thr s_stray_registered 130%nat)) = None /\
  pc (thr s_stray 130%nat) = Crashed L174.
Proof.
  split; [reflexivity|].
  split; [vm_compute; reflexivity|].
  split; [apply reachable_exec; apply reach_init|].
  vm_compute. repeat split.
Qed.

(** C6.  515 calls on one flag, no two runners less than [4 * max_nfs_size]
    bytes apart; the functor of call 0 raises and call 0 stands in its
    destructor at line 90.  Call 1 is the winner and the word has been
    pushed to the address of its runner plus [4 * max_nfs_size], which is
    the address of the runner of call 0.  Call 514 registered on that word:
    it is counted in the admission count, it decoded the runner of call 0,
    found [m_initialized] set and stands at line 176.  That runner is
    protected by neither counter: its owner is past the compare-and-swap
    that looks at the word, and its reference count is 0.  Call 0 destroys
    it, and the [increase_ref] of call 514 reaches a runner that is no
    more. *)


(** * Further properties of the code *)

(** ** The word as an address and a count *)

Lemma land_low w : 0 <= w -> Z.land w (max_nfs_size - 1) = w mod 128.
Proof.
  intros Hw. change (max_nfs_size - 1) with (Z.ones 7).
  rewrite Z.land_ones by lia. reflexivity.
Qed.

Lemma maskoff_low_split w :
  0 <= w < 2 ^ 64 ->
  w = maskoff_pointer w + w mod 128 /\ maskoff_pointer w mod 128 = 0 /\
  0 <= maskoff_pointer w < 2 ^ 64.
Proof.
  intros Hw. rewrite maskoff_spec by assumption.
  pose proof (Z.mod_pos_bound w 128 ltac:(lia)) as Hm.
  pose proof (Z.div_mod w 128 ltac:(lia)) as Hd.
  assert (Hq : 0 <= w / 128) by (apply Z.div_pos; lia).
  split; [lia|]. split; [|lia].
  replace (w - w mod 128) with (w / 128 * 128) by lia.
  apply Z.mod_mul. lia.
Qed.

Lemma lor_low_value e :
  0 <= e < 2 ^ 64 ->
  Z.lor e (max_nfs_size - 1) = maskoff_pointer e + (max_nfs_size - 1) /\
  e <= Z.lor e (max_nfs_size - 1) < 2 ^ 64.
Proof.
  intros He. destruct (maskoff_low_split e He) as (Hs & Hal & Ha).
  pose proof (Z.mod_pos_bound e 128 ltac:(lia)) as Hm.
  set (a := maskoff_pointer e) in *.
  assert (Hhi : a + 128 <= 2 ^ 64).
  { pose proof (Z.div_mod a 128 ltac:(lia)) as Hd. rewrite Hal in Hd.
    assert (a / 128 < 2 ^ 57) by (apply Z.div_lt_upper_bound; lia).
    change (2 ^ 64) with (128 * 2 ^ 57). lia. }
  assert (E : Z.lor e (max_nfs_size - 1) = a + 127).
  { rewrite Hs at 1. apply lor_sentinel; lia. }
  rewrite E. change (max_nfs_size - 1) with 127. split; [reflexivity | lia].
Qed.

(** Every 64-bit word is the sum of what [maskoff_pointer] keeps and of its
    low [bit_count] bits, which are a number between 0 and
    [max_nfs_size - 1].  What [maskoff_pointer] keeps is aligned, is not
    above the word, is left as it is by a second [maskoff_pointer], and is
    null exactly when the word is below [max_nfs_size]. *)
Theorem maskoff_pointer_splits (w : Z) :
  0 <= w < 2 ^ 64 ->
  w = maskoff_pointer w + Z.land w (max_nfs_size - 1) /\
  0 <= Z.land w (max_nfs_size - 1) <= max_nfs_size - 1 /\
  0 <= maskoff_pointer w <= w /\
  Z.land (maskoff_pointer w) (max_nfs_size - 1) = 0 /\
  maskoff_pointer (maskoff_pointer w) = maskoff_pointer w /\
  (maskoff_pointer w = 0 <-> w < max_nfs_size).
Proof.
  intros Hw. rewrite maskoff_spec by assumption.
  rewrite land_low by lia.
  pose proof (Z.mod_pos_bound w 128 ltac:(lia)) as Hm.
  pose proof (Z.div_mod w 128 ltac:(lia)) as Hd.
  assert (Hq : 0 <= w / 128) by (apply Z.div_pos; lia).
  assert (Ha : (w - w mod 128) mod 128 = 0).
  { replace (w - w mod 128) with (w / 128 * 128) by lia.
    apply Z.mod_mul. lia. }
  change max_nfs_size with 128.
  assert (Hsmall : w < 128 -> w mod 128 = w) by (intros; apply Z.mod_small; lia).
  split; [lia|]. split; [lia|]. split; [lia|].
  split; [rewrite land_low by lia; exact Ha|].
  split; [rewrite maskoff_spec by lia; rewrite Ha; lia|].
  split; intros; lia.
Qed.

Lemma maskoff_pointer_splits_witness :
  511 = maskoff_pointer 511 + Z.land 511 (max_nfs_size - 1) /\
  maskoff_pointer 511 = 384.
Proof.
  destruct (maskoff_pointer_splits 511) as (H & _); [lia|].
  split; [exact H | reflexivity].
Defined.

(** Line 168.  For every 64-bit [expected] the sentinel
    [expected | (max_nfs_size - 1)] is the runner that [expected] decodes
    to plus [max_nfs_size - 1]; it decodes to the same runner, is not below
    [expected], stays in 64 bits, and equals [expected] exactly when the
    low bits of [expected] are all set. *)
Theorem sentinel_of_expected (e : Z) :
  0 <= e < 2 ^ 64 ->
  Z.lor e (max_nfs_size - 1) = maskoff_pointer e + (max_nfs_size - 1) /\
  maskoff_pointer (Z.lor e (max_nfs_size - 1)) = maskoff_pointer e /\
  e <= Z.lor e (max_nfs_size - 1) < 2 ^ 64 /\
  (Z.lor e (max_nfs_size - 1) = e <->
   Z.land e (max_nfs_size - 1) = max_nfs_size - 1).
Proof.
  intros He.
  destruct (lor_low_value e He) as (E & Hle).
  destruct (maskoff_low_split e He) as (Hs & Hal & Ha).
  pose proof (Z.mod_pos_bound e 128 ltac:(lia)) as Hm.
  rewrite land_low by lia. rewrite E.
  change (max_nfs_size - 1) with 127 in *.
  split; [reflexivity|].
  split; [apply maskoff_base; lia|].
  split; [lia|]. split; intros; lia.
Qed.

Lemma sentinel_of_expected_witness :
  Z.lor 390 (max_nfs_size - 1) = maskoff_pointer 390 + (max_nfs_size - 1) /\
  Z.lor 390 (max_nfs_size - 1) = 511.
Proof.
  destruct (sentinel_of_expected 390) as (H & _); [lia|].
  split; [exact H | reflexivity].
Defined.

(** ** A call that runs alone *)

Ltac run_steps :=
  repeat first
    [ rewrite upd_same | rewrite updm_same | rewrite Z.eqb_refl
    | rewrite wrap_0p1 | rewrite wrap_1m1
    | progress simpl
    | progress unfold functor_failure, task_finished, reserve, await_zero,
        try_call_on_exception, spin_wait_while, spin_wait_while_eq, stub_context ].

Lemma steps_add cfg t n m s :
  steps cfg t (n + m) s =
  match steps cfg t n s with
  | Some s' => steps cfg t m s'
  | None => None
  end.
Proof.
  revert s. induction n as [|n IH]; intros s; simpl; [reflexivity|].
  destruct (step cfg t s); [apply IH | reflexivity].
Qed.

Section Solo.
Variable cfg : config.

(** Lines 143 to 146 on an idle flag: the call becomes the winner. *)
Lemma solo_win s t :
  pc (thr s t) = L143 -> my_state s = uninitialized ->
  mem s (addr cfg t) = None ->
  exists s', steps cfg t 4 s = Some s' /\
    pc (thr s' t) = L97 /\ my_state s' = addr cfg t /\
    mem s' (addr cfg t) = Some (mk_runner 0 false None) /\
    trace s' = trace s /\
    (forall a, a <> addr cfg t -> mem s' a = mem s a) /\
    (forall u, u <> t -> thr s' u = thr s u).
Proof.
  intros Hpc Hw Hfree.
  unfold steps, step. rewrite Hpc. simpl. rewrite upd_same. simpl.
  rewrite Hfree. simpl. rewrite upd_same. simpl. rewrite Hw. simpl.
  rewrite upd_same. simpl. rewrite Hw. simpl.
  eexists. split; [reflexivity|]. simpl. rewrite upd_same, updm_same. simpl.
  splits; try reflexivity.
  - intros a Ha. apply updm_other. exact Ha.
  - intros u Hne. rewrite !upd_other by assumption. reflexivity.
Qed.

(** Lines 148 to 153: the winner builds the bundle and runs its functor. *)
Lemma solo_run s t :
  pc (thr s t) = L97 ->
  mem s (addr cfg t) = Some (mk_runner 0 false None) ->
  exists s', steps cfg t 5 s = Some s' /\
    pc (thr s' t) = (if fails cfg t then L155 t else L160) /\
    local_expected (thr s' t) = addr cfg t /\
    my_state s' = my_state s /\
    mem s' (addr cfg t) =
      Some (mk_runner 0 true (Some (mk_storage 0 (functor_failure cfg t)))) /\
    trace s' = trace s ++ [ev_construct t; ev_call t] /\
    (forall a, a <> addr cfg t -> mem s' a = mem s a) /\
    (forall u, u <> t -> thr s' u = thr s u).
Proof.
  intros Hpc Hm.
  unfold steps, step. rewrite Hpc. simpl. rewrite Hm. simpl.
  run_steps.
  destruct (fails cfg t) eqn:F; simpl.
  - eexists. split; [reflexivity|]. run_steps. rewrite <- app_assoc. simpl.
    splits; try reflexivity.
    + intros a Ha. rewrite !updm_other by assumption. reflexivity.
    + intros u Hne. rewrite !upd_other by assumption. reflexivity.
  - eexists. split; [reflexivity|]. run_steps. rewrite <- app_assoc. simpl.
    splits; try reflexivity.
    + intros a Ha. rewrite !updm_other by assumption. reflexivity.
    + intros u Hne. rewrite !upd_other by assumption. reflexivity.
Qed.

(** Lines 155 or 160, then the destructor, with the admission count at 0
    and no reference left. *)
Lemma solo_leave s t r :
  pc (thr s t) = (if fails cfg t then L155 t else L160) ->
  local_expected (thr s t) = my_state s ->
  mem s (addr cfg t) = Some r -> ref_count r <= 0 -> m_initialized r = true ->
  exists s', steps cfg t 3 s = Some s' /\
    pc (thr s' t) = Finished (if fails cfg t then exit_throw t else exit_return) /\
    my_state s' = (if fails cfg t then uninitialized else done) /\
    mem s' (addr cfg t) = None /\
    trace s' = trace s ++ [ev_teardown t] /\
    (forall a, a <> addr cfg t -> mem s' a = mem s a) /\
    (forall u, u <> t -> thr s' u = thr s u).
Proof.
  intros Hpc Hl Hm Hrc Hi.
  assert (Hz : (0 <? ref_count r) = false) by (apply Z.ltb_ge; exact Hrc).
  unfold steps, step. rewrite Hpc.
  destruct (fails cfg t) eqn:F; simpl.
  - rewrite Hl, Z.eqb_refl. run_steps. rewrite Hm. run_steps. rewrite Hz.
    run_steps. rewrite Hm, Hi.
    eexists. split; [reflexivity|]. run_steps.
    splits; try reflexivity.
    + intros a Ha. rewrite !updm_other by assumption. reflexivity.
    + intros u Hne. rewrite !upd_other by assumption. reflexivity.
  - rewrite Hl, Z.eqb_refl. run_steps. rewrite Hm. run_steps. rewrite Hz.
    run_steps. rewrite Hm, Hi.
    eexists. split; [reflexivity|]. run_steps.
    splits; try reflexivity.
    + intros a Ha. rewrite !updm_other by assumption. reflexivity.
    + intros u Hne. rewrite !upd_other by assumption. reflexivity.
Qed.

(** A call that finds the flag idle and is not interfered with returns
    after twelve steps.  Its functor ran once, between the construction and
    the destruction of its bundle.  When the functor raised the call leaves
    by that exception and the flag is idle again; otherwise it returns and
    the flag is done.  The memory and the other calls are as before. *)
Lemma solo_call s t :
  pc (thr s t) = L143 -> my_state s = uninitialized ->
  mem s (addr cfg t) = None ->
  exists s', steps cfg t 12 s = Some s' /\
    pc (thr s' t) = Finished (if fails cfg t then exit_throw t else exit_return) /\
    my_state s' = (if fails cfg t then uninitialized else done) /\
    trace s' = trace s ++ [ev_construct t; ev_call t; ev_teardown t] /\
    (forall a, mem s' a = mem s a) /\
    (forall u, u <> t -> thr s' u = thr s u).
Proof.
  intros Hpc Hw Hfree.
  destruct (solo_win s t Hpc Hw Hfree)
    as (s1 & E1 & Hpc1 & Hw1 & Hm1 & Ht1 & Hmo1 & Ho1).
  destruct (solo_run s1 t Hpc1 Hm1)
    as (s2 & E2 & Hpc2 & Hl2 & Hw2 & Hm2 & Ht2 & Hmo2 & Ho2).
  destruct (solo_leave s2 t _ Hpc2 ltac:(congruence) Hm2 ltac:(simpl; lia) eq_refl)
    as (s3 & E3 & Hpc3 & Hw3 & Hm3 & Ht3 & Hmo3 & Ho3).
  exists s3. split.
  - change 12%nat with (4 + (5 + 3))%nat.
    rewrite steps_add, E1, steps_add, E2. exact E3.
  - splits; try assumption.
    + rewrite Ht3, Ht2, Ht1, <- app_assoc. reflexivity.
    + intros a. destruct (Z.eq_dec a (addr cfg t)) as [->|Ha].
      * congruence.
      * rewrite Hmo3, Hmo2, Hmo1 by assumption. reflexivity.
    + intros u Hne. rewrite Ho3, Ho2, Ho1 by assumption. reflexivity.
Qed.

End Solo.

(** ** Calls one after the other *)


Lemma sequential_cons t ts : sequential (t :: ts) = repeat t 12 ++ sequential ts.
Proof. reflexivity. Qed.

Section Sequential.
Variable cfg : config.

Lemma exec_app sa sb s : exec cfg (sa ++ sb) s = exec cfg sb (exec cfg sa s).
Proof.
  revert s. induction sa as [|t sa IH]; intros s; simpl; [reflexivity|].
  destruct (t <? nthreads cfg)%nat; [|apply IH].
  destruct (step cfg t s); apply IH.
Qed.

Lemma exec_steps t n s s' :
  (t < nthreads cfg)%nat -> steps cfg t n s = Some s' ->
  exec cfg (repeat t n) s = s'.
Proof.
  intros Ht. apply Nat.ltb_lt in Ht.
  revert s. induction n as [|n IH]; intros s H; simpl in *.
  - congruence.
  - rewrite Ht. destruct (step cfg t s); [apply IH; exact H | discriminate].
Qed.

Lemma exec_finished t n s k :
  pc (thr s t) = Finished k -> exec cfg (repeat t n) s = s.
Proof.
  intros Hpc. induction n as [|n IH]; simpl; [reflexivity|].
  destruct (t <? nthreads cfg)%nat; [|exact IH].
  unfold step. rewrite Hpc. exact IH.
Qed.

(** A call that finds the flag done and is not interfered with. *)
Lemma solo_skip s t :
  pc (thr s t) = L143 -> my_state s = done -> mem s (addr cfg t) = None ->
  exists s', steps cfg t 5 s = Some s' /\
    pc (thr s' t) = Finished exit_loop /\ my_state s' = done /\
    trace s' = trace s /\ (forall a, mem s' a = mem s a) /\
    (forall u, u <> t -> thr s' u = thr s u).
Proof.
  intros Hpc Hd Hfree. unfold steps, step. rewrite Hpc. simpl.
  rewrite upd_same. simpl. rewrite Hfree. simpl.
  rewrite upd_same. simpl. rewrite Hd. simpl.
  rewrite upd_same. simpl. rewrite updm_same. simpl.
  rewrite upd_same. simpl. rewrite updm_same. simpl.
  eexists. split; [reflexivity|]. simpl. rewrite upd_same. simpl.
  splits; try reflexivity.
  - exact Hd.
  - intros a. unfold updm. destruct (a =? addr cfg t) eqn:E; [|reflexivity].
    apply Z.eqb_eq in E. subst a. symmetry. exact Hfree.
  - intros u Hne. rewrite !upd_other by assumption. reflexivity.
Qed.


Lemma fresh_calls_tail t ts s s' :
  NoDup (t :: ts) -> fresh_calls cfg (t :: ts) s ->
  (forall a, mem s' a = mem s a) ->
  (forall u, u <> t -> thr s' u = thr s u) ->
  fresh_calls cfg ts s'.
Proof.
  intros Hnd Hf Hm Ho u Hu.
  assert (Hne : u <> t) by (inversion Hnd; subst; intros ->; contradiction).
  destruct (Hf u (or_intror Hu)) as (H1 & H2 & H3).
  rewrite Ho, Hm by assumption. auto.
Qed.

Lemma sequential_done ts : forall s,
  NoDup ts -> fresh_calls cfg ts s -> my_state s = done ->
  trace (exec cfg (sequential ts) s) = trace s /\
  my_state (exec cfg (sequential ts) s) = done /\
  (forall a, mem (exec cfg (sequential ts) s) a = mem s a) /\
  (forall t, In t ts -> pc (thr (exec cfg (sequential ts) s) t) = Finished exit_loop) /\
  (forall u, ~ In u ts -> thr (exec cfg (sequential ts) s) u = thr s u).
Proof.
  induction ts as [|t ts IH]; intros s Hnd Hf Hd.
  - unfold sequential. simpl flat_map. simpl exec. splits; auto. intros t [].
  - destruct (Hf t (or_introl eq_refl)) as (Ht & Hpc & Hfree).
    destruct (solo_skip s t Hpc Hd Hfree) as (s1 & E & Hpc1 & Hd1 & Ht1 & Hm1 & Ho1).
    assert (E1 : exec cfg (repeat t 12) s = s1).
    { change 12%nat with (5 + 7)%nat. rewrite repeat_app, exec_app.
      rewrite (exec_steps t 5 s s1 Ht E). eapply exec_finished; eauto. }
    rewrite sequential_cons, exec_app, E1.
    assert (Hnd' : NoDup ts) by (inversion Hnd; assumption).
    assert (Hnin : ~ In t ts) by (inversion Hnd; assumption).
    destruct (IH s1 Hnd' (fresh_calls_tail t ts s s1 Hnd Hf Hm1 Ho1) Hd1)
      as (Gt & Gd & Gm & Gp & Go).
    splits.
    + congruence.
    + exact Gd.
    + intros a. rewrite Gm. apply Hm1.
    + intros u [<-|Hu]; [|auto]. rewrite Go by assumption. exact Hpc1.
    + intros u Hu. rewrite Go by (intros Hx; apply Hu; right; exact Hx).
      apply Ho1. intros ->. apply Hu. left. reflexivity.
Qed.

(** Calls on an idle flag, one after the other, each run to its end: the
    functors run in order up to and including the first one that does not
    raise, each between the construction and the destruction of its own
    bundle; the calls after that one run nothing.  The flag is done when
    some functor did not raise and idle otherwise; every call has ended and
    the memory is as before. *)
Theorem sequential_calls ts : forall s,
  NoDup ts -> fresh_calls cfg ts s -> my_state s = uninitialized ->
  trace (exec cfg (sequential ts) s) = trace s ++ sequential_trace cfg ts /\
  my_state (exec cfg (sequential ts) s) =
    (if forallb (fails cfg) ts then uninitialized else done) /\
  (forall a, mem (exec cfg (sequential ts) s) a = mem s a) /\
  (forall t, In t ts ->
     exists k, pc (thr (exec cfg (sequential ts) s) t) = Finished k /\
       (k = exit_return -> fails cfg t = false) /\
       (forall e, k = exit_throw e -> e = t /\ fails cfg t = true)) /\
  (forall u, ~ In u ts -> thr (exec cfg (sequential ts) s) u = thr s u).
Proof.
  induction ts as [|t ts IH]; intros s Hnd Hf Hw.
  - unfold sequential. simpl flat_map. simpl exec. simpl sequential_trace.
    simpl forallb. rewrite app_nil_r. splits; auto. intros t [].
  - destruct (Hf t (or_introl eq_refl)) as (Ht & Hpc & Hfree).
    destruct (solo_call cfg s t Hpc Hw Hfree) as (s1 & E & Hpc1 & Hw1 & Ht1 & Hm1 & Ho1).
    pose proof (exec_steps t 12 s s1 Ht E) as E1.
    rewrite sequential_cons, exec_app, E1.
    assert (Hnd' : NoDup ts) by (inversion Hnd; assumption).
    assert (Hnin : ~ In t ts) by (inversion Hnd; assumption).
    pose proof (fresh_calls_tail t ts s s1 Hnd Hf Hm1 Ho1) as Hf1.
    simpl sequential_trace. simpl forallb.
    destruct (fails cfg t) eqn:F; simpl andb.
    + destruct (IH s1 Hnd' Hf1 Hw1) as (Gt & Gw & Gm & Gp & Go).
      splits.
      * rewrite Gt, Ht1, <- app_assoc. reflexivity.
      * exact Gw.
      * intros a. rewrite Gm. apply Hm1.
      * intros u [<-|Hu]; [|auto]. rewrite Go by assumption.
        exists (exit_throw t). split; [exact Hpc1|].
        split; [discriminate|]. intros e He. injection He as <-. auto.
      * intros u Hu. rewrite Go by (intros Hx; apply Hu; right; exact Hx).
        apply Ho1. intros ->. apply Hu. left. reflexivity.
    + destruct (sequential_done ts s1 Hnd' Hf1 Hw1) as (Gt & Gw & Gm & Gp & Go).
      splits.
      * rewrite Gt, Ht1. reflexivity.
      * exact Gw.
      * intros a. rewrite Gm. apply Hm1.
      * intros u [<-|Hu].
        -- rewrite Go by assumption.
           exists exit_return. split; [exact Hpc1|].
           split; [auto | discriminate].
        -- exists exit_loop. split; [auto|]. split; discriminate.
      * intros u Hu. rewrite Go by (intros Hx; apply Hu; right; exact Hx).
        apply Ho1. intros ->. apply Hu. left. reflexivity.
Qed.

End Sequential.

(** ** The events of a call *)


Section Events.
Variable cfg : config.

(** In every reachable state, for every call: it has built at most one
    bundle, has run its functor at most once and only with the bundle
    built, and has destroyed the bundle at most once and only after the
    functor ran.  The bundle is destroyed exactly when the call has ended
    otherwise than by falling out of the loop, and never while the call is
    the winner. *)
Theorem functor_runs_at_most_once s t :
  reachable cfg s ->
  (occ (ev_construct t) (trace s) <= 1)%nat /\
  (occ (ev_call t) (trace s) <= occ (ev_construct t) (trace s))%nat /\
  (occ (ev_teardown t) (trace s) <= occ (ev_call t) (trace s))%nat /\
  (occ (ev_teardown t) (trace s) = 1%nat <->
   exists k, pc (thr s t) = Finished k /\ k <> exit_loop) /\
  (winner_pc (pc (thr s t)) = true -> occ (ev_teardown t) (trace s) = 0%nat).
Proof.
  intros R. pose proof (reachable_inv_mem cfg s R) as M.
  pose proof (im_hist _ _ M t) as Hh. unfold hist_ok in Hh.
  destruct (pc (thr s t))
    as [ | | | | | | | | | ? | ? | | | | | | | | | | | | k | k | k | ? ];
    try destruct k; simpl in Hh; injection Hh as <- <- <-;
    splits; simpl; try lia; auto; try discriminate;
    try (intros (k & Hk & Hne); congruence);
    try (intros _; eexists; split; [reflexivity|discriminate]).
  all: split;
    [ intros Hx; first [discriminate Hx | eexists; split; [reflexivity | discriminate]]
    | intros (k' & Hk & Hne);
      first [reflexivity | discriminate Hk | injection Hk as <-; contradiction] ].
Qed.

End Events.

(** ** The flag is done through one return *)

Section Returned.
Variable cfg : config.
Hypothesis Wf : wf_config cfg = true.

Lemma returned_left p : returned p = true -> left_normally p = true.
Proof. destruct p; try destruct k; simpl; congruence. Qed.

Lemma returned_frame s s' t l' :
  Inv_returned cfg s -> (t < nthreads cfg)%nat ->
  thr s' = upd (thr s) t l' ->
  returned (pc l') = returned (pc (thr s t)) ->
  (my_state s' = done -> my_state s = done) ->
  Inv_returned cfg s'.
Proof.
  intros [Hex Huniq] Ht Et Hr Hd.
  assert (E : forall u, returned (pc (thr s' u)) = returned (pc (thr s u))).
  { intros u. rewrite Et. destruct (Nat.eq_dec u t) as [->|Hne].
    - rewrite upd_same. exact Hr.
    - rewrite upd_other by assumption. reflexivity. }
  split.
  - intros Hx. destruct (Hex (Hd Hx)) as (w & Hw & Hrw).
    exists w. rewrite E. auto.
  - intros w1 w2 H1 H2. rewrite !E. auto.
Qed.

Lemma returned_step s s' t :
  Inv_mem cfg s -> Inv_word cfg s -> Inv_returned cfg s ->
  (t < nthreads cfg)%nat -> step cfg t s = Some s' -> Inv_returned cfg s'.
Proof.
  intros M W Rt Ht H.
  pose proof (iw_phase _ _ W) as P.
  pose proof (word_range cfg Wf s P) as Hrange.
  pose proof (iw_expected _ _ W t) as He.
  pose proof (im_lexp _ _ M t) as Hl.
  pose proof (wf_addr_of cfg Wf t Ht) as (_ & Ha & _).
  step_cases M H; try assumption.
  all: try (eapply returned_frame with (s := s) (t := t);
            [ exact Rt | exact Ht | reflexivity
            | simpl; rewrite ?Hpc; simpl;
              unfold try_call_on_exception, functor_failure;
              try match goal with |- context [fails _ ?x] => destruct (fails cfg x) end;
              reflexivity
            | simpl; unfold done, uninitialized in *; solve [ auto | lia ] ]).
  - (* line 160: the winner sets the flag to done *)
    specialize (Hl eq_refl).
    assert (Hnone : forall u, (u < nthreads cfg)%nat -> returned (pc (thr s u)) = false).
    { intros u Hu. destruct (returned (pc (thr s u))) eqn:Hr; [exfalso|reflexivity].
      destruct (iw_done _ _ W u Hu) as [_ Hd].
      specialize (Hd (returned_left _ Hr)). unfold done in Hd. lia. }
    split; simpl.
    + intros _. exists t. rewrite upd_same. auto.
    + intros w1 w2 H1 H2.
      destruct (Nat.eq_dec w1 t) as [->|N1]; destruct (Nat.eq_dec w2 t) as [->|N2];
        rewrite ?upd_same, ?upd_other by assumption; auto.
      * intros _ Hx. rewrite Hnone in Hx by assumption. discriminate.
      * intros Hx. rewrite Hnone in Hx by assumption. discriminate.
      * intros Hx. rewrite Hnone in Hx by assumption. discriminate.
  - (* line 171: the call registers *)
    eapply returned_frame with (s := s) (t := t);
      [ exact Rt | exact Ht | reflexivity | simpl; rewrite Hpc; reflexivity | ].
    simpl. intros Hx. exfalso.
    destruct (Z.eq_dec (expected (thr s t) + 1) (2 ^ 64)) as [E'|E'].
    + rewrite E' in Hx. discriminate Hx.
    + rewrite wrap_small in Hx by lia. unfold done in *. lia.
  - (* line 177 *)
    eapply returned_frame with (s := s) (t := t);
      [ exact Rt | exact Ht | reflexivity | simpl; rewrite Hpc; reflexivity | ].
    simpl. intros Hx. exfalso.
    assert (Hr : registered (thr s t) = true)
      by (unfold registered; rewrite Hpc; reflexivity).
    destruct (registered_word cfg Wf s t P Ht Hr) as (w & _ & _ & _ & _ & _ & Hb).
    rewrite wrap_small in Hx by lia. unfold done in Hx. lia.
Qed.

Lemma returned_init : Inv_returned cfg init.
Proof.
  split; simpl.
  - intros Hx. discriminate Hx.
  - intros w1 w2 _ _ Hx. discriminate Hx.
Qed.

Lemma reachable_returned s : reachable cfg s -> Inv_returned cfg s.
Proof.
  induction 1 as [|s t s' R IH Ht H]; [apply returned_init|].
  destruct (reachable_word cfg Wf s R) as [M W].
  eapply returned_step; eauto.
Qed.

(** What the program point of a call whose functor ran without raising
    can be. *)
Lemma completed_cases s t :
  Inv_mem cfg s -> fails cfg t = false ->
  occ (ev_call t) (trace s) = 1%nat ->
  winner_pc (pc (thr s t)) = true \/ returned (pc (thr s t)) = true.
Proof.
  intros M F Ho.
  pose proof (im_hist _ _ M t) as Hh. unfold hist_ok in Hh.
  pose proof (im_raised _ _ M t) as Hr.
  destruct (pc (thr s t)); try destruct k; simpl in *;
    try (left; reflexivity); try (right; reflexivity);
    try (injection Hh as _ Hc _; congruence);
    try (destruct Hr; congruence).
Qed.

(** In every reachable state, for any number of calls and whatever the
    functors do: the flag is done exactly when some call has left by the
    winner's [return]; that call's functor did not raise and ran once; and
    at most one call has run a functor that did not raise. *)
Theorem done_by_one_return s :
  reachable cfg s ->
  (my_state s = done <->
   exists w, (w < nthreads cfg)%nat /\ returned (pc (thr s w)) = true) /\
  (forall w, (w < nthreads cfg)%nat -> returned (pc (thr s w)) = true ->
     fails cfg w = false /\ occ (ev_call w) (trace s) = 1%nat) /\
  (forall w1 w2, (w1 < nthreads cfg)%nat -> (w2 < nthreads cfg)%nat ->
     fails cfg w1 = false -> occ (ev_call w1) (trace s) = 1%nat ->
     fails cfg w2 = false -> occ (ev_call w2) (trace s) = 1%nat ->
     w1 = w2).
Proof.
  intros R.
  destruct (reachable_word cfg Wf s R) as [M W].
  destruct (reachable_returned s R) as [Hex Huniq].
  pose proof (iw_phase _ _ W) as P.
  splits.
  - split; [exact Hex|].
    intros (w & Hw & Hr). destruct (iw_done _ _ W w Hw) as [_ Hd].
    apply Hd. apply returned_left. exact Hr.
  - intros w Hw Hr.
    pose proof (im_hist _ _ M w) as Hh. unfold hist_ok in Hh.
    pose proof (im_raised _ _ M w) as Hra.
    destruct (pc (thr s w)); try destruct k; simpl in *; try discriminate Hr;
      injection Hh as _ <- _; auto.
  - intros w1 w2 H1 H2 F1 O1 F2 O2.
    assert (Hmix : forall a b, (a < nthreads cfg)%nat -> (b < nthreads cfg)%nat ->
              winner_pc (pc (thr s a)) = true -> returned (pc (thr s b)) = true -> False).
    { intros a b Ha Hb Hwa Hrb.
      destruct (iw_done _ _ W b Hb) as [_ Hd].
      specialize (Hd (returned_left _ Hrb)).
      destruct (sentinel_idle cfg Wf s a P Ha (or_intror Hd)) as [Hx _]. congruence. }
    destruct (completed_cases s w1 M F1 O1) as [C1|C1];
      destruct (completed_cases s w2 M F2 O2) as [C2|C2].
    + destruct (winner_word cfg Wf s w1 P H1 C1) as (_ & _ & _ & Hu).
      symmetry. apply Hu; assumption.
    + exfalso. eapply Hmix with (a := w1) (b := w2); eauto.
    + exfalso. eapply Hmix with (a := w2) (b := w1); eauto.
    + apply Huniq; assumption.
Qed.

End Returned.

(** ** The values of the word *)

Section WordValues.
Variable cfg : config.
Hypothesis Wf : wf_config cfg = true.

(** In every reachable state, for any number of calls: either the word is
    a sentinel, no call is registered and no call is the winner, or one
    call is the winner and the word is the address of its runner plus the
    number of registered calls, a 64-bit value that is at least
    [max_nfs_size]. *)
Theorem word_is_sentinel_or_counted s :
  reachable cfg s ->
  ((my_state s = uninitialized \/ my_state s = done) /\ regs cfg s = 0 /\
   forall t, (t < nthreads cfg)%nat -> winner_pc (pc (thr s t)) = false)
  \/
  (exists w, (w < nthreads cfg)%nat /\ winner_pc (pc (thr s w)) = true /\
     my_state s = addr cfg w + regs cfg s /\
     0 <= regs cfg s <= Z.of_nat (nthreads cfg) - 1 /\
     max_nfs_size <= my_state s < 2 ^ 64).
Proof.
  intros R. destruct (reachable_word cfg Wf s R) as [M W].
  destruct (iw_phase _ _ W) as [[Hv Hall]|(w & Hwn & Hwp & Huniq & Hst)].
  - left. split; [exact Hv|]. split.
    + apply cnt_all_false. intros t Ht. apply (Hall t Ht).
    + intros t Ht. apply (Hall t Ht).
  - right. exists w.
    destruct (winner_word cfg Wf s w (iw_phase _ _ W) Hwn Hwp) as (_ & Hb & Hr & _).
    change max_nfs_size with 128. splits; auto; lia.
Qed.

(** In every reachable state, for any number of calls: a successful
    compare-and-swap of line 171 writes the word plus one, and the
    [fetch_sub] of line 177 writes the word minus one, without wrapping
    around; the value written is at least [max_nfs_size], so neither
    operation produces a sentinel. *)
Theorem count_updates_stay_in_range s t :
  reachable cfg s -> (t < nthreads cfg)%nat ->
  (pc (thr s t) = L171 -> done < expected (thr s t) ->
   my_state s = expected (thr s t) ->
   step cfg t s =
     Some (with_thr t (goto L173 (thr s t)) (with_word (my_state s + 1) s)) /\
   max_nfs_size < my_state s + 1 < 2 ^ 64) /\
  (pc (thr s t) = L177 ->
   step cfg t s =
     Some (with_thr t (goto L181 (thr s t)) (with_word (my_state s - 1) s)) /\
   max_nfs_size <= my_state s - 1 < 2 ^ 64).
Proof.
  intros R Ht. destruct (reachable_word cfg Wf s R) as [M W].
  pose proof (iw_phase _ _ W) as P.
  split.
  - intros Hpc Hgt Heq.
    destruct P as [[Hv _]|(w & Hwn & Hwp & Huniq & Hst)].
    + unfold uninitialized, done in *. lia.
    + assert (P : word_ok cfg s) by (right; exists w; auto).
      destruct (winner_word cfg Wf s w P Hwn Hwp) as (_ & _ & Hr & _).
      pose proof (wf_room cfg Wf w Hwn).
      assert (Hne : w <> t) by (intros ->; rewrite Hpc in Hwp; discriminate).
      assert (regs cfg s <= Z.of_nat (nthreads cfg) - 2).
      { apply (cnt_miss2 _ _ w t Hwn Ht Hne).
        - apply winner_not_registered. exact Hwp.
        - unfold registered. rewrite Hpc. reflexivity. }
      change max_nfs_size with 128. split; [|lia].
      unfold step. rewrite Hpc.
      replace (done <? expected (thr s t)) with true
        by (symmetry; apply Z.ltb_lt; exact Hgt).
      rewrite Heq, Z.eqb_refl. rewrite wrap_small by lia. reflexivity.
  - intros Hpc.
    assert (Hr : registered (thr s t) = true)
      by (unfold registered; rewrite Hpc; reflexivity).
    destruct (registered_word cfg Wf s t P Ht Hr) as (w & _ & _ & _ & _ & _ & Hb).
    change max_nfs_size with 128. split; [|lia].
    unfold step. rewrite Hpc. rewrite wrap_small by lia. reflexivity.
Qed.

End WordValues.

Section Crashes.
Variable cfg : config.

Lemma crash_sites s :
  reachable cfg s ->
  forall t p, pc (thr s t) = Crashed p -> via_runner p = true.
Proof.
  induction 1 as [|s t s' R IH Ht H]; intros u p.
  - simpl. discriminate.
  - pose proof (reachable_inv_mem cfg s R) as M.
    destruct (Nat.eq_dec u t) as [->|Hne];
      [|rewrite (step_other cfg s s' t u H Hne); apply IH].
    specialize (IH t p).
    step_cases M H; simpl; rewrite ?upd_same; simpl; try discriminate;
      try (rewrite Hpc in IH; exact IH);
      try (intros Hx; injection Hx as <-; reflexivity);
      try (rewrite Hpc; discriminate).
    unfold try_call_on_exception, functor_failure.
    destruct (fails cfg t); discriminate.
Qed.

(** Where a call can go wrong.  In every reachable state a call that went
    wrong did so at line 174, 176, 181 or 183, where it goes through the
    [runner] pointer it decoded; a step from any other line, where a call
    touches only the word and its own runner, never goes wrong.  With at
    most [max_nfs_size] calls, or when no functor raises, no call goes
    wrong at all. *)
Theorem undefined_behaviour_only_via_runner s t :
  reachable cfg s ->
  (forall p, pc (thr s t) = Crashed p -> via_runner p = true) /\
  (wf_config cfg = true -> bounded cfg = true -> (t < nthreads cfg)%nat ->
   forall p, pc (thr s t) <> Crashed p) /\
  (forall s', step cfg t s = Some s' -> via_runner (pc (thr s t)) = false ->
     forall p, pc (thr s' t) <> Crashed p).
Proof.
  intros R. splits.
  - apply crash_sites. exact R.
  - intros Wf B Ht. destruct (reachable_inv cfg Wf s B R) as [_ C].
    apply (ic_nocrash _ _ C t Ht).
  - intros s' H Hv p. pose proof (reachable_inv_mem cfg s R) as M.
    step_cases M H; simpl; rewrite ?upd_same; simpl; try discriminate;
      try (simpl in Hv; discriminate Hv); try (rewrite Hpc; discriminate).
    unfold try_call_on_exception, functor_failure.
    destruct (fails cfg t); discriminate.
Qed.

End Crashes.

(** ** Runners, the cap and the reference counts *)

Section Bundle.
Variable cfg : config.

(** The runner of a live call, in every reachable state.  When
    [m_initialized] is set the bundle is built; the bundle is absent
    exactly when the call has built none, and then [m_initialized] is not
    set.  The completion counter of a bundle is 0 or 1, and 1 exactly
    between [reserve] and the run of the functor.  A failure recorded in the
    bundle's context is the one of the owner's functor, which ran once. *)
Theorem bundle_published s t r :
  reachable cfg s -> live (pc (thr s t)) = true ->
  mem s (addr cfg t) = Some r ->
  (m_initialized r = true -> exists st, m_storage r = Some st) /\
  (occ (ev_construct t) (trace s) = 0%nat <-> m_storage r = None) /\
  (m_storage r = None -> m_initialized r = false) /\
  (forall st, m_storage r = Some st ->
     (my_wait_context st = 0 \/ my_wait_context st = 1) /\
     (my_wait_context st = 1 <-> pc (thr s t) = L116) /\
     (forall e, my_context st = Some e ->
        e = t /\ fails cfg t = true /\ occ (ev_call t) (trace s) = 1%nat)).
Proof.
  intros R L Hm. pose proof (reachable_inv_mem cfg s R) as M.
  destruct (own_runner cfg s t M L) as (rc & ini & st0 & Hs & Hm').
  rewrite Hm in Hm'. injection Hm' as ->. simpl.
  pose proof (im_hist _ _ M t) as Hh. unfold hist_ok in Hh.
  pose proof (im_raised _ _ M t) as Hr.
  unfold functor_failure in Hs.
  destruct (pc (thr s t)); try destruct k; simpl in *; try discriminate L;
    injection Hs as <- <-; injection Hh as <- <- _.
  all: split; [intros Hx; first [discriminate Hx | eexists; reflexivity]|].
  all: split; [split; intros Hx; first [discriminate Hx | reflexivity]|].
  all: split; [intros Hx; first [discriminate Hx | reflexivity]|].
  all: intros st Hst; try discriminate Hst; injection Hst as <-; simpl.
  all: split; [first [left; reflexivity | right; reflexivity]|].
  all: split; [split; intros Hx; first [discriminate Hx | reflexivity]|].
  all: intros e' He'; try discriminate He'.
  all: first
    [ unfold functor_failure in He'; destruct (fails cfg t) eqn:F;
      [ injection He' as <-; auto | discriminate He' ]
    | injection He' as <-; destruct Hr as [-> F]; auto ].
Qed.

End Bundle.

Section Cap.
Variable cfg : config.
Hypothesis Wf : wf_config cfg = true.
Hypothesis B : bounded cfg = true.

(** With a winner at work and the count in its bits, the word decodes to
    the winner's runner and its low bits are the count. *)
Lemma low_bits_count s w :
  Inv_core cfg s -> (w < nthreads cfg)%nat -> winner_pc (pc (thr s w)) = true ->
  my_state s = addr cfg w + regs cfg s /\
  maskoff_pointer (my_state s) = addr cfg w /\
  Z.land (my_state s) (max_nfs_size - 1) = regs cfg s.
Proof.
  intros C Hw Hwp.
  destruct (active_state cfg Wf s w C Hw Hwp) as (Hst & Hr & Hlo & Hhi & Hal & _).
  split; [exact Hst|]. split.
  - rewrite Hst. apply maskoff_base; lia.
  - change (max_nfs_size - 1) with (Z.ones 7). rewrite Z.land_ones by lia.
    change (2 ^ 7) with 128. rewrite Hst.
    rewrite Z.add_mod, Hal by lia. simpl.
    rewrite Z.mod_mod by lia. apply Z.mod_small. lia.
Qed.

Lemma guard_bounded s t :
  reachable cfg s -> (t < nthreads cfg)%nat -> reg_guard cfg t s.
Proof.
  intros R Ht. destruct (bounded_cases cfg B) as [Hn|NF].
  - destruct (reachable_small cfg Wf s Hn R) as [_ C].
    apply guard_small; assumption.
  - destruct (reachable_nf cfg Wf s NF R) as (_ & C & F).
    apply guard_nf; assumption.
Qed.

(** With at most [max_nfs_size] calls, or when no functor raises, in every
    reachable state: the number of registered calls is at most
    [max_nfs_size - 1]; with a winner at work the word decodes to the
    address of its runner and its low bits are the number of registered
    calls; what a registered call holds in [expected] decodes to the
    winner's runner, and so does its [runner] once line 173 is passed; and
    a registration at line 171 that is about to succeed finds at most
    [max_nfs_size - 2] calls registered. *)
Theorem admission_count_within_cap s :
  reachable cfg s ->
  0 <= regs cfg s <= max_nfs_size - 1 /\
  (forall w, (w < nthreads cfg)%nat -> winner_pc (pc (thr s w)) = true ->
     my_state s = addr cfg w + regs cfg s /\
     maskoff_pointer (my_state s) = addr cfg w /\
     Z.land (my_state s) (max_nfs_size - 1) = regs cfg s) /\
  (forall t, (t < nthreads cfg)%nat -> registered (thr s t) = true ->
     exists w, (w < nthreads cfg)%nat /\ winner_pc (pc (thr s w)) = true /\
       maskoff_pointer (expected (thr s t)) = addr cfg w /\
       (pc (thr s t) <> L173 -> runner (thr s t) = addr cfg w)) /\
  (forall t, (t < nthreads cfg)%nat -> pc (thr s t) = L171 ->
     done < expected (thr s t) -> my_state s = expected (thr s t) ->
     regs cfg s <= max_nfs_size - 2).
Proof.
  intros R. destruct (reachable_inv cfg Wf s B R) as [M C].
  pose proof (regs_bounds cfg s) as Hb.
  change max_nfs_size with 128.
  splits.
  - lia.
  - destruct (ic_phase _ _ C) as [[_ Hall]|(w & _ & _ & _ & _ & Hle & _)].
    + assert (regs cfg s = 0); [|lia].
      apply cnt_all_false. intros t Ht. apply (Hall t Ht).
    + change max_nfs_size with 128 in Hle. lia.
  - intros w Hw Hwp. apply low_bits_count; assumption.
  - intros t Ht Hr.
    destruct (registered_view cfg s t C Ht Hr)
      as (w & Hw & _ & Hwp & _ & _ & Hex & Hrun).
    destruct (wf_addr_of cfg Wf w Hw) as (Hal & Hlo & Hhi).
    exists w. splits; auto.
    replace (expected (thr s t))
      with (addr cfg w + (expected (thr s t) - addr cfg w)) by lia.
    apply maskoff_base; lia.
  - intros t Ht Hpc Hgt Heq.
    pose proof (guard_bounded s t R Ht Hpc Hgt Heq) as G.
    change max_nfs_size with 128 in G. exact G.
Qed.

(** With at most [max_nfs_size] calls, or when no functor raises, in every
    reachable state the reference count of the runner of a live call is
    the number of calls between [increase_ref] and [decrease_ref] on it, at
    least 0 and below the number of calls.  It is 0 unless the bundle is
    built and the owner has not got past line 90, so the destructor of a
    call that did not win goes on at once. *)
Theorem ref_count_counts_holders s t :
  reachable cfg s -> (t < nthreads cfg)%nat -> live (pc (thr s t)) = true ->
  exists r, mem s (addr cfg t) = Some r /\
    ref_count r = refs cfg (addr cfg t) s /\
    0 <= ref_count r <= Z.of_nat (nthreads cfg) - 1 /\
    (alive_init (pc (thr s t)) = false -> ref_count r = 0) /\
    (forall k, pc (thr s t) = L90 k -> alive_init (pc (thr s t)) = false ->
       step cfg t s = Some (with_thr t (goto (L91 k) (thr s t)) s)).
Proof.
  intros R Ht L. destruct (reachable_inv cfg Wf s B R) as [M C].
  destruct (ic_ref _ _ C t Ht L) as (r & Hr & Hc).
  assert (Hown : forall h, (h < nthreads cfg)%nat ->
            holds_ref (addr cfg t) (thr s h) = true ->
            h <> t /\ alive_init (pc (thr s t)) = true).
  { intros h Hh Hx.
    destruct (holds_ref_past_init _ _ Hx) as [Hp Hrun].
    destruct (holder_view cfg s h M C Hh Hp) as (w & rc & st & Hw & Er & Hal & _).
    assert (w = t).
    { apply (im_distinct _ _ M); auto using alive_init_live. congruence. }
    subst w. split; [|exact Hal].
    intros ->. destruct (pc (thr s t)); simpl in *; congruence. }
  assert (Hz : alive_init (pc (thr s t)) = false -> refs cfg (addr cfg t) s = 0).
  { intros Hna. apply cnt_all_false. intros h Hh.
    destruct (holds_ref (addr cfg t) (thr s h)) eqn:Hx; [|reflexivity].
    destruct (Hown h Hh Hx) as [_ Hal]. congruence. }
  exists r. splits; auto.
  - rewrite Hc. apply cnt_bounds.
  - rewrite Hc. apply (cnt_miss _ _ t Ht).
    destruct (holds_ref (addr cfg t) (thr s t)) eqn:Hx; [|reflexivity].
    destruct (Hown t Ht Hx) as [Hne _]. congruence.
  - intros Hna. rewrite Hc. auto.
  - intros k Hpc Hna. unfold step. rewrite Hpc, Hr. unfold spin_wait_while.
    rewrite Hc, (Hz Hna). reflexivity.
Qed.

End Cap.

(** ** Rounds of an assisting call *)

Lemma swrap_round z : - 2 ^ 63 <= z < 2 ^ 63 -> swrap (swrap (z + 1) - 1) = z.
Proof.
  intros Hz. unfold swrap.
  destruct (Z.eq_dec z (2 ^ 63 - 1)) as [->|Hne]; [reflexivity|].
  rewrite (Z.mod_small (z + 1 + 2 ^ 63)) by lia.
  replace (z + 1 + 2 ^ 63 - 2 ^ 63 - 1 + 2 ^ 63) with (z + 2 ^ 63) by lia.
  rewrite Z.mod_small by lia. lia.
Qed.

Section Assist.
Variable cfg : config.

(** A whole round of an assisting call that is not interfered with, on a
    runner whose bundle is built and whose task is not pending:
    registration, [wait_for_init], [increase_ref], [fetch_sub], [assist],
    [decrease_ref].  After seven steps the call is back at the head of the
    loop with [expected] as it was; the word, the runners and the trace are
    as before. *)
Theorem assist_round s t r st :
  pc (thr s t) = L171 -> done < expected (thr s t) ->
  my_state s = expected (thr s t) -> expected (thr s t) + 1 < 2 ^ 64 ->
  maskoff_pointer (expected (thr s t)) <> 0 ->
  mem s (maskoff_pointer (expected (thr s t))) = Some r ->
  m_initialized r = true -> m_storage r = Some st -> my_wait_context st = 0 ->
  - 2 ^ 63 <= ref_count r < 2 ^ 63 ->
  exists s', steps cfg t 7 s = Some s' /\
    pc (thr s' t) = L145 /\ expected (thr s' t) = expected (thr s t) /\
    runner (thr s' t) = maskoff_pointer (expected (thr s t)) /\
    my_state s' = my_state s /\ trace s' = trace s /\
    (forall a, mem s' a = mem s a) /\
    (forall u, u <> t -> thr s' u = thr s u).
Proof.
  intros Hpc Hgt Hw Hhi Hnz Hm Hi Hst Hc Hrc.
  set (a := maskoff_pointer (expected (thr s t))) in *.
  assert (Hnz' : (a =? 0) = false) by (apply Z.eqb_neq; exact Hnz).
  assert (Hgt' : (done <? expected (thr s t)) = true) by (apply Z.ltb_lt; exact Hgt).
  unfold done in Hgt.
  unfold steps, step. rewrite Hpc. simpl. rewrite Hgt', Hw, Z.eqb_refl.
  run_steps. fold a. rewrite Hnz'. run_steps. rewrite Hm. run_steps.
  rewrite Hi. run_steps. rewrite Hm. run_steps.
  rewrite Hst. run_steps. rewrite Hc. run_steps.
  eexists. split; [reflexivity|]. run_steps.
  splits; try reflexivity.
  - rewrite (wrap_small (expected (thr s t) + 1)) by lia.
    rewrite wrap_small by lia. lia.
  - intros b. unfold updm. destruct (b =? a) eqn:E; [|reflexivity].
    apply Z.eqb_eq in E. subst b. rewrite Hm. f_equal.
    rewrite swrap_round by exact Hrc. destruct r; reflexivity.
  - intros u Hne. rewrite !upd_other by assumption. reflexivity.
Qed.

(** A call at the head of the loop with an old value in [expected], on a
    flag that is idle or done: it reads the word again and comes back with
    it, having written nothing. *)
Lemma stale_refresh s t :
  pc (thr s t) = L145 -> 1 < expected (thr s t) < 2 ^ 64 ->
  my_state s = uninitialized \/ my_state s = done ->
  exists s', steps cfg t 6 s = Some s' /\
    pc (thr s' t) = L145 /\ expected (thr s' t) = my_state s /\
    my_state s' = my_state s /\ trace s' = trace s /\ mem s' = mem s /\
    (forall u, u <> t -> thr s' u = thr s u).
Proof.
  intros Hpc He Hw.
  destruct (lor_low_value (expected (thr s t)) ltac:(lia)) as (Hs & Hle).
  assert (E1 : (expected (thr s t) =? done) = false)
    by (apply Z.eqb_neq; unfold done; lia).
  assert (E2 : (expected (thr s t) =? uninitialized) = false)
    by (apply Z.eqb_neq; unfold uninitialized; lia).
  assert (E3 : (my_state s =? Z.lor (expected (thr s t)) (max_nfs_size - 1)) = false).
  { apply Z.eqb_neq. unfold uninitialized, done in Hw. lia. }
  assert (E4 : (done <? my_state s) = false).
  { apply Z.ltb_ge. unfold uninitialized, done in *. lia. }
  assert (E5 : (maskoff_pointer (my_state s) =? 0) = true).
  { destruct Hw as [-> | ->]; reflexivity. }
  unfold steps, step. rewrite Hpc. simpl. rewrite E1. run_steps.
  rewrite E2. run_steps.
  match goal with
  | |- context [my_state s =? ?m] =>
      replace (my_state s =? m) with false by (symmetry; exact E3)
  end.
  run_steps. rewrite E4. run_steps.
  rewrite E5.
  eexists. split; [reflexivity|]. run_steps.
  splits; try reflexivity.
  intros u Hne. rewrite !upd_other by assumption. reflexivity.
Qed.

(** The same for a call that read [uninitialized] and finds the flag
    done. *)
Lemma idle_seen_refresh s t :
  pc (thr s t) = L145 -> expected (thr s t) = uninitialized ->
  my_state s = done ->
  exists s', steps cfg t 6 s = Some s' /\
    pc (thr s' t) = L145 /\ expected (thr s' t) = my_state s /\
    my_state s' = my_state s /\ trace s' = trace s /\ mem s' = mem s /\
    (forall u, u <> t -> thr s' u = thr s u).
Proof.
  intros Hpc He Hw.
  unfold steps, step. rewrite Hpc. simpl.
  repeat first [rewrite He | rewrite Hw | run_steps].
  eexists. split; [reflexivity|].
  repeat first [rewrite He | rewrite Hw | run_steps].
  splits; try reflexivity.
  intros u Hne. rewrite !upd_other by assumption. reflexivity.
Qed.

(** Leaving by the end of the loop. *)
Lemma loop_exit s t r :
  pc (thr s t) = L145 -> expected (thr s t) = done ->
  mem s (addr cfg t) = Some r -> ref_count r <= 0 -> m_initialized r = false ->
  exists s', steps cfg t 3 s = Some s' /\
    pc (thr s' t) = Finished exit_loop /\
    my_state s' = my_state s /\ trace s' = trace s /\
    mem s' (addr cfg t) = None /\
    (forall a, a <> addr cfg t -> mem s' a = mem s a) /\
    (forall u, u <> t -> thr s' u = thr s u).
Proof.
  intros Hpc He Hm Hrc Hi.
  assert (Hz : (0 <? ref_count r) = false) by (apply Z.ltb_ge; exact Hrc).
  unfold steps, step. rewrite Hpc. simpl. rewrite He. run_steps.
  rewrite Hm. run_steps. rewrite Hz. run_steps. rewrite Hm, Hi.
  eexists. split; [reflexivity|]. run_steps.
  splits; try reflexivity.
  - intros a Ha. apply updm_other. exact Ha.
  - intros u Hne. rewrite !upd_other by assumption. reflexivity.
Qed.

(** Once the flag is done, a call at the head of the loop that is not
    interfered with ends within nine steps by falling out of the loop,
    whatever it holds in [expected]: it runs no functor, leaves the word
    done and destroys its runner, which has no bundle. *)
Theorem leaves_when_done s t r :
  pc (thr s t) = L145 -> 0 <= expected (thr s t) < 2 ^ 64 ->
  my_state s = done ->
  mem s (addr cfg t) = Some r -> ref_count r <= 0 -> m_initialized r = false ->
  exists n s', (n <= 9)%nat /\ steps cfg t n s = Some s' /\
    pc (thr s' t) = Finished exit_loop /\
    my_state s' = done /\ trace s' = trace s /\
    mem s' (addr cfg t) = None /\
    (forall a, a <> addr cfg t -> mem s' a = mem s a) /\
    (forall u, u <> t -> thr s' u = thr s u).
Proof.
  intros Hpc He Hw Hm Hrc Hi.
  destruct (Z.eq_dec (expected (thr s t)) done) as [Ed|Ed].
  - destruct (loop_exit s t r Hpc Ed Hm Hrc Hi)
      as (s' & E & Hp & Hw' & Ht & Hm' & Hmo & Ho).
    exists 3%nat, s'. splits; auto; try lia; congruence.
  - assert (Href : exists s1, steps cfg t 6 s = Some s1 /\
      pc (thr s1 t) = L145 /\ expected (thr s1 t) = my_state s /\
      my_state s1 = my_state s /\ trace s1 = trace s /\ mem s1 = mem s /\
      (forall u, u <> t -> thr s1 u = thr s u)).
    { destruct (Z.eq_dec (expected (thr s t)) uninitialized) as [E0|E0].
      - apply idle_seen_refresh; assumption.
      - apply stale_refresh; auto. unfold done, uninitialized in *. lia. }
    destruct Href as (s1 & E1 & Hp1 & He1 & Hw1 & Ht1 & Hm1 & Ho1).
    destruct (loop_exit s1 t r Hp1 ltac:(congruence) ltac:(congruence) Hrc Hi)
      as (s' & E & Hp & Hw' & Ht & Hm' & Hmo & Ho).
    exists 9%nat, s'. splits; auto; try congruence.
    + change 9%nat with (6 + 3)%nat. rewrite steps_add, E1. exact E.
    + intros a Ha. rewrite Hmo by assumption. congruence.
    + intros u Hne. rewrite Ho, Ho1 by assumption. reflexivity.
Qed.

(** After a failed attempt has reset the flag, a call that comes back to
    the head of the loop with an old value in [expected] and is not
    interfered with reads the word again, becomes the winner and runs its
    own functor: after sixteen steps it has ended as in [solo_call]. *)
Theorem moonlighter_takes_over s t :
  pc (thr s t) = L145 -> 1 < expected (thr s t) < 2 ^ 64 ->
  my_state s = uninitialized ->
  mem s (addr cfg t) = Some (mk_runner 0 false None) ->
  exists s', steps cfg t 16 s = Some s' /\
    pc (thr s' t) = Finished (if fails cfg t then exit_throw t else exit_return) /\
    my_state s' = (if fails cfg t then uninitialized else done) /\
    trace s' = trace s ++ [ev_construct t; ev_call t; ev_teardown t] /\
    mem s' (addr cfg t) = None /\
    (forall a, a <> addr cfg t -> mem s' a = mem s a) /\
    (forall u, u <> t -> thr s' u = thr s u).
Proof.
  intros Hpc He Hw Hm.
  destruct (stale_refresh s t Hpc He (or_introl Hw))
    as (s1 & E1 & Hp1 & He1 & Hw1 & Ht1 & Hm1 & Ho1).
  assert (Hwin : exists s2, steps cfg t 2 s1 = Some s2 /\
    pc (thr s2 t) = L97 /\ my_state s2 = addr cfg t /\
    mem s2 = mem s1 /\ trace s2 = trace s1 /\
    (forall u, u <> t -> thr s2 u = thr s1 u)).
  { rewrite Hw in He1, Hw1.
    unfold steps, step. rewrite Hp1. simpl.
    repeat first [rewrite He1 | rewrite Hw1 | run_steps].
    eexists. split; [reflexivity|].
    repeat first [rewrite He1 | rewrite Hw1 | run_steps].
    splits; try reflexivity.
    intros u Hne. rewrite !upd_other by assumption. reflexivity. }
  destruct Hwin as (s2 & E2 & Hp2 & Hw2 & Hm2 & Ht2 & Ho2).
  destruct (solo_run cfg s2 t Hp2 ltac:(congruence))
    as (s3 & E3 & Hp3 & Hl3 & Hw3 & Hm3 & Ht3 & Hmo3 & Ho3).
  destruct (solo_leave cfg s3 t _ Hp3 ltac:(congruence) Hm3 ltac:(simpl; lia) eq_refl)
    as (s4 & E4 & Hp4 & Hw4 & Hm4 & Ht4 & Hmo4 & Ho4).
  exists s4. split.
  - change 16%nat with (6 + (2 + (5 + 3)))%nat.
    rewrite steps_add, E1, steps_add, E2, steps_add, E3. exact E4.
  - splits; try assumption.
    + rewrite Ht4, Ht3, Ht2, Ht1, <- app_assoc. reflexivity.
    + intros a Ha. rewrite Hmo4, Hmo3 by assumption. congruence.
    + intros u Hne. rewrite Ho4, Ho3, Ho2, Ho1 by assumption. reflexivity.
Qed.

End Assist.

(** ** The waits *)

Lemma land_lor_low e : Z.land (Z.lor e (max_nfs_size - 1)) (max_nfs_size - 1) = max_nfs_size - 1.
Proof.
  apply Z.bits_inj'. intros i Hi.
  rewrite Z.land_spec, Z.lor_spec.
  destruct (Z.testbit e i), (Z.testbit (max_nfs_size - 1) i); reflexivity.
Qed.

Section Waits.
Variable cfg : config.
Hypothesis Wf : wf_config cfg = true.

(** The winner at line 160, in every reachable state and for any number
    of calls.  The word is the address of its runner exactly when no call
    is registered.  Then the compare-and-swap sets the flag to done and the
    winner goes to its destructor; while a call is registered the
    compare-and-swap fails, and after line 161 the winner is back at line
    160 with [local_expected] re-armed and nothing else changed. *)
Theorem winner_waits_for_registrations s t :
  reachable cfg s -> (t < nthreads cfg)%nat -> pc (thr s t) = L160 ->
  (regs cfg s = 0 <-> my_state s = addr cfg t) /\
  (regs cfg s = 0 ->
   step cfg t s =
     Some (with_thr t (goto (L90 exit_return) (thr s t)) (with_word done s))) /\
  (0 < regs cfg s ->
   step cfg t s =
     Some (with_thr t (goto L161 (set_local_expected (my_state s) (thr s t))) s) /\
   exists s', steps cfg t 2 s = Some s' /\
     pc (thr s' t) = L160 /\ local_expected (thr s' t) = addr cfg t /\
     my_state s' = my_state s /\ mem s' = mem s /\ trace s' = trace s).
Proof.
  intros R Ht Hpc. destruct (reachable_word cfg Wf s R) as [M W].
  assert (Hwp : winner_pc (pc (thr s t)) = true) by (rewrite Hpc; reflexivity).
  destruct (winner_word cfg Wf s t (iw_phase _ _ W) Ht Hwp) as (Hst & Hb & _ & _).
  assert (Hl : local_expected (thr s t) = addr cfg t).
  { apply (im_lexp _ _ M t). rewrite Hpc. reflexivity. }
  splits.
  - split; intros; lia.
  - intros Hz. unfold step. rewrite Hpc, Hl.
    replace (my_state s =? addr cfg t) with true by (symmetry; apply Z.eqb_eq; lia).
    reflexivity.
  - intros Hpos.
    assert (E : step cfg t s =
      Some (with_thr t (goto L161 (set_local_expected (my_state s) (thr s t))) s)).
    { unfold step. rewrite Hpc, Hl.
      replace (my_state s =? addr cfg t) with false by (symmetry; apply Z.eqb_neq; lia).
      reflexivity. }
    split; [exact E|].
    unfold steps. rewrite E. unfold step. simpl. rewrite upd_same. simpl.
    eexists. split; [reflexivity|]. simpl. rewrite upd_same. simpl.
    splits; reflexivity.
Qed.

Lemma sentinel_bits s :
  reachable cfg s ->
  forall t, pc (thr s t) = L169 ->
    Z.land (max_value (thr s t)) (max_nfs_size - 1) = max_nfs_size - 1.
Proof.
  induction 1 as [|s t s' R IH Ht H]; intros u.
  - simpl. discriminate.
  - pose proof (reachable_inv_mem cfg s R) as M.
    destruct (Nat.eq_dec u t) as [->|Hne];
      [|rewrite (step_other cfg s s' t u H Hne); apply IH].
    specialize (IH t).
    step_cases M H; simpl; rewrite ?upd_same; simpl; try discriminate;
      try (rewrite Hpc; discriminate); try (intros _; apply land_lor_low);
      try (intros _; apply IH; reflexivity).
    unfold try_call_on_exception, functor_failure.
    destruct (fails cfg t); discriminate.
Qed.

(** The wait of line 169, with at most [max_nfs_size] calls or when no
    functor raises.  When the word differs from [max_value] the call goes
    on to line 171 with the word in [expected].  The call waits only when
    [max_nfs_size - 1] calls are registered and the word is the saturated
    value of the winner's runner; with at most [max_nfs_size] calls it
    never waits. *)
Theorem wait_only_when_saturated s t :
  bounded cfg = true -> reachable cfg s -> (t < nthreads cfg)%nat ->
  pc (thr s t) = L169 ->
  (my_state s <> max_value (thr s t) ->
   step cfg t s = Some (with_thr t (goto L171 (set_expected (my_state s) (thr s t))) s)) /\
  (my_state s = max_value (thr s t) ->
   step cfg t s = Some s /\ regs cfg s = max_nfs_size - 1 /\
   exists w, (w < nthreads cfg)%nat /\ winner_pc (pc (thr s w)) = true /\
     my_state s = Z.lor (addr cfg w) (max_nfs_size - 1)) /\
  (Z.of_nat (nthreads cfg) <= max_nfs_size -> my_state s <> max_value (thr s t)).
Proof.
  intros B R Ht Hpc.
  pose proof (sentinel_bits s R t Hpc) as Hbits.
  destruct (reachable_inv cfg Wf s B R) as [_ C].
  pose proof (fun w Hwn Hwp => low_bits_count cfg Wf s w C Hwn Hwp) as Hw.
  destruct (reachable_word cfg Wf s R) as [M W].
  assert (Hsat : my_state s = max_value (thr s t) ->
    regs cfg s = max_nfs_size - 1 /\
    exists w, (w < nthreads cfg)%nat /\ winner_pc (pc (thr s w)) = true /\
      my_state s = Z.lor (addr cfg w) (max_nfs_size - 1) /\ w <> t).
  { intros E. rewrite <- E in Hbits.
    destruct (iw_phase _ _ W) as [[[Hv|Hv] _]|(w & Hwn & Hwp & _ & Hst)].
    - rewrite Hv in Hbits. discriminate Hbits.
    - rewrite Hv in Hbits. discriminate Hbits.
    - destruct (Hw w Hwn Hwp) as (_ & _ & Hl). rewrite Hbits in Hl.
      split; [lia|]. exists w. splits; auto.
      + destruct (wf_addr_of cfg Wf w Hwn) as (Hal & Hlo & Hhi).
        pose proof (lor_sentinel (addr cfg w) 0 ltac:(lia) Hal ltac:(lia)) as Hlor.
        rewrite Z.add_0_r in Hlor. rewrite Hlor, Hst, <- Hl.
        change (max_nfs_size - 1) with 127. reflexivity.
      + intros ->. rewrite Hpc in Hwp. discriminate. }
  splits.
  - intros Hne. unfold step. rewrite Hpc. unfold spin_wait_while_eq.
    replace (my_state s =? max_value (thr s t)) with false
      by (symmetry; apply Z.eqb_neq; exact Hne).
    reflexivity.
  - intros E. destruct (Hsat E) as (Hr & w & Hwn & Hwp & Hl & _).
    split; [|split; [exact Hr | exists w; auto]].
    unfold step. rewrite Hpc. unfold spin_wait_while_eq.
    rewrite E, Z.eqb_refl. reflexivity.
  - intros Hn E. destruct (Hsat E) as (Hr & w & Hwn & Hwp & _ & Hne).
    assert (regs cfg s <= Z.of_nat (nthreads cfg) - 2).
    { apply (cnt_miss2 _ _ w t Hwn Ht Hne).
      - apply winner_not_registered. exact Hwp.
      - unfold registered. rewrite Hpc. reflexivity. }
    lia.
Qed.

End Waits.

(** ** Instances *)


Lemma sequential_calls_witness :
  trace (exec cfg3 (sequential [0%nat; 1%nat; 2%nat]) init) =
    [ev_construct 0%nat; ev_call 0%nat; ev_teardown 0%nat;
     ev_construct 1%nat; ev_call 1%nat; ev_teardown 1%nat] /\
  my_state (exec cfg3 (sequential [0%nat; 1%nat; 2%nat]) init) = done.
Proof.
  destruct (sequential_calls cfg3 [0%nat; 1%nat; 2%nat] init) as (Ht & Hw & _).
  - repeat constructor; simpl; intuition discriminate.
  - intros t [<-|[<-|[<-|[]]]]; repeat split; simpl; lia.
  - reflexivity.
  - split; [exact Ht | exact Hw].
Defined.

Lemma functor_runs_at_most_once_witness :
  (occ (ev_call 0%nat) (trace s_failed3) <= occ (ev_construct 0%nat) (trace s_failed3))%nat /\
  occ (ev_teardown 0%nat) (trace s_failed3) = 0%nat.
Proof.
  destruct (functor_runs_at_most_once cfg3 s_failed3 0%nat)
    as (_ & H & _ & _ & Hw); [apply reachable_exec; apply reach_init|].
  split; [exact H | apply Hw; reflexivity].
Defined.

Lemma word_is_sentinel_or_counted_witness :
  exists w, (w < nthreads cfg3)%nat /\ winner_pc (pc (thr s_handoff3 w)) = true /\
    my_state s_handoff3 = addr cfg3 w + regs cfg3 s_handoff3.
Proof.
  destruct (word_is_sentinel_or_counted cfg3 eq_refl s_handoff3)
    as [([H|H] & _)|(w & Hw & Hwp & Hst & _)];
    [ apply reachable_exec; apply reach_init
    | vm_compute in H; discriminate H | vm_compute in H; discriminate H | ].
  exists w. auto.
Defined.

Lemma count_updates_stay_in_range_witness :
  step cfg3 2%nat s_handoff3 =
    Some (with_thr 2%nat (goto L181 (thr s_handoff3 2%nat))
            (with_word (my_state s_handoff3 - 1) s_handoff3)) /\
  max_nfs_size <= my_state s_handoff3 - 1 < 2 ^ 64.
Proof.
  destruct (count_updates_stay_in_range cfg3 eq_refl s_handoff3 2%nat) as (_ & H);
    [ apply reachable_exec; apply reach_init | simpl; lia | ].
  apply H. reflexivity.
Defined.

Lemma done_by_one_return_witness :
  my_state s_done3 = done /\
  fails cfg3 1%nat = false /\ occ (ev_call 1%nat) (trace s_done3) = 1%nat.
Proof.
  destruct (done_by_one_return cfg3 eq_refl s_done3) as (_ & H & _);
    [apply reachable_exec; apply reach_init|].
  split; [reflexivity|]. apply H; [simpl; lia | reflexivity].
Defined.

Lemma undefined_behaviour_only_via_runner_witness :
  pc (thr s_stray 130%nat) = Crashed L174 /\ via_runner L174 = true.
Proof.
  destruct (undefined_behaviour_only_via_runner cfg_wide131 s_stray 130%nat) as (H & _).
  - apply reachable_exec. apply reachable_exec. apply reach_init.
  - assert (E : pc (thr s_stray 130%nat) = Crashed L174) by (vm_compute; reflexivity).
    split; [exact E | exact (H L174 E)].
Defined.

Lemma bundle_published_witness :
  exists st, m_storage (mk_runner 1 true (Some (mk_storage 1 None))) = Some st.
Proof.
  destruct (bundle_published cfg3 s_handoff3 1%nat
              (mk_runner 1 true (Some (mk_storage 1 None)))) as (H & _);
    [ apply reachable_exec; apply reach_init | reflexivity | reflexivity | ].
  apply H. reflexivity.
Defined.

Lemma admission_count_within_cap_witness :
  0 <= regs cfg3 s_handoff3 <= max_nfs_size - 1 /\
  maskoff_pointer (my_state s_handoff3) = addr cfg3 1%nat.
Proof.
  destruct (admission_count_within_cap cfg3 eq_refl eq_refl s_handoff3)
    as (H & Hw & _); [apply reachable_exec; apply reach_init|].
  split; [exact H|].
  destruct (Hw 1%nat) as (_ & Hm & _); [simpl; lia | reflexivity | exact Hm].
Defined.

Lemma ref_count_counts_holders_witness :
  exists r, mem s_handoff3 (addr cfg3 1%nat) = Some r /\
    ref_count r = refs cfg3 (addr cfg3 1%nat) s_handoff3.
Proof.
  destruct (ref_count_counts_holders cfg3 eq_refl eq_refl s_handoff3 1%nat)
    as (r & Hm & Hc & _);
    [ apply reachable_exec; apply reach_init | simpl; lia | reflexivity | ].
  exists r. auto.
Defined.

Lemma assist_round_witness :
  exists s', steps cfg3 2%nat 7 s_at_171 = Some s' /\
    pc (thr s' 2%nat) = L145 /\ my_state s' = my_state s_at_171 /\
    (forall a, mem s' a = mem s_at_171 a).
Proof.
  destruct (assist_round cfg3 s_at_171 2%nat
              (mk_runner 0 true (Some (mk_storage 0 None))) (mk_storage 0 None))
    as (s' & E & Hp & _ & _ & Hw & _ & Hm & _);
    [ reflexivity | reflexivity | reflexivity | vm_compute; reflexivity
    | vm_compute; discriminate | reflexivity | reflexivity | reflexivity
    | reflexivity | simpl; lia | ].
  exists s'. auto.
Defined.

Lemma leaves_when_done_witness :
  exists n s', (n <= 9)%nat /\ steps cfg3 2%nat n s_back_done = Some s' /\
    pc (thr s' 2%nat) = Finished exit_loop /\ trace s' = trace s_back_done.
Proof.
  destruct (leaves_when_done cfg3 s_back_done 2%nat (mk_runner 0 false None))
    as (n & s' & Hn & E & Hp & _ & Ht & _);
    [ reflexivity | vm_compute; split; [discriminate | reflexivity] | reflexivity
    | reflexivity | simpl; lia | reflexivity | ].
  exists n, s'. auto.
Defined.

Lemma moonlighter_takes_over_witness :
  exists s', steps cfg3 1%nat 16 s_back_reset = Some s' /\
    pc (thr s' 1%nat) = Finished exit_return /\ my_state s' = done.
Proof.
  destruct (moonlighter_takes_over cfg3 s_back_reset 1%nat)
    as (s' & E & Hp & Hw & _);
    [ reflexivity | vm_compute; split; reflexivity | reflexivity | reflexivity | ].
  exists s'. auto.
Defined.

Lemma winner_waits_for_registrations_witness :
  step cfg3 1%nat s_at_160 =
    Some (with_thr 1%nat (goto (L90 exit_return) (thr s_at_160 1%nat))
            (with_word done s_at_160)).
Proof.
  destruct (winner_waits_for_registrations cfg3 eq_refl s_at_160 1%nat)
    as (_ & H & _);
    [ apply reachable_exec; apply reach_init | simpl; lia | reflexivity | ].
  apply H. reflexivity.
Defined.

Lemma wait_only_when_saturated_witness :
  step cfg3 2%nat s_at_169 =
    Some (with_thr 2%nat (goto L171 (set_expected (my_state s_at_169) (thr s_at_169 2%nat)))
            s_at_169).
Proof.
  destruct (wait_only_when_saturated cfg3 eq_refl s_at_169 2%nat)
    as (H & _ & Hn);
    [ reflexivity | apply reachable_exec; apply reach_init | simpl; lia
    | reflexivity | ].
  apply H. apply Hn. vm_compute. discriminate.
Defined.
